(** * Big-Brother: the MLB analytics mobile client and its query resolver

    A shallow embedding of the TypeScript client
    (react-native-frontend/mlb-analytics-mobile/src): the axios based
    [MLBApiService], the zustand stores (auth, search, favorites), the
    search screen and the natural-language search hook.  Asynchronous
    functions become computations in a state-and-exception monad over an
    explicit [World]; a rejected promise is a [Throw].

    The resolver pipeline of the specification (plan execution, ambiguity
    handling) has no source in the client; the parts that are needed are
    modelled from the specification in [Module Resolver]. *)

From Stdlib Require Import QArith Qminmax.
From stdpp Require Import base option list strings gmap pretty.

Local Open Scope Z_scope.

(* ===================================================================== *)
(** ** JavaScript strings and [String.prototype.trim]                     *)
(* ===================================================================== *)

Module Js.

(** A JavaScript string is a sequence of UTF-16 code units. *)
Definition JsString := list N.

(** ASCII text as code units, for literals. *)
Fixpoint of_string (s : string) : JsString :=
  match s with
  | EmptyString => []
  | String a r => Ascii.N_of_ascii a :: of_string r
  end.

(** ECMAScript WhiteSpace and LineTerminator code points: the characters
    that [trim] strips. *)
Definition is_whitespace (c : N) : bool :=
  ((9 <=? c) && (c <=? 13) || (c =? 32) || (c =? 160) || (c =? 5760)
   || (8192 <=? c) && (c <=? 8202) || (c =? 8232) || (c =? 8233)
   || (c =? 8239) || (c =? 8287) || (c =? 12288) || (c =? 65279))%N.

Fixpoint drop_while {A} (p : A -> bool) (l : list A) : list A :=
  match l with
  | [] => []
  | x :: r => if p x then drop_while p r else l
  end.

Definition trimStart (s : JsString) : JsString := drop_while is_whitespace s.
Definition trimEnd (s : JsString) : JsString :=
  rev (drop_while is_whitespace (rev s)).
Definition trim (s : JsString) : JsString := trimEnd (trimStart s).

(** Truthiness of a string: only the empty string is falsy. *)
Definition truthy (s : JsString) : bool :=
  match s with [] => false | _ => true end.

(** [a || b] on an optional string field: [undefined], [null] and the
    empty string all fall through to [b]. *)
Definition or_else (a : option string) (b : string) : string :=
  match a with
  | Some s => if decide (s = "") then b else s
  | None => b
  end.

(** A template literal renders an absent field as the text undefined. *)
Definition interpolate (a : option string) : string :=
  match a with Some s => s | None => "undefined" end.

End Js.

(* ===================================================================== *)
(** ** Regular expressions                                              *)
(* ===================================================================== *)

Module RegExp.
Import Js.

(** The patterns the client uses: character classes, sequence and [+];
    [Void], [Eps], [Alt] and [Star] are what their derivatives need. *)
Inductive Re :=
| Void
| Eps
| Cls (p : N → bool)
| Seq (r s : Re)
| Alt (r s : Re)
| Star (r : Re).

(** [r+] *)
Definition Plus (r : Re) : Re := Seq r (Star r).

(** A single code unit. *)
Definition Chr (c : N) : Re := Cls (N.eqb c).

(** [\S] and any code unit. *)
Definition not_space : N → bool := λ c, negb (is_whitespace c).
Definition any : N → bool := λ _, true.

Fixpoint nullable (r : Re) : bool :=
  match r with
  | Void => false
  | Eps => true
  | Cls _ => false
  | Seq r s => nullable r && nullable s
  | Alt r s => nullable r || nullable s
  | Star _ => true
  end.

(** The derivative of [r] by the code unit [c]: what is left to match
    after [c]. *)
Fixpoint deriv (c : N) (r : Re) : Re :=
  match r with
  | Void => Void
  | Eps => Void
  | Cls p => if p c then Eps else Void
  | Seq r s =>
      if nullable r then Alt (Seq (deriv c r) s) (deriv c s)
      else Seq (deriv c r) s
  | Alt r s => Alt (deriv c r) (deriv c s)
  | Star r => Seq (deriv c r) (Star r)
  end.

(** The whole string matches: [/^r$/.test(s)]. *)
Definition matches (r : Re) (s : JsString) : bool :=
  nullable (foldl (λ r c, deriv c r) r s).

(** Some substring matches: [/r/.test(s)]. *)
Definition test (r : Re) (s : JsString) : bool :=
  matches (Seq (Star (Cls any)) (Seq r (Star (Cls any)))) s.

(** The strings of a pattern. *)
Inductive Matches : Re → JsString → Prop :=
| MEps : Matches Eps []
| MCls p c : p c = true → Matches (Cls p) [c]
| MSeq r s a b : Matches r a → Matches s b → Matches (Seq r s) (a ++ b)
| MAltL r s a : Matches r a → Matches (Alt r s) a
| MAltR r s a : Matches s a → Matches (Alt r s) a
| MStar0 r : Matches (Star r) []
| MStarS r a b :
    Matches r a → Matches (Star r) b → Matches (Star r) (a ++ b).

End RegExp.

(* ===================================================================== *)
(** ** The client                                                         *)
(* ===================================================================== *)

Module Client.
Import Js.

(** *** Wire data *)

Record User := { user_id : Z; user_email : string }.

(** A player object as the backend sends it.  The screen reads [id],
    [name], [position] and [team]; a field may be absent.
    [player_confidence] is the confidence of a Candidate Match of the
    specification, when the backend sends one: the screen copies the
    whole object into [data] and never reads it. *)
Record PlayerPayload := {
  player_id : Z;
  player_name : option string;
  player_position : option string;
  player_team : option string;
  player_confidence : option Q
}.

(** A response body other than JSON null, typed [any] in the source, as
    the client observes it: whether it is truthy, and every field the
    client ever reads, each possibly absent.  An object is truthy.  The
    empty string, which is what axios gives for a response without a
    body, is falsy and has no field. *)
Record Body := {
  b_truthy : bool;
  b_token : option string;
  b_user : option User;
  b_results : option (list PlayerPayload);
  b_success : bool;
  b_response : option string;
  b_data : option string;
  b_message : option string
}.

Inductive Method := GET | POST | DELETE.

Inductive Param :=
| PStr (name : string) (value : JsString)
| PNum (name : string) (value : Z).

(** A request as it leaves the axios instance, after the request
    interceptor has added the Authorization header. *)
Record Request := {
  req_method : Method;
  req_url : string;
  req_params : list Param;
  req_authorization : option string
}.

(** What the network does with a request: how long it takes, and the
    response if one arrives ([None]: connection failure).  The [data] of
    a response is [None] when the body is JSON null. *)
Record Reply := { status : Z; data : option Body }.
Record Exchange := { latency : Z; reply : option Reply }.

(** *** Errors *)

Inductive AxiosFailure :=
| Timeout                                  (* ECONNABORTED, no response *)
| Network                                  (* no response *)
| BadStatus (st : Z) (body : option Body). (* error.response *)

Inductive JsError :=
| EAxios (f : AxiosFailure)
| EError (message : string)                (* new Error(message) *)
| ESecureStore                             (* SecureStore rejection *)
| ETypeError.                              (* property read on null *)

(** [error.response?.status] *)
Definition response_status (e : JsError) : option Z :=
  match e with
  | EAxios (BadStatus st _) => Some st
  | _ => None
  end.

(** [error.response?.data?.message] *)
Definition response_message (e : JsError) : option string :=
  match e with
  | EAxios (BadStatus _ (Some b)) => b_message b
  | _ => None
  end.

(** *** Store and component state *)

Record AuthState := {
  user : option User;
  isAuthenticated : bool;
  isLoading : bool;
  error : option string
}.

Record SearchEntry := {
  se_id : string;
  se_query : JsString;
  se_timestamp : Z;
  se_results : nat
}.

Record SearchState := {
  recentSearches : list SearchEntry;
  isSearching : bool;
  currentResults : list PlayerPayload
}.

Record FavoritesState := {
  favoriteTeams : list Z;
  favoritePlayers : list Z
}.

Inductive ResultType := TPlayer | TTeam | TStat | TGame.

Record SearchResult := {
  sr_id : Z;
  sr_type : ResultType;
  sr_title : option string;
  sr_subtitle : string;
  sr_data : PlayerPayload;
  relevance : Q
}.

(** [useState] cells of SearchScreen. *)
Record ScreenState := {
  scr_loading : bool;
  scr_results : list SearchResult;
  scr_nlResponse : option Body
}.

(** [useState] cells of useNaturalLanguageSearch. *)
Record HookState := {
  hk_results : option string;
  hk_loading : bool
}.

(** *** The world *)

(** The environment the client runs in; nothing here is written by the
    client. *)
Record Env := {
  backend : list Request -> Request -> Exchange;
  keychain_up : bool;          (* does SecureStore answer? *)
  clock : nat -> Z             (* successive readings of Date.now() *)
}.

Record World := {
  env : Env;
  ticks : nat;                         (* readings of the clock so far *)
  sent : list Request;                 (* requests issued, oldest first *)
  console : list string;               (* console.error / console.log *)
  secureStore : gmap string string;    (* expo-secure-store *)
  authToken : option string;           (* MLBApiService.authToken *)
  auth : AuthState;
  search : SearchState;
  favorites : FavoritesState;
  screen : ScreenState;
  hook : HookState
}.

Definition with_ticks (n : nat) (w : World) : World :=
  {| env := env w; ticks := n; sent := sent w; console := console w;
     secureStore := secureStore w; authToken := authToken w; auth := auth w;
     search := search w; favorites := favorites w; screen := screen w;
     hook := hook w |}.
Definition with_sent (l : list Request) (w : World) : World :=
  {| env := env w; ticks := ticks w; sent := l; console := console w;
     secureStore := secureStore w; authToken := authToken w; auth := auth w;
     search := search w; favorites := favorites w; screen := screen w;
     hook := hook w |}.
Definition with_console (l : list string) (w : World) : World :=
  {| env := env w; ticks := ticks w; sent := sent w; console := l;
     secureStore := secureStore w; authToken := authToken w; auth := auth w;
     search := search w; favorites := favorites w; screen := screen w;
     hook := hook w |}.
Definition with_secureStore (m : gmap string string) (w : World) : World :=
  {| env := env w; ticks := ticks w; sent := sent w; console := console w;
     secureStore := m; authToken := authToken w; auth := auth w;
     search := search w; favorites := favorites w; screen := screen w;
     hook := hook w |}.
Definition with_authToken (t : option string) (w : World) : World :=
  {| env := env w; ticks := ticks w; sent := sent w; console := console w;
     secureStore := secureStore w; authToken := t; auth := auth w;
     search := search w; favorites := favorites w; screen := screen w;
     hook := hook w |}.
Definition with_auth (a : AuthState) (w : World) : World :=
  {| env := env w; ticks := ticks w; sent := sent w; console := console w;
     secureStore := secureStore w; authToken := authToken w; auth := a;
     search := search w; favorites := favorites w; screen := screen w;
     hook := hook w |}.
Definition with_search (s : SearchState) (w : World) : World :=
  {| env := env w; ticks := ticks w; sent := sent w; console := console w;
     secureStore := secureStore w; authToken := authToken w; auth := auth w;
     search := s; favorites := favorites w; screen := screen w;
     hook := hook w |}.
Definition with_favorites (f : FavoritesState) (w : World) : World :=
  {| env := env w; ticks := ticks w; sent := sent w; console := console w;
     secureStore := secureStore w; authToken := authToken w; auth := auth w;
     search := search w; favorites := f; screen := screen w;
     hook := hook w |}.
Definition with_screen (s : ScreenState) (w : World) : World :=
  {| env := env w; ticks := ticks w; sent := sent w; console := console w;
     secureStore := secureStore w; authToken := authToken w; auth := auth w;
     search := search w; favorites := favorites w; screen := s;
     hook := hook w |}.
Definition with_hook (h : HookState) (w : World) : World :=
  {| env := env w; ticks := ticks w; sent := sent w; console := console w;
     secureStore := secureStore w; authToken := authToken w; auth := auth w;
     search := search w; favorites := favorites w; screen := screen w;
     hook := h |}.

(** *** Asynchronous computations *)

(** How a call ends: it returns (the promise resolves) or it throws (the
    promise rejects). *)
Inductive Completion (A : Type) :=
| Return (a : A)
| Throw (e : JsError).
Arguments Return {A} a.
Arguments Throw {A} e.

(** Writes made before a throw stay made, so the world is threaded
    through both outcomes. *)
Definition Async (A : Type) : Type := World -> Completion A * World.

Definition ret {A} (a : A) : Async A := fun w => (Return a, w).
Definition throw {A} (e : JsError) : Async A := fun w => (Throw e, w).
Definition bind {A B} (m : Async A) (k : A -> Async B) : Async B :=
  fun w =>
    match m w with
    | (Return a, w') => k a w'
    | (Throw e, w') => (Throw e, w')
    end.

Declare Scope async_scope.
Delimit Scope async_scope with async.
Notation "x <- m ;; k" := (bind m (fun x => k))
  (at level 100, m at next level, right associativity) : async_scope.
Notation "m ;; k" := (bind m (fun _ => k))
  (at level 100, right associativity) : async_scope.
Local Open Scope async_scope.

Definition gets {A} (f : World -> A) : Async A := fun w => (Return (f w), w).
Definition modify (f : World -> World) : Async unit :=
  fun w => (Return tt, f w).

(** [try { body } catch (e) { handler }] *)
Definition try_catch {A} (body : Async A) (handler : JsError -> Async A)
  : Async A :=
  fun w =>
    match body w with
    | (Return a, w') => (Return a, w')
    | (Throw e, w') => handler e w'
    end.

(** [try { body } finally { fin }]: [fin] always runs; if it throws, its
    error replaces the completion of [body]. *)
Definition try_finally {A} (body : Async A) (fin : Async unit) : Async A :=
  fun w =>
    match body w with
    | (c, w') =>
        match fin w' with
        | (Return _, w'') => (c, w'')
        | (Throw e, w'') => (Throw e, w'')
        end
    end.

Definition when (b : bool) (m : Async unit) : Async unit :=
  if b then m else ret tt.

Definition console_error (msg : string) : Async unit :=
  modify (fun w => with_console (console w ++ [msg]) w).

(** [Date.now()] *)
Definition date_now : Async Z :=
  fun w => (Return (clock (env w) (ticks w)), with_ticks (S (ticks w)) w).

(** *** expo-secure-store *)

Module SecureStore.

(** [deleteItemAsync(key)]: rejects when the keychain does
    not answer, otherwise the key is gone afterwards. *)
Definition deleteItemAsync (key : string) : Async unit :=
  fun w =>
    if keychain_up (env w)
    then (Return tt, with_secureStore (delete key (secureStore w)) w)
    else (Throw ESecureStore, w).

(** [setItemAsync(key, value)]: the value must be a string, and the
    keychain must answer. *)
Definition setItemAsync (key : string) (value : option string) : Async unit :=
  fun w =>
    match value with
    | Some v =>
        if keychain_up (env w)
        then (Return tt, with_secureStore (<[key := v]> (secureStore w)) w)
        else (Throw ESecureStore, w)
    | None => (Throw ESecureStore, w)
    end.

(** [getItemAsync(key)]: rejects when the keychain does not answer,
    otherwise the stored value, or null. *)
Definition getItemAsync (key : string) : Async (option string) :=
  fun w =>
    if keychain_up (env w)
    then (Return (secureStore w !! key), w)
    else (Throw ESecureStore, w).

End SecureStore.

(** *** MLBApiService (services/mlbApi, exported as [mlbApi]) *)

(** The value in the environment file (API_TIMEOUT=10000, 10 seconds).
    No source file reads it. *)
Definition API_TIMEOUT : Z := 10000.

Module mlbApi.

(** [axios.create({ baseURL, timeout: 30000, ... })]: the timeout every
    request of the instance is issued with, in milliseconds. *)
Definition axios_timeout : Z := 30000.

(** [validateStatus] of axios: a 2xx status resolves the promise. *)
Definition status_ok (st : Z) : bool := (200 <=? st) && (st <? 300).

(** One exchange through the axios adapter: the request is aborted when
    it takes longer than the instance's timeout. *)
Definition adapter (r : Request) : Async (option Body) :=
  fun w =>
    let x := backend (env w) (sent w) r in
    let w' := with_sent (sent w ++ [r]) w in
    if axios_timeout <? latency x then (Throw (EAxios Timeout), w')
    else match reply x with
         | None => (Throw (EAxios Network), w')
         | Some rp =>
             if status_ok (status rp) then (Return (data rp), w')
             else (Throw (EAxios (BadStatus (status rp) (data rp))), w')
         end.

Definition handleAuthError : Async unit :=
  SecureStore.deleteItemAsync "auth_token" ;;
  modify (with_authToken None).

(** Request interceptor: [if (this.authToken)] adds the header. *)
Definition authorization (tok : option string) : option string :=
  match tok with
  | Some t => if decide (t = "") then None else Some ("Token " +:+ t)
  | None => None
  end.

(** A call on [this.api]: the request interceptor, the adapter, and the
    response interceptor, which on a 401 clears the token before it
    rejects with the same error. *)
Definition api_call (m : Method) (url : string) (params : list Param)
  : Async (option Body) :=
  tok <- gets authToken ;;
  try_catch
    (adapter {| req_method := m; req_url := url; req_params := params;
                req_authorization := authorization tok |})
    (fun e =>
       when (bool_decide (response_status e = Some 401)) handleAuthError ;;
       throw e).

Definition logout : Async unit :=
  try_finally
    (try_catch
       (api_call POST "/api/v1/auth/logout/" [] ;; ret tt)
       (fun _ => ret tt))
    (SecureStore.deleteItemAsync "auth_token" ;;
     modify (with_authToken None)).

(** [response.data.results]: the read throws a TypeError on a JSON null
    body and gives undefined on a body without the field, the empty
    body included. *)
Definition searchPlayers (query : JsString)
  : Async (option (list PlayerPayload)) :=
  try_catch
    (d <- api_call GET "/api/players/search/"
            [PStr "q" query; PNum "limit" 20] ;;
     match d with
     | Some b => ret (b_results b)
     | None => throw ETypeError
     end)
    (fun _ =>
       console_error "Player search error:" ;;
       throw (EError "Failed to search players")).

Definition naturalLanguageSearch (query : JsString) : Async (option Body) :=
  try_catch
    (api_call POST "/api/v1/search/natural/" [PStr "query" query])
    (fun e => throw (EError (or_else (response_message e) "Search failed"))).

Definition addFavoriteTeam (teamId : Z) : Async (option Body) :=
  try_catch
    (api_call POST "/api/favorites/teams/" [PNum "teamId" teamId])
    (fun e =>
       throw (EError (or_else (response_message e)
                              "Failed to add favorite team"))).

Definition addFavoritePlayer (playerId : Z) : Async (option Body) :=
  try_catch
    (api_call POST "/api/favorites/players/" [PNum "playerId" playerId])
    (fun e =>
       throw (EError (or_else (response_message e)
                              "Failed to add favorite player"))).

(** The body of [login] and of [register] after the request: the token is
    kept in memory, then written to the secure store.  Destructuring a
    JSON null body throws a TypeError; a body without a token, the empty
    body included, gives undefined, which the secure store refuses. *)
Definition store_session (d : option Body)
  : Async (option string * option User) :=
  match d with
  | Some b =>
      modify (with_authToken (b_token b)) ;;
      SecureStore.setItemAsync "auth_token" (b_token b) ;;
      ret (b_token b, b_user b)
  | None => throw ETypeError
  end.

Definition login (email password : JsString)
  : Async (option string * option User) :=
  try_catch
    (d <- api_call POST "/api/v1/auth/login/"
            [PStr "email" email; PStr "password" password] ;;
     store_session d)
    (fun e => throw (EError (or_else (response_message e) "Login failed"))).

Definition register (email password firstName lastName : JsString)
  : Async (option string * option User) :=
  try_catch
    (d <- api_call POST "/api/v1/auth/register/"
            [PStr "email" email; PStr "password" password;
             PStr "firstName" firstName; PStr "lastName" lastName] ;;
     store_session d)
    (fun e =>
       throw (EError (or_else (response_message e) "Registration failed"))).

Definition getPlayerProfile (playerId : Z) : Async (option Body) :=
  try_catch
    (api_call GET
       ("/api/v1/players/players/" +:+ pretty playerId +:+ "/profile/") [])
    (fun _ =>
       console_error "Player profile error:" ;;
       throw (EError "Failed to get player profile")).

(** [seasons.join(',')] *)
Definition join_seasons (seasons : list Z) : string :=
  String.concat "," (pretty <$> seasons).

Definition getPlayerVenuePerformance (playerId venueId : Z)
    (seasons : option (list Z)) : Async (option Body) :=
  try_catch
    (let params :=
       PNum "venue_id" venueId ::
       match seasons with
       | Some (y :: ys) => [PStr "seasons" (of_string (join_seasons (y :: ys)))]
       | _ => []
       end in
     api_call GET
       ("/api/players/" +:+ pretty playerId +:+ "/venue-performance/") params)
    (fun _ =>
       console_error "Venue performance error:" ;;
       throw (EError "Failed to get venue performance")).

(** The methods that share one shape: a request, and a catch that throws
    the message of the response or a default. *)
Definition fetch_or (m : Method) (url : string) (params : list Param)
    (fallback : string) : Async (option Body) :=
  try_catch
    (api_call m url params)
    (fun e => throw (EError (or_else (response_message e) fallback))).

Definition getTeamProfile (teamId : Z) : Async (option Body) :=
  fetch_or GET ("/api/v1/teams/teams/" +:+ pretty teamId +:+ "/profile/") []
    "Failed to fetch team profile".

Definition getTeamGames (teamId : Z) : Async (option Body) :=
  fetch_or GET ("/api/v1/teams/teams/" +:+ pretty teamId +:+ "/games/") []
    "Failed to fetch team games".

(** [division ? { division } : {}]: an empty division is no parameter. *)
Definition getStandings (division : option JsString) : Async (option Body) :=
  fetch_or GET "/api/v1/standings/"
    match division with
    | Some (c :: d) => [PStr "division" (c :: d)]
    | _ => []
    end
    "Failed to fetch standings".

Definition getRecentGames : Async (option Body) :=
  fetch_or GET "/api/v1/games/games/recent/" [] "Failed to fetch recent games".

Definition getUpcomingGames : Async (option Body) :=
  fetch_or GET "/api/v1/games/games/upcoming/" []
    "Failed to fetch upcoming games".

Definition addFavorite (item : list Param) : Async (option Body) :=
  fetch_or POST "/api/favorites/" item "Failed to add favorite".

Definition removeFavorite (id : string) : Async unit :=
  fetch_or DELETE ("/api/favorites/" +:+ id +:+ "/") []
    "Failed to remove favorite" ;;
  ret tt.

Definition getUserDashboard : Async (option Body) :=
  fetch_or GET "/api/dashboard/" [] "Failed to fetch dashboard".

Definition loadAuthToken : Async unit :=
  try_catch
    (tok <- SecureStore.getItemAsync "auth_token" ;;
     modify (with_authToken tok))
    (fun _ => console_error "No auth token found").

(** [new MLBApiService()]: the field [authToken] starts as null, then
    [loadAuthToken] runs.  The constructor does not wait for it; this is
    the instance once the promise has settled. *)
Definition constructor : Async unit :=
  modify (with_authToken None) ;;
  loadAuthToken.

End mlbApi.

(** *** useAuthStore (store) *)

Module useAuthStore.

Definition logout : Async unit :=
  modify (fun w =>
    with_auth {| user := user (auth w);
                 isAuthenticated := isAuthenticated (auth w);
                 isLoading := true; error := error (auth w) |} w) ;;
  try_finally
    (try_catch mlbApi.logout (fun _ => console_error "Logout error:"))
    (modify (with_auth {| user := None; isAuthenticated := false;
                          isLoading := false; error := None |})).

(** [error.message].  The errors the service throws are its own
    [new Error(message)]; the text of an error raised by a library is not
    represented. *)
Definition error_message (e : JsError) : option string :=
  match e with
  | EError m => Some m
  | _ => None
  end.

(** The [try] and [catch] that [login] and [register] share. *)
Definition sign_in (call : Async (option string * option User)) : Async unit :=
  modify (fun w =>
    with_auth {| user := user (auth w);
                 isAuthenticated := isAuthenticated (auth w);
                 isLoading := true; error := None |} w) ;;
  try_catch
    (r <- call ;;
     modify (fun w =>
       with_auth {| user := r.2; isAuthenticated := true;
                    isLoading := false; error := error (auth w) |} w))
    (fun e =>
       modify (fun w =>
         with_auth {| user := user (auth w);
                      isAuthenticated := isAuthenticated (auth w);
                      isLoading := false; error := error_message e |} w) ;;
       throw e).

Definition login (email password : JsString) : Async unit :=
  sign_in (mlbApi.login email password).

Definition register (email password firstName lastName : JsString)
  : Async unit :=
  sign_in (mlbApi.register email password firstName lastName).

Definition clearError : Async unit :=
  modify (fun w =>
    with_auth {| user := user (auth w);
                 isAuthenticated := isAuthenticated (auth w);
                 isLoading := isLoading (auth w); error := None |} w).

End useAuthStore.

(** *** useSearchStore (store) *)

Module useSearchStore.

(** [recentSearches.slice(0, 19)] is [take 19]. *)
Definition addSearch {A} (query : JsString) (results : list A) : Async unit :=
  recent <- gets (fun w => recentSearches (search w)) ;;
  t_id <- date_now ;;
  t_stamp <- date_now ;;
  let newSearch := {| se_id := pretty t_id; se_query := query;
                      se_timestamp := t_stamp;
                      se_results := length results |} in
  let updatedSearches := newSearch :: take 19 recent in
  modify (fun w =>
    with_search {| recentSearches := updatedSearches;
                   isSearching := isSearching (search w);
                   currentResults := currentResults (search w) |} w).

Definition clearSearchHistory : Async unit :=
  modify (fun w =>
    with_search {| recentSearches := [];
                   isSearching := isSearching (search w);
                   currentResults := currentResults (search w) |} w).

Definition setSearchResults (results : list PlayerPayload) : Async unit :=
  modify (fun w =>
    with_search {| recentSearches := recentSearches (search w);
                   isSearching := isSearching (search w);
                   currentResults := results |} w).

Definition setSearching (b : bool) : Async unit :=
  modify (fun w =>
    with_search {| recentSearches := recentSearches (search w);
                   isSearching := b;
                   currentResults := currentResults (search w) |} w).

End useSearchStore.

(** *** useFavoritesStore (store) *)

Module useFavoritesStore.

(** [ids.includes(id)] *)
Definition includes (ids : list Z) (id : Z) : bool := bool_decide (id ∈ ids).

Definition set_favoriteTeams (l : list Z) : Async unit :=
  modify (fun w =>
    with_favorites {| favoriteTeams := l;
                      favoritePlayers := favoritePlayers (favorites w) |} w).

Definition set_favoritePlayers (l : list Z) : Async unit :=
  modify (fun w =>
    with_favorites {| favoriteTeams := favoriteTeams (favorites w);
                      favoritePlayers := l |} w).

Definition addFavoriteTeam (teamId : Z) : Async unit :=
  try_catch
    (mlbApi.addFavoriteTeam teamId ;;
     favs <- gets (fun w => favoriteTeams (favorites w)) ;;
     when (negb (includes favs teamId))
          (set_favoriteTeams (favs ++ [teamId])))
    (fun e => console_error "Add favorite team error:" ;; throw e).

Definition removeFavoriteTeam (teamId : Z) : Async unit :=
  favs <- gets (fun w => favoriteTeams (favorites w)) ;;
  set_favoriteTeams (filter (fun id => id ≠ teamId) favs).

Definition addFavoritePlayer (playerId : Z) : Async unit :=
  try_catch
    (mlbApi.addFavoritePlayer playerId ;;
     favs <- gets (fun w => favoritePlayers (favorites w)) ;;
     when (negb (includes favs playerId))
          (set_favoritePlayers (favs ++ [playerId])))
    (fun e => console_error "Add favorite player error:" ;; throw e).

Definition removeFavoritePlayer (playerId : Z) : Async unit :=
  favs <- gets (fun w => favoritePlayers (favorites w)) ;;
  set_favoritePlayers (filter (fun id => id ≠ playerId) favs).

Definition isFavoriteTeam (teamId : Z) : Async bool :=
  gets (fun w => includes (favoriteTeams (favorites w)) teamId).

Definition isFavoritePlayer (playerId : Z) : Async bool :=
  gets (fun w => includes (favoritePlayers (favorites w)) playerId).

End useFavoritesStore.

(** *** SearchScreen (screens/search) *)

Module SearchScreen.

Definition setLoading (b : bool) : Async unit :=
  modify (fun w =>
    with_screen {| scr_loading := b; scr_results := scr_results (screen w);
                   scr_nlResponse := scr_nlResponse (screen w) |} w).

Definition setResults (l : list SearchResult) : Async unit :=
  modify (fun w =>
    with_screen {| scr_loading := scr_loading (screen w); scr_results := l;
                   scr_nlResponse := scr_nlResponse (screen w) |} w).

Definition setNlResponse (b : Body) : Async unit :=
  modify (fun w =>
    with_screen {| scr_loading := scr_loading (screen w);
                   scr_results := scr_results (screen w);
                   scr_nlResponse := Some b |} w).

(** The object literal in the [map] callback of [handleSearch]. *)
Definition toSearchResult (player : PlayerPayload) : SearchResult :=
  {| sr_id := player_id player;
     sr_type := TPlayer;
     sr_title := player_name player;
     sr_subtitle := interpolate (player_position player) +:+ " - "
                    +:+ interpolate (player_team player);
     sr_data := player;
     relevance := 1 |}.

Definition handleSearch (searchQuery : JsString) : Async unit :=
  if negb (truthy (trim searchQuery)) then ret tt
  else
    setLoading true ;;
    try_finally
      (try_catch
         (nlResult <- mlbApi.naturalLanguageSearch searchQuery ;;
          match nlResult with
          | Some b =>
              when (b_truthy b)
                (setNlResponse b ;;
                 useSearchStore.addSearch searchQuery
                   (default [] (b_results b)))
          | None => ret tt
          end ;;
          searchResult <- mlbApi.searchPlayers searchQuery ;;
          match searchResult with
          | Some (p :: ps) => setResults (map toSearchResult (p :: ps))
          | _ => ret tt
          end)
         (fun _ => console_error "Search error:"))
      (setLoading false).

End SearchScreen.

(** *** useNaturalLanguageSearch (hooks) *)

Module useNaturalLanguageSearch.

Definition setResults (r : option string) : Async unit :=
  modify (fun w =>
    with_hook {| hk_results := r; hk_loading := hk_loading (hook w) |} w).

Definition setLoading (b : bool) : Async unit :=
  modify (fun w =>
    with_hook {| hk_results := hk_results (hook w); hk_loading := b |} w).

(** [response.success] throws a TypeError on a JSON null body; on a
    body without the field, the empty body included, it is undefined
    and nothing is stored. *)
Definition search (searchQuery : JsString) : Async unit :=
  if negb (truthy (trim searchQuery)) then setResults None
  else
    setLoading true ;;
    try_finally
      (try_catch
         (response <- mlbApi.naturalLanguageSearch searchQuery ;;
          match response with
          | Some b => when (b_success b) (setResults (b_data b))
          | None => throw ETypeError
          end)
         (fun _ => console_error "Natural language search error:"))
      (setLoading false).

End useNaturalLanguageSearch.

(** *** TeamDetailsScreen (screens/settings) and PlayerProfileScreen
    (screens/standings) *)

(** [toggleFavorite] of the two detail screens.  [team] (or [player]) is
    the profile the screen has loaded, if any; [isFavorite] is the answer
    of the store for the id of the route.  The promise of the add is not
    awaited: the completion given here is the one of that promise, which
    nothing handles. *)
Module TeamDetailsScreen.

Definition toggleFavorite (team : option Body) (teamIdNumber : Z)
  : Async unit :=
  match team with
  | None => ret tt
  | Some _ =>
      isFavorite <- useFavoritesStore.isFavoriteTeam teamIdNumber ;;
      if isFavorite
      then useFavoritesStore.removeFavoriteTeam teamIdNumber
      else useFavoritesStore.addFavoriteTeam teamIdNumber
  end.

End TeamDetailsScreen.

Module PlayerProfileScreen.

Definition toggleFavorite (player : option Body) (playerIdNumber : Z)
  : Async unit :=
  match player with
  | None => ret tt
  | Some _ =>
      isFavorite <- useFavoritesStore.isFavoritePlayer playerIdNumber ;;
      if isFavorite
      then useFavoritesStore.removeFavoritePlayer playerIdNumber
      else useFavoritesStore.addFavoritePlayer playerIdNumber
  end.

End PlayerProfileScreen.

(** *** useDashboardStore (store) *)

(** A widget of the dashboard.  [widget_data] is the property [data]
    that [updateWidget] adds to the object; the store does not look into
    its value. *)
Record DashboardWidget := {
  widget_id : string;
  widget_type : string;
  widget_title : string;
  widget_config : list (string * string);
  widget_position : nat;
  widget_isVisible : bool;
  widget_size : option string;
  widget_data : option string
}.

Record DashboardState := {
  widgets : list DashboardWidget;
  dash_isLoading : bool;
  lastUpdated : option Z
}.

Module useDashboardStore.

(** [set({ widgets })] *)
Definition set_widgets (l : list DashboardWidget) (s : DashboardState)
  : DashboardState :=
  {| widgets := l; dash_isLoading := dash_isLoading s;
     lastUpdated := lastUpdated s |}.

Definition defaultWidgets : list DashboardWidget :=
  [ {| widget_id := "1"; widget_type := "standings";
       widget_title := "AL East Standings";
       widget_config := [("division", "AL East")];
       widget_position := 0; widget_isVisible := true;
       widget_size := Some "medium"; widget_data := None |} ].

(** [now] is the reading of [Date.now()].  The first [set] raises
    [isLoading]; the second writes all three fields.  Nothing in the
    [try] block can throw, so the [catch] is never entered. *)
Definition loadDashboard (now : Z) (s : DashboardState) : DashboardState :=
  let loading := {| widgets := widgets s; dash_isLoading := true;
                    lastUpdated := lastUpdated s |} in
  {| widgets := defaultWidgets; dash_isLoading := false;
     lastUpdated := Some now |}.

Definition addWidget (widget : DashboardWidget) (s : DashboardState)
  : DashboardState :=
  set_widgets (widgets s ++ [widget]) s.

Definition removeWidget (id : string) (s : DashboardState) : DashboardState :=
  set_widgets (filter (λ w, widget_id w ≠ id) (widgets s)) s.

(** [{ ...widget, data }]: the argument becomes the property [data]. *)
Definition updateWidget (id : string) (data : string) (s : DashboardState)
  : DashboardState :=
  set_widgets
    ((λ widget,
            if decide (widget_id widget = id)
            then {| widget_id := widget_id widget;
                    widget_type := widget_type widget;
                    widget_title := widget_title widget;
                    widget_config := widget_config widget;
                    widget_position := widget_position widget;
                    widget_isVisible := widget_isVisible widget;
                    widget_size := widget_size widget;
                    widget_data := Some data |}
            else widget) <$> widgets s) s.

Definition reorderWidgets (l : list DashboardWidget) (s : DashboardState)
  : DashboardState :=
  set_widgets l s.

Definition toggleWidget (id : string) (s : DashboardState) : DashboardState :=
  set_widgets
    ((λ widget,
            if decide (widget_id widget = id)
            then {| widget_id := widget_id widget;
                    widget_type := widget_type widget;
                    widget_title := widget_title widget;
                    widget_config := widget_config widget;
                    widget_position := widget_position widget;
                    widget_isVisible := negb (widget_isVisible widget);
                    widget_size := widget_size widget;
                    widget_data := widget_data widget |}
            else widget) <$> widgets s) s.

Definition refreshDashboard (now : Z) (s : DashboardState) : DashboardState :=
  loadDashboard now s.

End useDashboardStore.

(** *** HomeScreen (screens/home) *)

Module HomeScreen.

Record WidgetOption := {
  opt_type : string;
  opt_title : string;
  opt_description : string;
  opt_icon : string
}.

Definition availableWidgets : list WidgetOption :=
  [ {| opt_type := "standings"; opt_title := "League Standings";
       opt_description := "Current MLB standings";
       opt_icon := "format-list-numbered" |};
    {| opt_type := "team_stats"; opt_title := "Team Statistics";
       opt_description := "Your favorite team stats";
       opt_icon := "chart-line" |};
    {| opt_type := "player_stats"; opt_title := "Player Statistics";
       opt_description := "Track your favorite players";
       opt_icon := "account-star" |};
    {| opt_type := "recent_games"; opt_title := "Recent Games";
       opt_description := "Latest game results";
       opt_icon := "baseball" |} ].

(** The dashboard store as the screen sees it, and the screen's
    [showAddModal] cell. *)
Record HomeState := {
  dashboard : DashboardState;
  showAddModal : bool
}.

(** [now] is the reading of [Date.now()]; [widgets] of the component is
    the list of the store at the time of the press, as the render before
    the press left it. *)
Definition handleAddWidget (now : Z) (widgetType : string) (h : HomeState)
  : HomeState :=
  let widgetConfig :=
    List.find (λ w, bool_decide (opt_type w = widgetType)) availableWidgets in
  let d :=
    match widgetConfig with
    | Some cfg =>
        let newWidget :=
          {| widget_id := pretty now; widget_type := widgetType;
             widget_title := opt_title cfg; widget_config := [];
             widget_position := length (widgets (dashboard h));
             widget_isVisible := true; widget_size := None;
             widget_data := None |} in
        useDashboardStore.addWidget newWidget (dashboard h)
    | None => dashboard h
    end in
  {| dashboard := d; showAddModal := false |}.

(** [widgets.sort((a, b) => a.position - b.position)] of the render:
    the sort is stable and in place, so it is the store's own array that
    ends up ordered by position.  A widget goes in front of the first
    one whose position is not below its own. *)
Fixpoint insert_by_position (w : DashboardWidget)
    (sorted : list DashboardWidget) : list DashboardWidget :=
  match sorted with
  | [] => [w]
  | x :: rest =>
      if (widget_position x <? widget_position w)%nat
      then x :: insert_by_position w rest
      else w :: sorted
  end.

Definition sort_by_position (ws : list DashboardWidget)
  : list DashboardWidget :=
  foldr insert_by_position [] ws.

(** What a render of the screen does to the state: it sorts the
    widgets of the store. *)
Definition render (h : HomeState) : HomeState :=
  {| dashboard :=
       useDashboardStore.set_widgets
         (sort_by_position (widgets (dashboard h))) (dashboard h);
     showAddModal := showAddModal h |}.

End HomeScreen.

(** *** Validation helpers (utils) *)

(** [/^[^\s@]+@[^\s@]+\.[^\s@]+$/] *)
Definition plain (c : N) : bool := negb (is_whitespace c || (c =? 64)%N).

Definition emailRegex : RegExp.Re :=
  RegExp.Seq (RegExp.Plus (RegExp.Cls plain))
    (RegExp.Seq (RegExp.Chr 64)
       (RegExp.Seq (RegExp.Plus (RegExp.Cls plain))
          (RegExp.Seq (RegExp.Chr 46) (RegExp.Plus (RegExp.Cls plain))))).

Definition isValidEmail (email : JsString) : bool :=
  RegExp.matches emailRegex email.

Definition isValidPassword (password : JsString) : bool :=
  bool_decide (8 ≤ length password)%nat.

(** *** RegisterScreen and LoginScreen (screens/auth) *)

Module RegisterScreen.

Record FormData := {
  fd_email : JsString;
  fd_password : JsString;
  fd_confirmPassword : JsString;
  fd_firstName : JsString;
  fd_lastName : JsString
}.

(** The [useState] cells of the screen, and the alerts it has raised
    (title and message), oldest first. *)
Record State := {
  formData : FormData;
  rs_loading : bool;
  rs_errors : gmap string string;
  rs_alerts : list (string * string)
}.

(** [/\S+@\S+\.\S+/] *)
Definition emailPattern : RegExp.Re :=
  RegExp.Seq (RegExp.Plus (RegExp.Cls RegExp.not_space))
    (RegExp.Seq (RegExp.Chr 64)
       (RegExp.Seq (RegExp.Plus (RegExp.Cls RegExp.not_space))
          (RegExp.Seq (RegExp.Chr 46)
             (RegExp.Plus (RegExp.Cls RegExp.not_space))))).

(** The object [newErrors] that [validateForm] builds. *)
Definition newErrors (f : FormData) : gmap string string :=
  let e0 : gmap string string := ∅ in
  let e1 :=
    if negb (truthy (fd_email f))
    then <["email" := "Email is required"]> e0
    else if negb (RegExp.test emailPattern (fd_email f))
         then <["email" := "Email is invalid"]> e0
         else e0 in
  let e2 :=
    if negb (truthy (fd_password f))
    then <["password" := "Password is required"]> e1
    else if bool_decide (length (fd_password f) < 8)%nat
         then <["password" := "Password must be at least 8 characters"]> e1
         else e1 in
  let e3 :=
    if bool_decide (fd_password f ≠ fd_confirmPassword f)
    then <["confirmPassword" := "Passwords do not match"]> e2
    else e2 in
  let e4 :=
    if negb (truthy (fd_firstName f))
    then <["firstName" := "First name is required"]> e3
    else e3 in
  if negb (truthy (fd_lastName f))
  then <["lastName" := "Last name is required"]> e4
  else e4.

(** [setErrors(newErrors)], and the value returned:
    [Object.keys(newErrors).length === 0]. *)
Definition validateForm (st : State) : bool * State :=
  let errs := newErrors (formData st) in
  (bool_decide (size errs = 0%nat),
   {| formData := formData st; rs_loading := rs_loading st;
      rs_errors := errs; rs_alerts := rs_alerts st |}).

(** The end of [handleRegister] after the request: the alert of the [try]
    or of the [catch], and [setLoading(false)] of the [finally]. *)
Definition finish (st : State) (title message : string) : State :=
  {| formData := formData st; rs_loading := false;
     rs_errors := rs_errors st;
     rs_alerts := rs_alerts st ++ [(title, message)] |}.

Definition handleRegister (st : State) : Async State :=
  let (ok, st1) := validateForm st in
  if negb ok then ret st1
  else
    let f := formData st1 in
    try_catch
      (useAuthStore.register (fd_email f) (fd_password f)
         (fd_firstName f) (fd_lastName f) ;;
       ret (finish st1 "Success" "Account created successfully!"))
      (fun e =>
         ret (finish st1 "Registration Failed"
                (or_else (useAuthStore.error_message e)
                         "Failed to create account"))).

End RegisterScreen.

Module LoginScreen.

(** The [useState] cells of the screen, and the alerts it has raised. *)
Record State := {
  ls_email : JsString;
  ls_password : JsString;
  ls_loading : bool;
  ls_alerts : list (string * string)
}.

Definition alert (st : State) (title message : string) (loading : bool)
  : State :=
  {| ls_email := ls_email st; ls_password := ls_password st;
     ls_loading := loading;
     ls_alerts := ls_alerts st ++ [(title, message)] |}.

Definition handleLogin (st : State) : Async State :=
  if negb (truthy (ls_email st)) || negb (truthy (ls_password st))
  then ret (alert st "Error" "Please fill in all fields" (ls_loading st))
  else
    try_catch
      (useAuthStore.login (ls_email st) (ls_password st) ;;
       ret {| ls_email := ls_email st; ls_password := ls_password st;
              ls_loading := false; ls_alerts := ls_alerts st |})
      (fun e =>
         ret (alert st "Login Failed"
                (or_else (useAuthStore.error_message e) "Invalid credentials")
                false)).

End LoginScreen.

(** *** useForm (hooks) *)

Module useForm.
Section Form.
Context {V : Type}.

(** A validation rule, [(value) => string | null].  It is applied to
    [values[field]], which is undefined for a field that has no value. *)
Definition Rule : Type := option V → option string.

(** The three [useState] cells.  A key of [errors] may hold undefined:
    that is what [setValue] writes. *)
Record State := {
  values : gmap string V;
  errors : gmap string (option string);
  touched : gmap string bool
}.

(** Truthiness of [errors[field]] and of the result of a rule. *)
Definition message (e : option string) : bool :=
  match e with
  | Some s => bool_decide (s ≠ "")
  | None => false
  end.

Definition setValue (field : string) (value : V) (st : State) : State :=
  {| values := <[field := value]> (values st);
     errors := if message (mjoin (errors st !! field))
               then <[field := None]> (errors st)
               else errors st;
     touched := touched st |}.

Definition setFieldTouched (field : string) (st : State) : State :=
  {| values := values st; errors := errors st;
     touched := <[field := true]> (touched st) |}.

(** One turn of the [forEach] in [validate], on the accumulated
    [newErrors] and [isValid]. *)
Definition check (vals : gmap string V)
    (acc : gmap string (option string) * bool)
    (entry : string * option Rule) : gmap string (option string) * bool :=
  match entry.2 with
  | Some rule =>
      let error := rule (vals !! entry.1) in
      if message error then (<[entry.1 := error]> acc.1, false) else acc
  | None => acc
  end.

(** [validationRules] is given as its entries, in the order of
    [Object.keys]. *)
Definition validate (validationRules : option (list (string * option Rule)))
    (st : State) : bool * State :=
  match validationRules with
  | None => (true, st)
  | Some rules =>
      let '(newErrors, isValid) := foldl (check (values st)) (∅, true) rules in
      (isValid,
       {| values := values st; errors := newErrors; touched := touched st |})
  end.

Definition reset (initialValues : gmap string V) (st : State) : State :=
  {| values := initialValues; errors := ∅; touched := ∅ |}.

(** [isValid: Object.keys(errors).length === 0] *)
Definition isValid (st : State) : bool :=
  bool_decide (size (errors st) = 0%nat).

End Form.
End useForm.

(** *** Sequences of calls on the favorites store *)

(** The state the store is created with. *)
Definition initial_favorites : FavoritesState :=
  {| favoriteTeams := []; favoritePlayers := [] |}.

Inductive FavoritesCall :=
| AddTeam (teamId : Z)
| RemoveTeam (teamId : Z)
| AddPlayer (playerId : Z)
| RemovePlayer (playerId : Z).

Definition favorites_call (c : FavoritesCall) : Async unit :=
  match c with
  | AddTeam i => useFavoritesStore.addFavoriteTeam i
  | RemoveTeam i => useFavoritesStore.removeFavoriteTeam i
  | AddPlayer i => useFavoritesStore.addFavoritePlayer i
  | RemovePlayer i => useFavoritesStore.removeFavoritePlayer i
  end.

(** The world after a sequence of calls; a call that throws leaves the
    world as it was when it threw, and the next call goes on from there. *)
Definition after_calls (cs : list FavoritesCall) (w : World) : World :=
  foldl (fun w c => (favorites_call c w).2) w cs.

(** *** Vocabulary of the properties *)

(** A computation that returns in every world. *)
Definition never_throws {A} (m : Async A) : Prop :=
  ∀ w, ∃ a, (m w).1 = Return a.

(** Every run of [m] takes a world to one related to it by [R]. *)
Definition steps_within {A} (R : relation World) (m : Async A) : Prop :=
  ∀ w, R w (m w).2.

(** A call that ends in a rejection. *)
Definition rejected {A} (c : Completion A) : Prop := ∃ e, c = Throw e.

(** Empty, or nothing but whitespace. *)
Definition blank (s : JsString) : Prop :=
  Forall (λ c, is_whitespace c = true) s.


(** The confidence floor of the specification (0.35), and what failing
    closed means for a lookup that was offered [candidates] and ended in
    [answer]: no candidate below the floor is returned, and when every
    candidate is below it the answer is the empty sequence. *)
Definition confidence_floor : Q := 35 # 100.




(** Two worlds that differ at most in the request log, the secure store
    and the in-memory token. *)
Definition same_stores (w w' : World) : Prop :=
  env w' = env w ∧ ticks w' = ticks w ∧ console w' = console w
  ∧ auth w' = auth w ∧ search w' = search w ∧ favorites w' = favorites w
  ∧ screen w' = screen w ∧ hook w' = hook w.

(** What [add] leaves in the list after a successful backend call. *)
Definition appended (ids : list Z) (i : Z) : list Z :=
  if useFavoritesStore.includes ids i then ids else ids ++ [i].

Definition duplicate_free (f : FavoritesState) : Prop :=
  NoDup (favoriteTeams f) ∧ NoDup (favoritePlayers f).

(** The request a call sends, given the token in memory. *)
Definition request_of (m : Method) (url : string) (params : list Param)
    (w : World) : Request :=
  {| req_method := m; req_url := url; req_params := params;
     req_authorization := mlbApi.authorization (authToken w) |}.

(** Every rejection of [m] is an Error the client made, with a message. *)
Definition throws_only_Errors {A} (m : Async A) : Prop :=
  ∀ w e, (m w).1 = Throw e → ∃ msg, e = EError msg ∧ msg ≠ "".

(** [addSearch] called for each search of a list, in order. *)
Fixpoint add_searches {A} (searches : list (JsString * list A))
  : Async unit :=
  match searches with
  | [] => ret tt
  | (q, r) :: rest => useSearchStore.addSearch q r ;; add_searches rest
  end.

(** Calls on the dashboard that remove nothing. *)
Inductive DashboardCall :=
| AddWidget (now : Z) (widgetType : string)
| ToggleWidget (id : string)
| UpdateWidget (id data : string)
| LoadDashboard (now : Z).

Definition dashboard_press (c : DashboardCall) (h : HomeScreen.HomeState)
  : HomeScreen.HomeState :=
  match c with
  | AddWidget now ty => HomeScreen.handleAddWidget now ty h
  | ToggleWidget id =>
      {| HomeScreen.dashboard :=
           useDashboardStore.toggleWidget id (HomeScreen.dashboard h);
         HomeScreen.showAddModal := HomeScreen.showAddModal h |}
  | UpdateWidget id data =>
      {| HomeScreen.dashboard :=
           useDashboardStore.updateWidget id data (HomeScreen.dashboard h);
         HomeScreen.showAddModal := HomeScreen.showAddModal h |}
  | LoadDashboard now =>
      {| HomeScreen.dashboard :=
           useDashboardStore.loadDashboard now (HomeScreen.dashboard h);
         HomeScreen.showAddModal := HomeScreen.showAddModal h |}
  end.

(** A call changes the store, and the screen renders again. *)
Definition dashboard_call (c : DashboardCall) (h : HomeScreen.HomeState)
  : HomeScreen.HomeState :=
  HomeScreen.render (dashboard_press c h).

(** The press on a widget's remove button, and the render after it. *)
Definition remove_call (id : string) (h : HomeScreen.HomeState)
  : HomeScreen.HomeState :=
  HomeScreen.render
    {| HomeScreen.dashboard :=
         useDashboardStore.removeWidget id (HomeScreen.dashboard h);
       HomeScreen.showAddModal := HomeScreen.showAddModal h |}.

Definition after_dashboard_calls (cs : list DashboardCall)
    (h : HomeScreen.HomeState) : HomeScreen.HomeState :=
  foldl (λ h c, dashboard_call c h) h cs.

(** The state the store and the screen are created with. *)
Definition initial_home : HomeScreen.HomeState :=
  {| HomeScreen.dashboard :=
       {| widgets := []; dash_isLoading := false; lastUpdated := None |};
     HomeScreen.showAddModal := false |}.

(** The ids of the widgets on the dashboard. *)
Definition widget_ids (h : HomeScreen.HomeState) : list string :=
  widget_id <$> widgets (HomeScreen.dashboard h).

(** Every widget's [position] is its index in the list. *)
Definition positions_in_order (ws : list DashboardWidget) : Prop :=
  ∀ i w, ws !! i = Some w → widget_position w = i.

(** The widget type is one the screen offers. *)
Definition offered (widgetType : string) : Prop :=
  widgetType ∈ HomeScreen.opt_type <$> HomeScreen.availableWidgets.

(** [setValue] called for each edit of a list, in order. *)
Definition after_edits {V} (edits : list (string * V))
    (st : useForm.State) : useForm.State :=
  foldl (λ st e, useForm.setValue e.1 e.2 st) st edits.

(** The message a form shows for a field, if any. *)
Definition shown {V} (st : @useForm.State V) (field : string) : bool :=
  useForm.message (mjoin (useForm.errors st !! field)).

(** *** Sequences of calls on the service *)

Inductive ServiceCall :=
| CallConstruct
| CallLogin (email password : JsString)
| CallRegister (email password firstName lastName : JsString)
| CallLogout
| CallSearchPlayers (query : JsString)
| CallNaturalLanguageSearch (query : JsString)
| CallGetPlayerProfile (playerId : Z)
| CallGetPlayerVenuePerformance (playerId venueId : Z) (seasons : option (list Z))
| CallGetTeamProfile (teamId : Z)
| CallGetTeamGames (teamId : Z)
| CallGetStandings (division : option JsString)
| CallGetRecentGames
| CallGetUpcomingGames
| CallAddFavorite (item : list Param)
| CallRemoveFavorite (id : string)
| CallAddFavoriteTeam (teamId : Z)
| CallAddFavoritePlayer (playerId : Z)
| CallGetUserDashboard.

(** The world once the promise of the call has settled, whichever way. *)
Definition service_call (c : ServiceCall) (w : World) : World :=
  match c with
  | CallConstruct => (mlbApi.constructor w).2
  | CallLogin e p => (mlbApi.login e p w).2
  | CallRegister e p f l => (mlbApi.register e p f l w).2
  | CallLogout => (mlbApi.logout w).2
  | CallSearchPlayers q => (mlbApi.searchPlayers q w).2
  | CallNaturalLanguageSearch q => (mlbApi.naturalLanguageSearch q w).2
  | CallGetPlayerProfile i => (mlbApi.getPlayerProfile i w).2
  | CallGetPlayerVenuePerformance i v s =>
      (mlbApi.getPlayerVenuePerformance i v s w).2
  | CallGetTeamProfile i => (mlbApi.getTeamProfile i w).2
  | CallGetTeamGames i => (mlbApi.getTeamGames i w).2
  | CallGetStandings d => (mlbApi.getStandings d w).2
  | CallGetRecentGames => (mlbApi.getRecentGames w).2
  | CallGetUpcomingGames => (mlbApi.getUpcomingGames w).2
  | CallAddFavorite item => (mlbApi.addFavorite item w).2
  | CallRemoveFavorite id => (mlbApi.removeFavorite id w).2
  | CallAddFavoriteTeam i => (mlbApi.addFavoriteTeam i w).2
  | CallAddFavoritePlayer i => (mlbApi.addFavoritePlayer i w).2
  | CallGetUserDashboard => (mlbApi.getUserDashboard w).2
  end.

Definition after_service_calls (cs : list ServiceCall) (w : World) : World :=
  foldl (λ w c, service_call c w) w cs.

(** The token in memory, if there is one, is the one in the secure
    store. *)
Definition token_stored (w : World) : Prop :=
  ∀ t, authToken w = Some t → secureStore w !! "auth_token" = Some t.

(** One step that keeps the environment, and keeps [token_stored] when
    the keychain answers. *)
Definition keeps_token_stored (w w' : World) : Prop :=
  env w' = env w
  ∧ (keychain_up (env w) = true → token_stored w → token_stored w').

End Client.

(* ===================================================================== *)
(** ** The cache on AsyncStorage (utils)                                  *)
(* ===================================================================== *)

(** [storage] and [cacheStorage] of utils.  AsyncStorage holds text; an
    entry of the cache is the JSON of an object with [data], [timestamp]
    and [ttl], and is identified here with that object.  [T] is the type
    of the cached data, [timestamp] and [ttl] are whole milliseconds. *)
Module Cache.
Section Cache.
Context {T : Type}.

Record CacheItem := {
  ci_data : T;
  ci_timestamp : Z;
  ci_ttl : Z
}.

(** The device: the entries under the keys of the cache, whether the
    n-th call on AsyncStorage is answered, the clock, and the console. *)
Record Disk := {
  items : gmap string CacheItem;
  answers : nat → bool;
  calls : nat;
  dclock : nat → Z;
  dticks : nat;
  dconsole : list string
}.

(** How a promise ends; the error of AsyncStorage is not looked into. *)
Inductive Outcome (A : Type) :=
| Resolved (a : A)
| Rejected.
Arguments Resolved {A} a.
Arguments Rejected {A}.

Definition IO (A : Type) : Type := Disk → Outcome A * Disk.

Definition log (msg : string) (d : Disk) : Disk :=
  {| items := items d; answers := answers d; calls := calls d;
     dclock := dclock d; dticks := dticks d;
     dconsole := dconsole d ++ [msg] |}.

(** One call on AsyncStorage: [write] is what it does to the entries
    when it is answered. *)
Definition AsyncStorage_call {A} (result : gmap string CacheItem → A)
    (write : gmap string CacheItem → gmap string CacheItem) : IO A :=
  λ d,
    let d' wr := {| items := wr (items d); answers := answers d;
                    calls := S (calls d); dclock := dclock d;
                    dticks := dticks d; dconsole := dconsole d |} in
    if answers d (calls d)
    then (Resolved (result (items d)), d' write)
    else (Rejected, d' id).

(** [Date.now()] *)
Definition now (d : Disk) : Z * Disk :=
  (dclock d (dticks d),
   {| items := items d; answers := answers d; calls := calls d;
      dclock := dclock d; dticks := S (dticks d);
      dconsole := dconsole d |}).

(** [storage.setItem]: the error is logged and thrown again. *)
Definition setItem (key : string) (value : CacheItem) : IO unit :=
  λ d,
    match AsyncStorage_call (λ _, tt) (insert key value) d with
    | (Resolved _, d') => (Resolved tt, d')
    | (Rejected, d') => (Rejected, log "Error storing data:" d')
    end.

(** [storage.getItem]: the error is logged and null is returned. *)
Definition getItem (key : string) : IO (option CacheItem) :=
  λ d,
    match AsyncStorage_call (λ m, m !! key) id d with
    | (Resolved v, d') => (Resolved v, d')
    | (Rejected, d') => (Resolved None, log "Error retrieving data:" d')
    end.

(** [storage.removeItem]: the error is logged and thrown again. *)
Definition removeItem (key : string) : IO unit :=
  λ d,
    match AsyncStorage_call (λ _, tt) (delete key) d with
    | (Resolved _, d') => (Resolved tt, d')
    | (Rejected, d') => (Rejected, log "Error removing data:" d')
    end.

(** The default of [ttl]: [5 * 60 * 1000]. *)
Definition default_ttl : Z := 5 * 60 * 1000.

(** [cacheStorage.set(key, data, ttl)] *)
Definition set (key : string) (data : T) (ttl : Z) : IO unit :=
  λ d,
    let (t, d1) := now d in
    setItem ("cache:" +:+ key)
      {| ci_data := data; ci_timestamp := t; ci_ttl := ttl |} d1.

(** [cacheStorage.get(key)].  An entry read from the storage is an
    object, so [!cacheItem] holds for null only. *)
Definition get (key : string) : IO (option T) :=
  λ d,
    match getItem ("cache:" +:+ key) d with
    | (Resolved None, d1) => (Resolved None, d1)
    | (Resolved (Some cacheItem), d1) =>
        let (t, d2) := now d1 in
        let isExpired :=
          bool_decide (t - ci_timestamp cacheItem > ci_ttl cacheItem) in
        if isExpired
        then match removeItem ("cache:" +:+ key) d2 with
             | (Resolved _, d3) => (Resolved None, d3)
             | (Rejected, d3) => (Rejected, d3)
             end
        else (Resolved (Some (ci_data cacheItem)), d2)
    | (Rejected, d1) => (Rejected, d1)
    end.

(** [cacheStorage.remove(key)] *)
Definition remove (key : string) : IO unit :=
  removeItem ("cache:" +:+ key).

End Cache.
Arguments Resolved {A} a.
Arguments Rejected {A}.
End Cache.

(* ===================================================================== *)
(** ** The resolver pipeline                                              *)
(* ===================================================================== *)

(** The client only forwards the query text to the backend; the resolver
    of the specification (Entity Extractor, Intent Classifier, Query
    Planner, Result Aggregator, Ambiguity Handler) is not among the
    sources.  This module is its model, written from sections 3 and 4 of
    the specification. *)

Module Resolver.

(** *** Data model *)

Inductive Kind := player | team | venue.

#[global] Instance Kind_eq_dec : EqDecision Kind.
Proof. solve_decision. Defined.

Record Entity := {
  entity_id : Z;
  kind : Kind;
  canonicalName : string;
  aliases : list string
}.

Inductive MatchType := Exact | Alias | Fuzzy.

#[global] Instance MatchType_eq_dec : EqDecision MatchType.
Proof. solve_decision. Defined.

Record CandidateMatch := {
  span : string;
  entity : Entity;
  confidence : Q;
  matchType : MatchType
}.

Inductive Intent :=
| PLAYER_AT_VENUE | PLAYER_SEASON_STAT | TEAM_STANDING | LEAGUE_LEADER
| HEAD_TO_HEAD.

(** A fact: numeric or textual. *)
Inductive Value := VNum (q : Q) | VText (s : string).

(** Named values, oldest first: the outputs bound so far, and an
    answer's facts. *)
Definition Bindings := list (string * Value).

(** An input of a step: a resolved entity, or the output of an earlier
    step. *)
Inductive Ref := OfEntity (id : Z) | OfStep (name : string).

Record FetchStep := {
  step_name : string;      (* the name its output is bound to *)
  operation : string;      (* the external operation *)
  inputs : list Ref;
  fatal : bool             (* false: tolerable *)
}.

(** What an intent declares in the rule table. *)
Record IntentDecl := {
  decl_intent : Intent;
  required : list Kind;    (* the kinds it needs one entity of *)
  keywords : list string;
  template : list CandidateMatch → list FetchStep;
  aggregation : Bindings → Bindings;
  narration : Bindings → string
}.

Record QueryPlan := {
  plan_decl : IntentDecl;
  plan_entities : list CandidateMatch;
  plan_steps : list FetchStep
}.

Record Answer := {
  intent : Intent;
  boundEntities : list CandidateMatch;
  facts : Bindings;
  answer_confidence : Q;
  partial : bool;
  narrative : string
}.

Inductive Cause := MissingInput | SourceFailure.

Record PlanExecutionError := { failed_step : string; cause : Cause }.

Inductive Reason := AMBIGUOUS_ENTITY | UNRECOGNIZED_QUERY | DATA_UNAVAILABLE.

Inductive Suggestion := SEntity (e : Entity) | SIntent (i : Intent).

Record ClarificationRequest := {
  reason : Reason;
  suggestions : list Suggestion;
  prompt : string
}.

Inductive Response :=
| Answered (a : Answer)
| Clarification (c : ClarificationRequest).

(** The fact source: a named operation on argument values; [None] when
    the call fails or times out. *)
Definition FactSource := string → list Value → option Value.

(** *** Result Aggregator *)

(** The latest value bound to a name. *)
Fixpoint binding (name : string) (bound : Bindings) : option Value :=
  match bound with
  | [] => None
  | (n, v) :: rest =>
      match binding name rest with
      | Some v' => Some v'
      | None => if decide (n = name) then Some v else None
      end
  end.

Definition resolve_input (bound : Bindings) (r : Ref) : option Value :=
  match r with
  | OfEntity i => Some (VNum (inject_Z i))
  | OfStep n => binding n bound
  end.

(** Modelled from the spec: one Fetch Step of the Result Aggregator
    (section 4.5).  Its inputs are read from the entities and from the
    outputs bound by the steps before it, then the external operation is
    invoked. *)
Definition invoke (source : FactSource) (s : FetchStep) (bound : Bindings)
  : Cause + Value :=
  match mapM (resolve_input bound) (inputs s) with
  | None => inl MissingInput
  | Some args =>
      match source (operation s) args with
      | Some v => inr v
      | None => inl SourceFailure
      end
  end.

(** Modelled from the spec: the step loop of [execute] (section 4.5).
    Steps run in declared order; an output is bound to the name the step
    declares; a fatal failure aborts with the step and the cause; a
    tolerable failure is recorded as a gap and the loop goes on. *)
Fixpoint run_steps (source : FactSource) (steps : list FetchStep)
    (bound : Bindings) (gaps : list string)
  : PlanExecutionError + (Bindings * list string) :=
  match steps with
  | [] => inr (bound, gaps)
  | s :: rest =>
      match invoke source s bound with
      | inr v => run_steps source rest (bound ++ [(step_name s, v)]) gaps
      | inl c =>
          if fatal s
          then inl {| failed_step := step_name s; cause := c |}
          else run_steps source rest bound (gaps ++ [step_name s])
      end
  end.

(** The propagated minimum of the contributing match confidences; an
    answer that binds no entity has confidence 1. *)
Definition min_confidence (cs : list CandidateMatch) : Q :=
  foldr Qmin 1%Q (confidence <$> cs).

(** Modelled from the spec: [execute(plan) -> Answer] of the Result
    Aggregator (section 4.5) and the Answer of section 3.  The facts are
    the step outputs under their names followed by the facts the
    intent's aggregation derives from them; [partial] is set when a
    tolerable step failed. *)
Definition execute (source : FactSource) (p : QueryPlan)
  : PlanExecutionError + Answer :=
  match run_steps source (plan_steps p) [] [] with
  | inl err => inl err
  | inr (bound, gaps) =>
      let fs := bound ++ aggregation (plan_decl p) bound in
      inr {| intent := decl_intent (plan_decl p);
             boundEntities := plan_entities p;
             facts := fs;
             answer_confidence := min_confidence (plan_entities p);
             partial := bool_decide (gaps ≠ []);
             narrative := narration (plan_decl p) fs |}
  end.

(** What each step of a plan yields when the plan is executed, in
    order: its data, or [None] when it fails.  Nothing runs after a
    fatal failure. *)
Fixpoint outcomes (source : FactSource) (steps : list FetchStep)
    (bound : Bindings) : list (option Value) :=
  match steps with
  | [] => []
  | s :: rest =>
      match invoke source s bound with
      | inr v => Some v :: outcomes source rest (bound ++ [(step_name s, v)])
      | inl _ => None :: (if fatal s then [] else outcomes source rest bound)
      end
  end.

(** The number of steps that fail. *)
Definition failures (os : list (option Value)) : nat :=
  length (filter (λ o, o = None) os).

(** The steps that fail in an execution are all tolerable. *)
Definition failures_tolerable (source : FactSource)
    (steps : list FetchStep) (bound : Bindings) : Prop :=
  ∀ i s, steps !! i = Some s →
         outcomes source steps bound !! i = Some None →
         fatal s = false.

(** *** Ambiguity/Fallback Handler *)

Inductive Failure :=
| AmbiguousEntity (candidates : list CandidateMatch)
| NoIntentMatched
| FatalStepFailure (err : PlanExecutionError).

(** Modelled from the spec: [handle(stage, context)] of the
    Ambiguity/Fallback Handler (sections 4.6 and 7): a reason, the
    ranked suggestions (the candidates of an ambiguous entity, or the
    declared intents of an unrecognised query) and a prompt.  It is
    total: every failure becomes a response object. *)
Definition handle (rules : list IntentDecl) (f : Failure)
  : ClarificationRequest :=
  match f with
  | AmbiguousEntity cs =>
      {| reason := AMBIGUOUS_ENTITY;
         suggestions := (λ c, SEntity (entity c)) <$> cs;
         prompt := "Which one did you mean?" |}
  | NoIntentMatched =>
      {| reason := UNRECOGNIZED_QUERY;
         suggestions := (λ d, SIntent (decl_intent d)) <$> rules;
         prompt := "What would you like to know?" |}
  | FatalStepFailure _ =>
      {| reason := DATA_UNAVAILABLE;
         suggestions := [];
         prompt := "The data is not available right now." |}
  end.

Section Pipeline.
(** The Entity Catalog's [lookup(kind, text)] (section 4.1), the
    confidence floor, the rule table and the fact source. *)
Variable catalog_lookup : Kind → string → list CandidateMatch.
Variable floor : Q.
Variable rules : list IntentDecl.
Variable source : FactSource.

Definition all_kinds : list Kind := [player; team; venue].

Definition above_floor (c : CandidateMatch) : bool :=
  Qle_bool floor (confidence c).

(** The catalog is consulted for a span across all entity kinds. *)
Definition candidates_for (sp : string) : list CandidateMatch :=
  filter (λ c, above_floor c) (k ← all_kinds; catalog_lookup k sp).

(** *** Entity Extractor *)

(** Longest match first: the first [n] tokens, then progressively
    shorter prefixes, until one has a candidate above the floor. *)
Fixpoint longest_match (n : nat) (toks : list string)
  : option (nat * string * list CandidateMatch) :=
  match n with
  | O => None
  | S m =>
      let sp := String.concat " " (take n toks) in
      match candidates_for sp with
      | [] => longest_match m toks
      | cs => Some (n, sp, cs)
      end
  end.

(** [skip] counts the tokens still covered by the span accepted
    last. *)
Fixpoint extract_from (skip : nat) (toks : list string)
  : list (string * list CandidateMatch) :=
  match toks with
  | [] => []
  | _ :: rest =>
      match skip with
      | S k => extract_from k rest
      | O =>
          match longest_match (length toks) toks with
          | Some (n, sp, cs) => (sp, cs) :: extract_from (pred n) rest
          | None => extract_from 0 rest
          end
      end
  end.

(** Modelled from the spec: [extract(queryText)] of the Entity
    Extractor (section 4.2).  The query is cut into tokens; at each
    position the longest span with a candidate above the floor is
    accepted, with all its candidates; a token that starts no span is
    passed over. *)
Definition extract (queryText : string)
  : list (string * list CandidateMatch) :=
  extract_from 0 (String.words queryText).

(** *** Kinds and ranks *)

Definition of_kind (k : Kind) (cs : list CandidateMatch)
  : list CandidateMatch :=
  filter (λ c, kind (entity c) = k) cs.

Definition top_confidence (cs : list CandidateMatch) : Q :=
  match cs with
  | [] => 0%Q
  | c :: rest => foldr Qmax (confidence c) (confidence <$> rest)
  end.

Definition top_matches (cs : list CandidateMatch) : list CandidateMatch :=
  filter (λ c, Qeq_bool (confidence c) (top_confidence cs)) cs.

Definition entity_ids (cs : list CandidateMatch) : list Z :=
  remove_dups ((λ c, entity_id (entity c)) <$> cs).

(** *** Intent Classifier *)

Definition bound_candidates (k : Kind)
    (spans : list (string * list CandidateMatch)) : list CandidateMatch :=
  of_kind k (sp ← spans; sp.2).

Definition triggered (d : IntentDecl) (toks : list string) : bool :=
  match keywords d with
  | [] => true
  | ks => bool_decide (Exists (λ t, t ∈ ks) toks)
  end.

Definition eligible (d : IntentDecl) (toks : list string)
    (spans : list (string * list CandidateMatch)) : bool :=
  triggered d toks
  && forallb (λ k, bool_decide (bound_candidates k spans ≠ []))
             (required d).

Definition exact_kinds (d : IntentDecl)
    (spans : list (string * list CandidateMatch)) : nat :=
  length (filter
            (λ k, Exists (λ c, matchType c = Exact)
                         (bound_candidates k spans))
            (required d)).

Definition slot_confidence (d : IntentDecl)
    (spans : list (string * list CandidateMatch)) : Q :=
  foldr Qmin 1%Q
    ((λ k, top_confidence (bound_candidates k spans)) <$> required d).

Definition outranks (spans : list (string * list CandidateMatch))
    (d1 d2 : IntentDecl) : bool :=
  (exact_kinds d2 spans <? exact_kinds d1 spans)%nat
  || (exact_kinds d1 spans =? exact_kinds d2 spans)%nat
     && negb (Qle_bool (slot_confidence d1 spans)
                       (slot_confidence d2 spans)).

(** Insert behind everything that is not outranked: declaration order
    breaks ties. *)
Fixpoint insert_ranked (spans : list (string * list CandidateMatch))
    (d : IntentDecl) (ranked : list IntentDecl) : list IntentDecl :=
  match ranked with
  | [] => [d]
  | e :: rest =>
      if outranks spans d e then d :: ranked
      else e :: insert_ranked spans d rest
  end.

(** Modelled from the spec: [classify(queryText, extractedEntities)]
    of the Intent Classifier (section 4.3).  An intent is eligible
    when one of its keywords occurs (if it declares any) and every
    required kind has a candidate; the eligible intents are ranked by
    required kinds matched exactly, then by the lowest slot
    confidence, then by declaration order. *)
Definition classify (queryText : string)
    (spans : list (string * list CandidateMatch)) : list IntentDecl :=
  foldl (λ ranked d, insert_ranked spans d ranked) []
        (List.filter (λ d, eligible d (String.words queryText) spans) rules).

(** *** Query Planner *)

(** Modelled from the spec: the ambiguity of section 4.6 (a) and of
    section 7 (AmbiguousEntity).  A slot is a kind the chosen intent
    requires one entity of; it is bound to the best candidate of that
    kind, and when the best candidates are tied between different
    entities it is not bound: the tied candidates go to the handler. *)
Definition bind_slot (spans : list (string * list CandidateMatch))
    (k : Kind) : list CandidateMatch + CandidateMatch :=
  let top := top_matches (bound_candidates k spans) in
  if decide (1 < length (entity_ids top))%nat then inl top
  else match top with
       | c :: _ => inr c
       | [] => inl []
       end.

Fixpoint bind_slots (spans : list (string * list CandidateMatch))
    (ks : list Kind) : list CandidateMatch + list CandidateMatch :=
  match ks with
  | [] => inr []
  | k :: rest =>
      match bind_slot spans k with
      | inl cs => inl cs
      | inr c =>
          match bind_slots spans rest with
          | inl cs => inl cs
          | inr bound => inr (c :: bound)
          end
      end
  end.

(** Modelled from the spec: [plan(intent, boundEntities)] of the
    Query Planner (section 4.4): the fixed step template of the
    intent, instantiated with the bound entities. *)
Definition plan (d : IntentDecl) (bound : list CandidateMatch)
  : QueryPlan :=
  {| plan_decl := d; plan_entities := bound;
     plan_steps := template d bound |}.

(** *** The resolver *)

(** Modelled from the spec: [resolve(queryText)] (section 5), the
    state machine of section 4.6: RECEIVED, EXTRACTED, CLASSIFIED,
    PLANNED, EXECUTED, then ANSWERED or CLARIFICATION_NEEDED.  A
    failure at any stage goes to the handler. *)
Definition resolve (queryText : string) : Response :=
  let spans := extract queryText in
  match classify queryText spans with
  | [] => Clarification (handle rules NoIntentMatched)
  | d :: _ =>
      match bind_slots spans (required d) with
      | inl cs => Clarification (handle rules (AmbiguousEntity cs))
      | inr bound =>
          match execute source (plan d bound) with
          | inl err => Clarification (handle rules (FatalStepFailure err))
          | inr a => Answered a
          end
      end
  end.

End Pipeline.

(** *** Vocabulary of the properties *)




End Resolver.

(* ===================================================================== *)
(** ** Concrete worlds                                                    *)
(* ===================================================================== *)

Module Scenario.
Import Js Client.

(** The stores and the component state as they are created. *)
Definition initial_world (e : Env) : World :=
  {| env := e; ticks := 0; sent := []; console := [];
     secureStore := ∅; authToken := None;
     auth := {| user := None; isAuthenticated := false;
                isLoading := false; error := None |};
     search := {| recentSearches := []; isSearching := false;
                  currentResults := [] |};
     favorites := initial_favorites;
     screen := {| scr_loading := false; scr_results := [];
                  scr_nlResponse := None |};
     hook := {| hk_results := None; hk_loading := false |} |}.

(** The body of a response that has none: the empty string. *)
Definition no_body : Body :=
  {| b_truthy := false; b_token := None; b_user := None; b_results := None;
     b_success := false; b_response := None; b_data := None;
     b_message := None |}.

(** The object with no field. *)
Definition empty_body : Body :=
  {| b_truthy := true; b_token := None; b_user := None; b_results := None;
     b_success := false; b_response := None; b_data := None;
     b_message := None |}.

(** A device with no connection: no request gets a response. *)
Definition offline : Env :=
  {| backend := λ _ _, {| latency := 40; reply := None |};
     keychain_up := true;
     clock := λ n, 1751700000000 + Z.of_nat n |}.

(** A backend that answers every request with [st] and [body] after
    [ms] milliseconds. *)
Definition answering (ms st : Z) (body : option Body) : Env :=
  {| backend := λ _ _, {| latency := ms;
                          reply := Some {| status := st; data := body |} |};
     keychain_up := true;
     clock := λ n, 1751700000000 + Z.of_nat n |}.

(** The same device with a keychain that does not answer. *)
Definition locked (e : Env) : Env :=
  {| backend := backend e; keychain_up := false; clock := clock e |}.

Definition judge : PlayerPayload :=
  {| player_id := 592450; player_name := Some "Aaron Judge";
     player_position := Some "RF"; player_team := Some "NYY";
     player_confidence := None |}.

Definition judge_body : Body :=
  {| b_truthy := true; b_token := None; b_user := None; b_results := Some [judge];
     b_success := true; b_response := Some "Aaron Judge";
     b_data := None; b_message := None |}.



Definition fan : User := {| user_id := 7; user_email := "fan@example.com" |}.

(** A signed-in session: token in the secure store and in memory, user
    in the auth store, an earlier error still displayed. *)
Definition signed_in (e : Env) : World :=
  with_auth {| user := Some fan; isAuthenticated := true;
               isLoading := false; error := Some "Login failed" |}
    (with_authToken (Some "t0k3n")
       (with_secureStore {[ "auth_token" := "t0k3n" ]} (initial_world e))).

(** The reply to a login that succeeds. *)
Definition login_body : Body :=
  {| b_truthy := true; b_token := Some "t0k3n"; b_user := Some fan; b_results := None;
     b_success := true; b_response := None; b_data := None;
     b_message := None |}.

(** The reply to a request whose token has expired. *)
Definition expired_body : Body :=
  {| b_truthy := true; b_token := None; b_user := None; b_results := None;
     b_success := false; b_response := None; b_data := None;
     b_message := Some "Invalid token." |}.

(** *** A catalog, a rule table and a fact source *)

Import Resolver.

Definition aaron_judge : Entity :=
  {| entity_id := 592450; kind := player; canonicalName := "Aaron Judge";
     aliases := ["Judge"] |}.
Definition joe_judge : Entity :=
  {| entity_id := 116999; kind := player; canonicalName := "Joe Judge";
     aliases := ["Judge"] |}.
Definition dodger_stadium : Entity :=
  {| entity_id := 6956; kind := venue; canonicalName := "Dodger Stadium";
     aliases := ["Chavez Ravine"] |}.

Definition catalog : list Entity := [aaron_judge; joe_judge; dodger_stadium].

(** A catalog lookup with exact and alias matches only. *)
Definition match_entity (text : string) (e : Entity) : option CandidateMatch :=
  if decide (text = canonicalName e)
  then Some {| span := text; entity := e; confidence := 1;
               matchType := Exact |}
  else if decide (text ∈ aliases e)
  then Some {| span := text; entity := e; confidence := 9 # 10;
               matchType := Alias |}
  else None.

Definition catalog_lookup (k : Kind) (text : string) : list CandidateMatch :=
  omap (match_entity text) (filter (λ e, kind e = k) catalog).

Definition entity_refs (cs : list CandidateMatch) : list Ref :=
  (λ c, OfEntity (entity_id (entity c))) <$> cs.

Definition player_at_venue : IntentDecl :=
  {| decl_intent := PLAYER_AT_VENUE; required := [player; venue];
     keywords := [];
     template := λ cs,
       [ {| step_name := "gameLog"; operation := "getGameLog";
            inputs := entity_refs cs; fatal := true |};
         {| step_name := "statLines"; operation := "getStatLines";
            inputs := [OfStep "gameLog"]; fatal := false |} ];
     aggregation := λ _, [];
     narration := λ _, "Games at the venue" |}.

Definition player_season_stat : IntentDecl :=
  {| decl_intent := PLAYER_SEASON_STAT; required := [player];
     keywords := [];
     template := λ cs,
       [ {| step_name := "season"; operation := "getSeasonStats";
            inputs := entity_refs cs; fatal := true |} ];
     aggregation := λ _, [];
     narration := λ _, "Season statistics" |}.

Definition team_standing : IntentDecl :=
  {| decl_intent := TEAM_STANDING; required := [];
     keywords := ["standings"; "division"];
     template := λ _,
       [ {| step_name := "standings"; operation := "getStandings";
            inputs := []; fatal := true |} ];
     aggregation := λ _, [];
     narration := λ _, "Current standings" |}.

Definition rules : list IntentDecl :=
  [player_at_venue; player_season_stat; team_standing].

(** A fact source that has everything but season statistics and the box
    score of game 2. *)
Definition source : FactSource := λ op args,
  if decide (op = "getSeasonStats") then None
  else match op, args with
       | "getBoxScore", [VNum g] =>
           if Qeq_bool g 2 then None else Some (VNum (g * 10))
       | _, _ => Some (VText op)
       end.



(** Three box scores, each tolerable. *)
Definition box_score (game : Z) : FetchStep :=
  {| step_name := "game" +:+ pretty game; operation := "getBoxScore";
     inputs := [OfEntity game]; fatal := false |}.

Definition three_box_scores : QueryPlan :=
  {| plan_decl := player_at_venue; plan_entities := [];
     plan_steps := [box_score 1; box_score 2; box_score 3] |}.

(** The resolver over this catalog, rule table and fact source. *)
Definition ask : string → Response :=
  resolve catalog_lookup confidence_floor rules source.

End Scenario.

(* ===================================================================== *)
(** ** Properties of the client                                           *)
(* ===================================================================== *)

Import Js Client Scenario.
Local Open Scope async_scope.

Ltac async_unfold :=
  unfold bind, ret, throw, gets, modify, when, try_catch, try_finally,
    console_error, date_now in *.

(** Run a computation symbolically: unfold the monad and split on every
    branch the environment decides. *)
Ltac simplify_run := simplify_eq /=.
Ltac async_cases :=
  repeat first [ progress async_unfold | case_match | progress simplify_run ].

(** *** The search history *)

Section SearchHistory.
Context {A : Type}.
Implicit Types (query : JsString) (results : list A) (w : World).

Lemma addSearch_run query results w :
  useSearchStore.addSearch query results w =
  (Return tt,
   with_search
     {| recentSearches :=
          {| se_id := pretty (clock (env w) (ticks w));
             se_query := query;
             se_timestamp := clock (env w) (S (ticks w));
             se_results := length results |}
          :: take 19 (recentSearches (search w));
        isSearching := isSearching (search w);
        currentResults := currentResults (search w) |}
     (with_ticks (S (S (ticks w))) w)).
Proof. reflexivity. Qed.

(** C10.  After [addSearch(query, results)] the history holds at most 20
    entries; the first one is the new search, which records
    [results.length]; the entries after it are the 19 most recent old
    ones in their order, so an old entry is dropped exactly when 19 or
    more entries were ahead of it. *)
Theorem addSearch_keeps_twenty_most_recent query results w :
  let old := recentSearches (search w) in
  let new :=
    recentSearches (search (useSearchStore.addSearch query results w).2) in
  (useSearchStore.addSearch query results w).1 = Return tt
  ∧ (length new ≤ 20)%nat
  ∧ length new = (S (length old) `min` 20)%nat
  ∧ (∃ e, new !! 0%nat = Some e
          ∧ se_query e = query
          ∧ se_results e = length results
          ∧ se_id e = pretty (clock (env w) (ticks w))
          ∧ se_timestamp e = clock (env w) (S (ticks w)))
  ∧ (∀ i, new !! S i = if decide (i < 19)%nat then old !! i else None).
Proof.
  intros old new. subst new. rewrite addSearch_run. cbn.
  fold old. rewrite length_take.
  repeat split; try lia.
  - eexists. repeat split; reflexivity.
  - intros i.
    change (take 19 old !! i
            = if decide (i < 19)%nat then old !! i else None).
    case_decide.
    + by rewrite lookup_take_lt.
    + rewrite lookup_take_ge; [done | lia].
Qed.
End SearchHistory.

(** *** Frame: what a call on the axios instance can write *)

Section Frame.
Implicit Types (w : World).

Lemma api_call_frame m url params w :
  same_stores w (mlbApi.api_call m url params w).2.
Proof.
  unfold same_stores, mlbApi.api_call, mlbApi.adapter,
    mlbApi.handleAuthError, SecureStore.deleteItemAsync.
  async_cases; done.
Qed.

Lemma api_call_sent m url params w :
  sent (mlbApi.api_call m url params w).2 =
  sent w ++ [ {| req_method := m; req_url := url; req_params := params;
                 req_authorization := mlbApi.authorization (authToken w) |} ].
Proof.
  unfold mlbApi.api_call, mlbApi.adapter, mlbApi.handleAuthError,
    SecureStore.deleteItemAsync.
  async_cases; done.
Qed.
End Frame.

(** *** The favorites store *)

Section Favorites.
Implicit Types (w : World) (ids : list Z).

Lemma appended_NoDup ids i : NoDup ids → NoDup (appended ids i).
Proof.
  intros Hnd. unfold appended, useFavoritesStore.includes.
  case_bool_decide; [done|].
  apply NoDup_app. split_and!; [done | | apply NoDup_singleton].
  intros x Hx ->%list_elem_of_singleton. done.
Qed.

Lemma addFavoriteTeam_run teamId w :
  let after := useFavoritesStore.addFavoriteTeam teamId w in
  match mlbApi.addFavoriteTeam teamId w with
  | (Throw e, _) => after.1 = Throw e ∧ favorites after.2 = favorites w
  | (Return _, _) =>
      after.1 = Return tt
      ∧ favoriteTeams (favorites after.2)
        = appended (favoriteTeams (favorites w)) teamId
      ∧ favoritePlayers (favorites after.2) = favoritePlayers (favorites w)
  end.
Proof.
  unfold useFavoritesStore.addFavoriteTeam, mlbApi.addFavoriteTeam, appended,
    useFavoritesStore.set_favoriteTeams.
  pose proof (api_call_frame POST "/api/favorites/teams/"
                [PNum "teamId" teamId] w) as (_&_&_&_&_&Hf&_).
  async_unfold.
  destruct (mlbApi.api_call _ _ _ w) as [[d|e] w1]; simpl in *; rewrite Hf;
    [destruct (useFavoritesStore.includes _ _)|];
    async_unfold; simpl; rewrite ?Hf; done.
Qed.

Lemma addFavoritePlayer_run playerId w :
  let after := useFavoritesStore.addFavoritePlayer playerId w in
  match mlbApi.addFavoritePlayer playerId w with
  | (Throw e, _) => after.1 = Throw e ∧ favorites after.2 = favorites w
  | (Return _, _) =>
      after.1 = Return tt
      ∧ favoritePlayers (favorites after.2)
        = appended (favoritePlayers (favorites w)) playerId
      ∧ favoriteTeams (favorites after.2) = favoriteTeams (favorites w)
  end.
Proof.
  unfold useFavoritesStore.addFavoritePlayer, mlbApi.addFavoritePlayer,
    appended, useFavoritesStore.set_favoritePlayers.
  pose proof (api_call_frame POST "/api/favorites/players/"
                [PNum "playerId" playerId] w) as (_&_&_&_&_&Hf&_).
  async_unfold.
  destruct (mlbApi.api_call _ _ _ w) as [[d|e] w1]; simpl in *; rewrite Hf;
    [destruct (useFavoritesStore.includes _ _)|];
    async_unfold; simpl; rewrite ?Hf; done.
Qed.

Lemma favorites_call_duplicate_free c w :
  duplicate_free (favorites w) →
  duplicate_free (favorites (favorites_call c w).2).
Proof.
  intros [Ht Hp].
  destruct c as [i|i|i|i]; unfold duplicate_free, favorites_call.
  - pose proof (addFavoriteTeam_run i w) as H. simpl in H.
    destruct (mlbApi.addFavoriteTeam i w) as [[d|e] w1].
    + destruct H as (_ & -> & ->). split; [by apply appended_NoDup | done].
    + destruct H as (_ & ->). by split.
  - split; simpl; [by apply NoDup_filter | done].
  - pose proof (addFavoritePlayer_run i w) as H. simpl in H.
    destruct (mlbApi.addFavoritePlayer i w) as [[d|e] w1].
    + destruct H as (_ & -> & ->). split; [done | by apply appended_NoDup].
    + destruct H as (_ & ->). by split.
  - split; simpl; [done | by apply NoDup_filter].
Qed.

Lemma after_calls_duplicate_free cs w :
  duplicate_free (favorites w) →
  duplicate_free (favorites (after_calls cs w)).
Proof.
  revert w. induction cs as [|c cs IH]; intros w Hw; [done|].
  apply IH. by apply favorites_call_duplicate_free.
Qed.

(** C9.  [addFavoriteTeam] and [addFavoritePlayer] of the favorites store:
    when the backend call throws, the same error is rethrown and the
    favorites are as they were; when it succeeds, the id is appended
    unless the list already has it.  Hence, from the store's initial
    state, no sequence of add and remove calls ever leaves a duplicate id
    in [favoriteTeams] or in [favoritePlayers]. *)
Theorem favorites_add_failure_safe_and_duplicate_free :
  (∀ teamId w,
      let after := useFavoritesStore.addFavoriteTeam teamId w in
      let teams := favoriteTeams (favorites w) in
      match mlbApi.addFavoriteTeam teamId w with
      | (Throw e, _) => after.1 = Throw e ∧ favorites after.2 = favorites w
      | (Return _, _) =>
          after.1 = Return tt
          ∧ favoriteTeams (favorites after.2)
            = (if useFavoritesStore.includes teams teamId
               then teams else teams ++ [teamId])
          ∧ favoritePlayers (favorites after.2)
            = favoritePlayers (favorites w)
      end)
  ∧ (∀ playerId w,
      let after := useFavoritesStore.addFavoritePlayer playerId w in
      let players := favoritePlayers (favorites w) in
      match mlbApi.addFavoritePlayer playerId w with
      | (Throw e, _) => after.1 = Throw e ∧ favorites after.2 = favorites w
      | (Return _, _) =>
          after.1 = Return tt
          ∧ favoritePlayers (favorites after.2)
            = (if useFavoritesStore.includes players playerId
               then players else players ++ [playerId])
          ∧ favoriteTeams (favorites after.2) = favoriteTeams (favorites w)
      end)
  ∧ (∀ calls w,
      let w' := after_calls calls (with_favorites initial_favorites w) in
      NoDup (favoriteTeams (favorites w'))
      ∧ NoDup (favoritePlayers (favorites w'))).
Proof.
  split_and!.
  - apply addFavoriteTeam_run.
  - apply addFavoritePlayer_run.
  - intros calls w. apply after_calls_duplicate_free.
    split; apply NoDup_nil_2.
Qed.
End Favorites.

(** *** Signing out *)

Section Logout.
Implicit Types (w : World).

Lemma logout_run w :
  keychain_up (env w) = true →
  ∃ w', mlbApi.logout w = (Return tt, w')
        ∧ secureStore w' !! "auth_token" = None
        ∧ authToken w' = None
        ∧ same_stores w w'.
Proof.
  intros Hk.
  pose proof (api_call_frame POST "/api/v1/auth/logout/" [] w) as Hfr.
  unfold mlbApi.logout, SecureStore.deleteItemAsync. async_unfold.
  destruct (mlbApi.api_call _ _ _ w) as [[d|e] w1]; simpl in *;
    pose proof Hfr as (He & _); rewrite He, Hk;
    (eexists; split; [reflexivity|]); simpl;
    rewrite lookup_delete_eq; done.
Qed.





End Logout.

(** *** Computations that cannot throw *)

Section NeverThrows.
Context {A : Type}.

Lemma never_throws_ret (a : A) : never_throws (ret a).
Proof. intros w. by exists a. Qed.

Lemma never_throws_modify f : never_throws (modify f).
Proof. intros w. by exists tt. Qed.

Lemma never_throws_bind {B} (m : Async B) (k : B → Async A) :
  never_throws m → (∀ b, never_throws (k b)) → never_throws (bind m k).
Proof.
  intros Hm Hk w. unfold bind. destruct (Hm w) as [b Hb].
  destruct (m w) as [[b'|e] w1]; simplify_eq/=. apply Hk.
Qed.

Lemma never_throws_try_catch (body : Async A) handler :
  (∀ e, never_throws (handler e)) → never_throws (try_catch body handler).
Proof.
  intros Hh w. unfold try_catch.
  destruct (body w) as [[a|e] w1]; [by exists a | apply Hh].
Qed.

Lemma never_throws_try_finally (body : Async A) fin :
  never_throws body → never_throws fin → never_throws (try_finally body fin).
Proof.
  intros Hb Hf w. unfold try_finally. destruct (Hb w) as [a Ha].
  destruct (body w) as [c w1]. destruct (Hf w1) as [[] Hu].
  destruct (fin w1) as [[[]|e] w2]; simplify_eq/=. by exists a.
Qed.
End NeverThrows.

(** *** The natural-language search and its callers *)

Section NaturalLanguageSearch.
Implicit Types (query : JsString) (w : World).

Lemma naturalLanguageSearch_run query w :
  match mlbApi.api_call POST "/api/v1/search/natural/"
          [PStr "query" query] w with
  | (Return d, w1) => mlbApi.naturalLanguageSearch query w = (Return d, w1)
  | (Throw e, w1) =>
      mlbApi.naturalLanguageSearch query w
      = (Throw (EError (or_else (response_message e) "Search failed")), w1)
  end.
Proof.
  unfold mlbApi.naturalLanguageSearch, try_catch, throw.
  by destruct (mlbApi.api_call _ _ _ w) as [[d|e] w1].
Qed.

Lemma never_throws_console_error msg : never_throws (console_error msg).
Proof. apply never_throws_modify. Qed.

Lemma handleSearch_never_throws query :
  never_throws (SearchScreen.handleSearch query).
Proof.
  unfold SearchScreen.handleSearch. case_match; [apply never_throws_ret|].
  apply never_throws_bind; [apply never_throws_modify | intros _].
  apply never_throws_try_finally; [|apply never_throws_modify].
  apply never_throws_try_catch. intros e. apply never_throws_console_error.
Qed.

Lemma hook_search_never_throws query :
  never_throws (useNaturalLanguageSearch.search query).
Proof.
  unfold useNaturalLanguageSearch.search.
  case_match; [apply never_throws_modify|].
  apply never_throws_bind; [apply never_throws_modify | intros _].
  apply never_throws_try_finally; [|apply never_throws_modify].
  apply never_throws_try_catch. intros e. apply never_throws_console_error.
Qed.

(** C1, as the claim states it, fails: with the device offline the
    natural-language search rejects with Error('Search failed'). *)
Lemma naturalLanguageSearch_throws_offline :
  (mlbApi.naturalLanguageSearch (of_string "Aaron Judge at Dodger Stadium")
     (initial_world offline)).1
  = Throw (EError "Search failed")
  ∧ ¬ (∀ query, never_throws (mlbApi.naturalLanguageSearch query)).
Proof.
  split; [reflexivity|].
  intros H. destruct (H [] (initial_world offline)) as [a Ha].
  discriminate Ha.
Qed.

(** C1, amended.  [naturalLanguageSearch] returns the response data when
    the request succeeds; on any failure it throws an Error that carries
    the message of the response, or 'Search failed'.  The error stops at
    its callers: [handleSearch] of the screen and [search] of the hook
    always return. *)
Theorem search_errors_stop_at_the_callers query w :
  match mlbApi.api_call POST "/api/v1/search/natural/"
          [PStr "query" query] w with
  | (Return d, w1) => mlbApi.naturalLanguageSearch query w = (Return d, w1)
  | (Throw e, w1) =>
      mlbApi.naturalLanguageSearch query w
      = (Throw (EError (or_else (response_message e) "Search failed")), w1)
  end
  ∧ (SearchScreen.handleSearch query w).1 = Return tt
  ∧ (useNaturalLanguageSearch.search query w).1 = Return tt.
Proof.
  split_and!.
  - apply naturalLanguageSearch_run.
  - by destruct (handleSearch_never_throws query w) as [[] ?].
  - by destruct (hook_search_never_throws query w) as [[] ?].
Qed.
End NaturalLanguageSearch.

(** *** Blank queries *)

Section BlankQuery.
Implicit Types (query s : JsString) (w : World).

Lemma drop_while_nil {A} (p : A → bool) (l : list A) :
  drop_while p l = [] ↔ Forall (λ x, p x = true) l.
Proof.
  induction l as [|x l IH]; simpl; [by split|].
  destruct (p x) eqn:Hx.
  - rewrite IH. split; [by constructor | by inversion 1].
  - split; [done | inversion 1; congruence].
Qed.

Lemma drop_while_head {A} (p : A → bool) (l : list A) x r :
  drop_while p l = x :: r → p x = false.
Proof.
  induction l as [|y l IH]; simpl; [done|].
  destruct (p y) eqn:Hy; [done | congruence].
Qed.

Lemma trim_blank s : trim s = [] ↔ blank s.
Proof.
  unfold trim, trimEnd, trimStart, blank. split.
  - intros H. apply (f_equal (@rev N)) in H. rewrite rev_involutive in H.
    simpl in H. apply drop_while_nil, Forall_rev in H.
    rewrite rev_involutive in H.
    destruct (drop_while is_whitespace s) as [|x r] eqn:Hd.
    + by apply drop_while_nil.
    + apply drop_while_head in Hd. inversion H; congruence.
  - intros H. apply drop_while_nil in H. by rewrite H.
Qed.

Lemma guard_blank s : negb (truthy (trim s)) = true ↔ blank s.
Proof.
  rewrite <- trim_blank. destruct (trim s); simpl; split; done.
Qed.

(** C2, as the claim states it, fails: the empty query is not rejected;
    [handleSearch] and the hook's [search] simply return. *)
Lemma empty_query_is_not_rejected :
  SearchScreen.handleSearch [] (initial_world offline)
  = (Return tt, initial_world offline)
  ∧ ¬ rejected (SearchScreen.handleSearch [] (initial_world offline)).1
  ∧ ¬ rejected (useNaturalLanguageSearch.search [] (initial_world offline)).1.
Proof.
  split_and!; [reflexivity | intros [e He]; discriminate He
              | intros [e He]; discriminate He].
Qed.

(** C2, amended.  A query that is empty or only whitespace is dropped
    before anything is sent: [handleSearch] returns with the world
    untouched, the hook's [search] returns after resetting its results to
    null, and neither issues a request.  Nothing is rejected and no status
    is produced. *)
Theorem blank_query_sends_nothing query w :
  blank query →
  SearchScreen.handleSearch query w = (Return tt, w)
  ∧ useNaturalLanguageSearch.search query w
    = (Return tt,
       with_hook {| hk_results := None; hk_loading := hk_loading (hook w) |} w)
  ∧ sent (SearchScreen.handleSearch query w).2 = sent w
  ∧ sent (useNaturalLanguageSearch.search query w).2 = sent w.
Proof.
  intros Hb%guard_blank.
  unfold SearchScreen.handleSearch, useNaturalLanguageSearch.search.
  rewrite Hb. done.
Qed.

(** A space, a tab, a no-break space and a line feed. *)
Lemma blank_query_sends_nothing_witness :
  blank [32; 9; 160; 10]%N
  ∧ SearchScreen.handleSearch [32; 9; 160; 10]%N (signed_in offline)
    = (Return tt, signed_in offline)
  ∧ sent (useNaturalLanguageSearch.search [32; 9; 160; 10]%N
            (signed_in offline)).2 = [].
Proof.
  assert (blank [32; 9; 160; 10]%N) as Hb by (repeat constructor).
  pose proof (blank_query_sends_nothing _ (signed_in offline) Hb)
    as (H1 & _ & _ & H2).
  split_and!; [exact Hb | exact H1 | exact H2].
Defined.

(** In [handleSearch] the two fetches share one [try]: when the first
    fails, the player search is never sent; the error is logged and the
    loading flag is cleared. *)
Example handleSearch_stops_at_the_first_failure :
  let after :=
    (SearchScreen.handleSearch (of_string "Judge") (initial_world offline)).2
  in
  (req_url <$> sent after) = ["/api/v1/search/natural/"]
  ∧ console after = ["Search error:"]
  ∧ scr_loading (screen after) = false
  ∧ scr_results (screen after) = [].
Proof. vm_compute. split_and!; reflexivity. Qed.

(** A query with text in it does go out: first to the natural-language
    endpoint, then to the player search. *)
Example judge_query_is_sent :
  req_url <$>
    sent (SearchScreen.handleSearch (of_string " Judge ")
            (initial_world (answering 120 200 (Some judge_body)))).2
  = ["/api/v1/search/natural/"; "/api/players/search/"].
Proof. vm_compute. reflexivity. Qed.
End BlankQuery.

(** *** Relational reasoning on computations *)

Section StepsWithin.
Context (R : relation World) `{!Reflexive R, !Transitive R}.

Lemma steps_ret {A} (a : A) : steps_within R (ret a).
Proof. intros w. reflexivity. Qed.

Lemma steps_throw {A} e : steps_within R (throw (A:=A) e).
Proof. intros w. reflexivity. Qed.

Lemma steps_gets {A} (f : World → A) : steps_within R (gets f).
Proof. intros w. reflexivity. Qed.

Lemma steps_modify f : (∀ w, R w (f w)) → steps_within R (modify f).
Proof. intros Hf w. apply Hf. Qed.

Lemma steps_bind {A B} (m : Async A) (k : A → Async B) :
  steps_within R m → (∀ a, steps_within R (k a)) →
  steps_within R (bind m k).
Proof.
  intros Hm Hk w. unfold bind. specialize (Hm w).
  destruct (m w) as [[a|e] w1]; simpl in *; [|done].
  etrans; [exact Hm | apply Hk].
Qed.

Lemma steps_try_catch {A} (body : Async A) handler :
  steps_within R body → (∀ e, steps_within R (handler e)) →
  steps_within R (try_catch body handler).
Proof.
  intros Hb Hh w. unfold try_catch. specialize (Hb w).
  destruct (body w) as [[a|e] w1]; simpl in *; [done|].
  etrans; [exact Hb | apply Hh].
Qed.

Lemma steps_try_finally {A} (body : Async A) fin :
  steps_within R body → steps_within R fin →
  steps_within R (try_finally body fin).
Proof.
  intros Hb Hf w. unfold try_finally. specialize (Hb w).
  destruct (body w) as [c w1]. specialize (Hf w1).
  destruct (fin w1) as [[[]|e] w2]; simpl in *; by etrans.
Qed.

Lemma steps_when b m : steps_within R m → steps_within R (when b m).
Proof. destruct b; [done | intros _; apply steps_ret]. Qed.

(** A relation that only looks at the stores holds across a call on the
    axios instance. *)
Lemma steps_api_call m url params :
  (∀ w w', same_stores w w' → R w w') →
  steps_within R (mlbApi.api_call m url params).
Proof. intros HR w. apply HR, api_call_frame. Qed.
End StepsWithin.

(** *** Timeouts *)

Section Timeouts.
Implicit Types (r : Request) (w : World).

Lemma adapter_times_out r w :
  (mlbApi.adapter r w).1 = Throw (EAxios Timeout)
  ↔ mlbApi.axios_timeout < latency (backend (env w) (sent w) r).
Proof.
  unfold mlbApi.adapter. rewrite <- Z.ltb_lt.
  destruct (mlbApi.axios_timeout <? _); simpl; [done|].
  split; [|done]. repeat case_match; done.
Qed.

(** A timeout is a failure like any other: the caller sees the same Error
    as when the connection fails. *)
Lemma timeout_is_a_failure query w :
  mlbApi.axios_timeout
  < latency (backend (env w) (sent w)
               {| req_method := POST; req_url := "/api/v1/search/natural/";
                  req_params := [PStr "query" query];
                  req_authorization :=
                    mlbApi.authorization (authToken w) |}) →
  (mlbApi.naturalLanguageSearch query w).1 = Throw (EError "Search failed").
Proof.
  intros H%Z.ltb_lt.
  unfold mlbApi.naturalLanguageSearch, mlbApi.api_call, mlbApi.adapter.
  async_unfold. simpl. rewrite H. reflexivity.
Qed.

(** C3.  The claim gives every fetch a timeout of 10 seconds, the value of
    API_TIMEOUT in the environment file.  The axios instance is built
    with 30 seconds and nothing reads API_TIMEOUT: a reply that takes 15
    seconds is not timed out, the search returns its data. *)
Theorem reply_after_fifteen_seconds_is_accepted :
  let slow := initial_world (answering 15000 200 (Some judge_body)) in
  API_TIMEOUT = 10000
  ∧ mlbApi.axios_timeout = 30000
  ∧ (mlbApi.naturalLanguageSearch (of_string "Aaron Judge") slow).1
    = Return (Some judge_body)
  ∧ (mlbApi.searchPlayers (of_string "Aaron Judge") slow).1
    = Return (Some [judge]).
Proof. split_and!; reflexivity. Qed.
End Timeouts.

(** *** Player search *)

Section PlayerSearch.
Implicit Types (query : JsString) (w : World).

Lemma searchPlayers_run query w :
  match mlbApi.api_call GET "/api/players/search/"
          [PStr "q" query; PNum "limit" 20] w with
  | (Return (Some b), w1) =>
      mlbApi.searchPlayers query w = (Return (b_results b), w1)
  | (Return None, w1) | (Throw _, w1) =>
      mlbApi.searchPlayers query w
      = (Throw (EError "Failed to search players"),
         with_console (console w1 ++ ["Player search error:"]) w1)
  end.
Proof.
  unfold mlbApi.searchPlayers. async_unfold.
  by destruct (mlbApi.api_call _ _ _ w) as [[[b|]|e] w1].
Qed.


(** A response without a body has no [results]: the call returns
    undefined, and logs nothing. *)
Example searchPlayers_without_body :
  let w := initial_world (answering 120 200 (Some no_body)) in
  (mlbApi.searchPlayers (of_string "Judge") w).1 = Return None
  ∧ console (mlbApi.searchPlayers (of_string "Judge") w).2 = [].
Proof. by vm_compute. Qed.

End PlayerSearch.

(** *** The relevance of the screen's results *)

Section Relevance.
Implicit Types (query : JsString) (w : World).

Lemma naturalLanguageSearch_frame query w :
  same_stores w (mlbApi.naturalLanguageSearch query w).2.
Proof.
  pose proof (naturalLanguageSearch_run query w) as H.
  pose proof (api_call_frame POST "/api/v1/search/natural/"
                [PStr "query" query] w) as F.
  destruct (mlbApi.api_call _ _ _ w) as [[d|e] w1]; by rewrite H.
Qed.









End Relevance.

(* ===================================================================== *)
(** ** Properties of the resolver pipeline                                *)
(* ===================================================================== *)

Import Resolver.

(** *** Partial results *)

Section PartialResults.
Variable src : FactSource.
Implicit Types (steps : list FetchStep) (bound : Bindings)
  (gaps : list string).

Lemma failures_cons o os :
  failures (o :: os)
  = ((if decide (o = None) then 1 else 0) + failures os)%nat.
Proof. unfold failures. rewrite filter_cons. by case_decide. Qed.

(** The step loop, when no fatal step fails: every step runs, the data
    of each step that succeeds is bound under its name, and every
    failure is recorded as one gap. *)
Lemma run_steps_tolerable steps bound gaps :
  failures_tolerable src steps bound →
  ∃ bound' gaps',
    run_steps src steps bound gaps = inr (bound', gaps')
    ∧ bound ⊆ bound'
    ∧ length (outcomes src steps bound) = length steps
    ∧ length gaps' = (length gaps + failures (outcomes src steps bound))%nat
    ∧ ∀ i s v, steps !! i = Some s →
               outcomes src steps bound !! i = Some (Some v) →
               (step_name s, v) ∈ bound'.
Proof.
  revert bound gaps.
  induction steps as [|s steps IH]; intros bound gaps Htol; simpl.
  { exists bound, gaps. split_and!; [done | done | done | | done].
    unfold failures. simpl. lia. }
  unfold failures_tolerable in Htol. simpl in Htol.
  destruct (invoke src s bound) as [c|v] eqn:Hinv.
  - assert (fatal s = false) as Hs by (by apply (Htol 0%nat s)).
    rewrite Hs in Htol |- *.
    destruct (IH bound (gaps ++ [step_name s])) as
      (bound' & gaps' & Hrun & Hsub & Hlen & Hgaps & Hdata).
    { intros i s' Hi Ho. by apply (Htol (S i) s'). }
    exists bound', gaps'. rewrite failures_cons, length_app in *.
    simpl in *. split_and!; [done | done | lia | lia |].
    intros [|i] s' v Hi Ho; simplify_eq/=. by eapply Hdata.
  - destruct (IH (bound ++ [(step_name s, v)]) gaps) as
      (bound' & gaps' & Hrun & Hsub & Hlen & Hgaps & Hdata).
    { intros i s' Hi Ho. by apply (Htol (S i) s'). }
    exists bound', gaps'. rewrite failures_cons. simpl.
    split_and!; [done | set_solver | lia | lia |].
    intros [|i] s' v' Hi Ho; simplify_eq/=; [set_solver | by eapply Hdata].
Qed.

(** In the model the confidence of an answer is a lower bound of the
    confidences of the entities it binds. *)
Lemma answer_confidence_lower_bound (p : QueryPlan) a c :
  execute src p = inr a → c ∈ boundEntities a →
  (answer_confidence a <= confidence c)%Q.
Proof.
  unfold execute. destruct (run_steps _ _ _ _) as [err|[bound gaps]]; [done|].
  intros [= <-]. simpl. unfold min_confidence.
  induction (plan_entities p) as [|c0 cs IH]; [by intros ?%elem_of_nil|].
  intros [->|Hc]%elem_of_cons; simpl; [apply Q.le_min_l|].
  eapply Qle_trans; [apply Q.le_min_r | by apply IH].
Qed.

(** C7.  A plan is executed and exactly one of its steps fails, a
    tolerable one.  Then execution is not aborted: every step is run, the
    answer has [partial = true], and the data of each of the other steps
    is in the answer's facts under the name the step declares. *)
Theorem one_tolerable_failure_gives_partial_answer (p : QueryPlan) :
  failures_tolerable src (plan_steps p) [] →
  failures (outcomes src (plan_steps p) []) = 1%nat →
  ∃ a, execute src p = inr a
       ∧ partial a = true
       ∧ length (outcomes src (plan_steps p) []) = length (plan_steps p)
       ∧ ∀ i s, plan_steps p !! i = Some s →
                outcomes src (plan_steps p) [] !! i = Some None
                ∨ ∃ v, outcomes src (plan_steps p) [] !! i = Some (Some v)
                       ∧ (step_name s, v) ∈ facts a.
Proof.
  intros Htol Hone.
  destruct (run_steps_tolerable (plan_steps p) [] [] Htol) as
    (bound & gaps & Hrun & _ & Hlen & Hgaps & Hdata).
  unfold execute. rewrite Hrun. eexists. split; [reflexivity|]. simpl.
  split_and!; [| done |].
  - rewrite Hone in Hgaps. apply bool_decide_eq_true.
    intros ->. discriminate Hgaps.
  - intros i s Hi.
    destruct (outcomes src (plan_steps p) [] !! i) as [[v|]|] eqn:Ho.
    + right. exists v. split; [done|].
      apply elem_of_app. left. by eapply Hdata.
    + by left.
    + apply lookup_ge_None in Ho. apply lookup_lt_Some in Hi. lia.
Qed.
End PartialResults.

(** Three tolerable box-score steps; the fact source has no box score for
    game 2. *)
Lemma one_tolerable_failure_gives_partial_answer_witness :
  failures_tolerable source (plan_steps three_box_scores) []
  ∧ failures (outcomes source (plan_steps three_box_scores) []) = 1%nat
  ∧ ∃ a, execute source three_box_scores = inr a
         ∧ partial a = true
         ∧ facts a = [("game1", VNum 10); ("game3", VNum 30)].
Proof.
  assert (failures_tolerable source (plan_steps three_box_scores) []) as Htol.
  { intros [|[|[|i]]] s Hi Ho; simplify_eq/=; reflexivity. }
  destruct (one_tolerable_failure_gives_partial_answer source
              three_box_scores Htol eq_refl) as (a & Ha & Hp & _).
  split_and!; [exact Htol | reflexivity |].
  exists a. split_and!; [exact Ha | exact Hp |].
  vm_compute in Ha. by simplify_eq.
Defined.

(** *** Ambiguous entities *)

Section Ambiguity.
Variable lookup_entity : Kind → string → list CandidateMatch.
Variable floor : Q.
Variable table : list IntentDecl.
Variable src : FactSource.
Implicit Types (cs : list CandidateMatch) (c : CandidateMatch).







(** The extractor fails closed: every accepted span has a candidate, and
    no candidate below the floor is ever handed on. *)
Lemma longest_match_above_floor n toks m sp cs :
  longest_match lookup_entity floor n toks = Some (m, sp, cs) →
  cs ≠ [] ∧ Forall (λ c, (floor <= confidence c)%Q) cs.
Proof.
  induction n as [|n IH]; simpl; [done|].
  destruct (candidates_for _ _ _) as [|c0 cs0] eqn:Hc; [exact IH|].
  intros [= <- <- <-]. split; [done|]. rewrite <- Hc.
  apply Forall_forall. intros c [Hf _]%list_elem_of_filter.
  by apply Qle_bool_iff, Is_true_true.
Qed.

Lemma extract_above_floor queryText sp cs c :
  (sp, cs) ∈ extract lookup_entity floor queryText → c ∈ cs →
  (floor <= confidence c)%Q.
Proof.
  unfold extract. generalize (String.words queryText) 0%nat.
  intros toks. induction toks as [|t toks IH]; intros skip;
    cbn [extract_from].
  { by intros ?%elem_of_nil. }
  destruct skip as [|k]; [|apply IH].
  destruct (longest_match _ _ _ _) as [[[n sp'] cs']|] eqn:Hm; [|apply IH].
  intros [[= -> ->]|Hin]%elem_of_cons; [|by eapply IH].
  apply longest_match_above_floor in Hm as [_ Hall].
  rewrite Forall_forall in Hall. apply Hall.
Qed.












End Ambiguity.


(** *** The scenarios of the specification on the model *)

Section Scenarios.

(** Scenario A: both entities are bound with confidence 1 and the intent
    is PLAYER_AT_VENUE. *)
Example scenario_A :
  match ask "Aaron Judge at Dodger Stadium 2024" with
  | Answered a =>
      intent a = PLAYER_AT_VENUE
      ∧ (entity <$> boundEntities a) = [aaron_judge; dodger_stadium]
      ∧ (answer_confidence a == 1)%Q
      ∧ partial a = false
  | Clarification _ => False
  end.
Proof. vm_compute. split_and!; reflexivity. Qed.

(** Scenario C: no entity is required. *)
Example scenario_C :
  match ask "standings" with
  | Answered a => intent a = TEAM_STANDING ∧ boundEntities a = []
  | Clarification _ => False
  end.
Proof. vm_compute. split; reflexivity. Qed.

(** Scenario D: the only step of the plan is fatal and the fact source
    fails. *)
Example scenario_D :
  match ask "Aaron Judge" with
  | Clarification cl => reason cl = DATA_UNAVAILABLE
  | Answered _ => False
  end.
Proof. vm_compute. reflexivity. Qed.

Example unrecognised_query :
  match ask "hello there" with
  | Clarification cl => reason cl = UNRECOGNIZED_QUERY
  | Answered _ => False
  end.
Proof. vm_compute. reflexivity. Qed.
End Scenarios.

(* ===================================================================== *)
(** ** Further properties of the client                                   *)
(* ===================================================================== *)

(** *** The axios instance *)

Section Interceptors.
Implicit Types (w : World) (rp : Reply).

Lemma api_call_resolves m url params w rp :
  let r := request_of m url params w in
  latency (backend (env w) (sent w) r) ≤ mlbApi.axios_timeout →
  reply (backend (env w) (sent w) r) = Some rp →
  mlbApi.status_ok (status rp) = true →
  mlbApi.api_call m url params w
  = (Return (data rp), with_sent (sent w ++ [r]) w).
Proof.
  intros r Hl Hr Hs. unfold mlbApi.api_call, mlbApi.adapter.
  async_unfold. fold (request_of m url params w). fold r.
  rewrite Hr, Hs.
  destruct (mlbApi.axios_timeout <? _) eqn:Ht; [|done].
  apply Z.ltb_lt in Ht. lia.
Qed.

Lemma api_call_unauthorized m url params w rp :
  let r := request_of m url params w in
  keychain_up (env w) = true →
  latency (backend (env w) (sent w) r) ≤ mlbApi.axios_timeout →
  reply (backend (env w) (sent w) r) = Some rp →
  status rp = 401 →
  mlbApi.api_call m url params w
  = (Throw (EAxios (BadStatus 401 (data rp))),
     with_authToken None
       (with_secureStore (delete "auth_token" (secureStore w))
          (with_sent (sent w ++ [r]) w))).
Proof.
  intros r Hk Hl Hr Hs.
  unfold mlbApi.api_call, mlbApi.adapter, mlbApi.handleAuthError,
    SecureStore.deleteItemAsync.
  async_unfold. fold (request_of m url params w). fold r.
  rewrite Hr, Hs. simpl.
  destruct (mlbApi.axios_timeout <? _) eqn:Ht.
  { apply Z.ltb_lt in Ht. lia. }
  simpl. by rewrite Hk.
Qed.
End Interceptors.

(** *** Signing in *)

Section Login.
Implicit Types (w : World) (email password : JsString).

Lemma or_else_nonempty a b : b ≠ "" → or_else a b ≠ "".
Proof. intros Hb. unfold or_else. destruct a; [case_decide|]; done. Qed.

(** What [store_session] does with the body of the response. *)
Lemma store_session_run d w :
  mlbApi.store_session d w =
  match d with
  | None => (Throw ETypeError, w)
  | Some b =>
      match b_token b with
      | Some t =>
          if keychain_up (env w)
          then (Return (Some t, b_user b),
                with_secureStore (<["auth_token" := t]> (secureStore w))
                  (with_authToken (Some t) w))
          else (Throw ESecureStore, with_authToken (Some t) w)
      | None => (Throw ESecureStore, with_authToken None w)
      end
  end.
Proof.
  unfold mlbApi.store_session, SecureStore.setItemAsync.
  destruct d as [b|]; [|done]. async_unfold. simpl.
  destruct (b_token b); [|done]. by destruct (keychain_up _).
Qed.

(** A rejection of [store_session] carries no response: the catch of
    [login] turns it into the default message. *)
Lemma store_session_throws d w e :
  (mlbApi.store_session d w).1 = Throw e → response_message e = None.
Proof.
  rewrite store_session_run. repeat case_match; naive_solver.
Qed.

Lemma session_call_throws_Error m url params fallback :
  fallback ≠ "" →
  throws_only_Errors
    (try_catch
       (d <- mlbApi.api_call m url params ;; mlbApi.store_session d)
       (fun e => throw (EError (or_else (response_message e) fallback)))).
Proof.
  intros Hf w e. async_unfold.
  destruct (mlbApi.api_call _ _ _ w) as [[d|e0] w1]; simpl.
  - destruct (mlbApi.store_session d w1) as [[r|e1] w2]; simpl; [done|].
    intros [= <-]. eexists. split; [done|]. by apply or_else_nonempty.
  - intros [= <-]. eexists. split; [done|]. by apply or_else_nonempty.
Qed.

Lemma login_throws_Error email password :
  throws_only_Errors (mlbApi.login email password).
Proof. by apply session_call_throws_Error. Qed.

Lemma register_throws_Error email password firstName lastName :
  throws_only_Errors (mlbApi.register email password firstName lastName).
Proof. by apply session_call_throws_Error. Qed.

(** A session call that returns has put the token it returns in memory
    and in the secure store, and has left the stores alone. *)
Lemma session_call_returns m url params fallback w r w' :
  try_catch
    (d <- mlbApi.api_call m url params ;; mlbApi.store_session d)
    (fun e => throw (EError (or_else (response_message e) fallback))) w
  = (Return r, w') →
  ∃ t, r.1 = Some t ∧ authToken w' = Some t
       ∧ secureStore w' !! "auth_token" = Some t
       ∧ same_stores w w'.
Proof.
  async_unfold. pose proof (api_call_frame m url params w) as Hfr.
  destruct (mlbApi.api_call _ _ _ w) as [[d|e0] w1]; simpl in *; [|done].
  rewrite store_session_run.
  destruct d as [b|]; [|done]. destruct (b_token b) as [t|]; [|done].
  destruct (keychain_up _); [|done].
  intros [= <- <-]. exists t. simpl. rewrite lookup_insert_eq.
  split_and!; done.
Qed.

(** How [sign_in] ends, given how the call of the service ends. *)
Lemma sign_in_run call w :
  let w0 := with_auth {| user := user (auth w);
                         isAuthenticated := isAuthenticated (auth w);
                         isLoading := true; error := None |} w in
  useAuthStore.sign_in call w =
  match call w0 with
  | (Return r, w1) =>
      (Return tt,
       with_auth {| user := r.2; isAuthenticated := true;
                    isLoading := false; error := error (auth w1) |} w1)
  | (Throw e, w1) =>
      (Throw e,
       with_auth {| user := user (auth w1);
                    isAuthenticated := isAuthenticated (auth w1);
                    isLoading := false;
                    error := useAuthStore.error_message e |} w1)
  end.
Proof.
  intros w0. unfold useAuthStore.sign_in. async_unfold. fold w0.
  by destruct (call w0) as [[r|e] w1].
Qed.

(** X1.  [login] of the auth store ends in one of two ways.  Either it
    returns: the store is authenticated, not loading and shows no error,
    and the token is in memory and in the secure store.  Or it throws an
    Error with a non-empty message: that message is the store's error,
    the store is not loading, and its user and authentication flag are
    what they were. *)
Theorem login_succeeds_or_reports email password w :
  let after := (useAuthStore.login email password w).2 in
  match (useAuthStore.login email password w).1 with
  | Return _ =>
      isAuthenticated (auth after) = true
      ∧ isLoading (auth after) = false
      ∧ error (auth after) = None
      ∧ ∃ t, authToken after = Some t
             ∧ secureStore after !! "auth_token" = Some t
  | Throw e =>
      ∃ msg, e = EError msg ∧ msg ≠ ""
             ∧ error (auth after) = Some msg
             ∧ isLoading (auth after) = false
             ∧ user (auth after) = user (auth w)
             ∧ isAuthenticated (auth after) = isAuthenticated (auth w)
  end.
Proof.
  unfold useAuthStore.login. rewrite sign_in_run. cbv zeta.
  set (w0 := with_auth _ w).
  destruct (mlbApi.login email password w0) as [[r|e] w1] eqn:Hl; simpl.
  - apply session_call_returns in Hl as (t & _ & Ht & Hs & Hfr).
    destruct Hfr as (_&_&_&Ha&_). rewrite Ha. simpl.
    split_and!; try done. by exists t.
  - destruct (login_throws_Error email password w0 e) as (msg & -> & Hm).
    { by rewrite Hl. }
    exists msg. split_and!; try done.
    all: unfold mlbApi.login in Hl; async_unfold.
    all: pose proof (api_call_frame POST "/api/v1/auth/login/"
           [PStr "email" email; PStr "password" password] w0)
           as (_&_&_&Ha&_).
    all: destruct (mlbApi.api_call _ _ _ w0) as [[d|e0] w2]; simpl in *;
         [|simplify_eq; by rewrite Ha].
    all: rewrite store_session_run in Hl.
    all: repeat case_match; simplify_eq; simpl; by rewrite Ha.
Qed.
End Login.

(** *** The session and the Authorization header *)

Section Session.
Implicit Types (w : World) (email password : JsString).

(** X2.  With the secure store answering, a login request that is
    answered in time with a 2xx status and a body that has a token signs
    the user in: the request carries the two fields, the token goes to
    memory and to the secure store, and the auth store holds the user of
    the body and is authenticated. *)
Theorem login_with_token_reply email password w rp b t :
  let r := request_of POST "/api/v1/auth/login/"
             [PStr "email" email; PStr "password" password] w in
  let after := (useAuthStore.login email password w).2 in
  keychain_up (env w) = true →
  latency (backend (env w) (sent w) r) ≤ 30000 →
  reply (backend (env w) (sent w) r) = Some rp →
  200 ≤ status rp < 300 →
  data rp = Some b →
  b_token b = Some t →
  (useAuthStore.login email password w).1 = Return tt
  ∧ sent after = sent w ++ [r]
  ∧ authToken after = Some t
  ∧ secureStore after = <["auth_token" := t]> (secureStore w)
  ∧ auth after = {| user := b_user b; isAuthenticated := true;
                    isLoading := false; error := None |}.
Proof.
  intros r after Hk Hl Hr Hs Hd Ht. subst after.
  unfold useAuthStore.login. rewrite sign_in_run. cbv zeta.
  set (w0 := with_auth _ w).
  assert (mlbApi.login email password w0
          = (Return (Some t, b_user b),
             with_secureStore (<["auth_token" := t]> (secureStore w))
               (with_authToken (Some t) (with_sent (sent w ++ [r]) w0))))
    as ->.
  { unfold mlbApi.login, try_catch, bind.
    rewrite (api_call_resolves _ _ _ w0 rp); try done.
    - rewrite Hd, store_session_run, Ht. simpl. by rewrite Hk.
    - unfold mlbApi.status_ok. apply andb_true_iff.
      split; [apply Z.leb_le | apply Z.ltb_lt]; lia. }
  done.
Qed.

Lemma login_with_token_reply_witness :
  let w := initial_world (answering 120 200 (Some login_body)) in
  let after :=
    (useAuthStore.login (of_string "fan@example.com") (of_string "secret")
       w).2 in
  keychain_up (env w) = true
  ∧ authToken after = Some "t0k3n"
  ∧ secureStore after !! "auth_token" = Some "t0k3n"
  ∧ user (auth after) = Some fan
  ∧ isAuthenticated (auth after) = true.
Proof.
  intros w after. subst after.
  destruct (login_with_token_reply (of_string "fan@example.com")
              (of_string "secret") w
              {| status := 200; data := Some login_body |} login_body "t0k3n")
    as (_ & _ & Ht & Hs & Ha); try reflexivity; try (simpl; lia).
  split_and!; [reflexivity | exact Ht | by rewrite Hs | by rewrite Ha
              | by rewrite Ha].
Defined.

(** X3.  After a login that returns, the service holds a token [t], and
    every request it sends next has the Authorization header
    [Token t] when [t] is not the empty string, and no Authorization
    header when it is: the interceptor tests the token for truth. *)
Theorem requests_carry_the_token_after_login email password w :
  let after := (useAuthStore.login email password w).2 in
  (useAuthStore.login email password w).1 = Return tt →
  ∃ t, authToken after = Some t
       ∧ ∀ m url params,
           sent (mlbApi.api_call m url params after).2
           = sent after
             ++ [ {| req_method := m; req_url := url; req_params := params;
                     req_authorization :=
                       if decide (t = "") then None
                       else Some ("Token " +:+ t) |} ].
Proof.
  intros after Hret. subst after.
  pose proof (login_succeeds_or_reports email password w) as H.
  cbv zeta in H. rewrite Hret in H. destruct H as (_ & _ & _ & t & Ht & _).
  exists t. split; [done|]. intros m url params.
  rewrite api_call_sent. by rewrite Ht.
Qed.

Lemma requests_carry_the_token_after_login_witness :
  let w := initial_world (answering 120 200 (Some login_body)) in
  let after :=
    (useAuthStore.login (of_string "fan@example.com") (of_string "secret")
       w).2 in
  (useAuthStore.login (of_string "fan@example.com") (of_string "secret")
     w).1 = Return tt
  ∧ last (sent (mlbApi.getRecentGames after).2)
    = Some {| req_method := GET; req_url := "/api/v1/games/games/recent/";
              req_params := []; req_authorization := Some "Token t0k3n" |}.
Proof.
  intros w after. subst after.
  destruct (requests_carry_the_token_after_login
              (of_string "fan@example.com") (of_string "secret") w eq_refl)
    as (t & Ht & _).
  split; [reflexivity|]. vm_compute. reflexivity.
Defined.

(** A login that the backend answers with the empty string as token
    returns, and the request after it has no Authorization header. *)
Example empty_token_sends_no_header :
  let body := {| b_truthy := true; b_token := Some ""; b_user := Some fan;
                 b_results := None; b_success := true; b_response := None;
                 b_data := None; b_message := None |} in
  let w := initial_world (answering 120 200 (Some body)) in
  let after :=
    (useAuthStore.login (of_string "fan@example.com") (of_string "secret")
       w).2 in
  (useAuthStore.login (of_string "fan@example.com") (of_string "secret")
     w).1 = Return tt
  ∧ authToken after = Some ""
  ∧ (req_authorization <$> sent (mlbApi.getRecentGames after).2)
    = [None; None].
Proof. by vm_compute. Qed.

(** X4.  With the secure store answering, a reply with status 401 that
    arrives in time ends the session on the spot: the call rejects with
    the error of the response, the token is gone from memory and from
    the secure store, and the next request carries no Authorization
    header. *)
Theorem unauthorized_reply_clears_the_session m url params w rp :
  let r := request_of m url params w in
  let after := (mlbApi.api_call m url params w).2 in
  keychain_up (env w) = true →
  latency (backend (env w) (sent w) r) ≤ 30000 →
  reply (backend (env w) (sent w) r) = Some rp →
  status rp = 401 →
  (mlbApi.api_call m url params w).1
  = Throw (EAxios (BadStatus 401 (data rp)))
  ∧ authToken after = None
  ∧ secureStore after !! "auth_token" = None
  ∧ ∀ m' url' params',
      sent (mlbApi.api_call m' url' params' after).2
      = sent w ++ [r; {| req_method := m'; req_url := url';
                         req_params := params';
                         req_authorization := None |}].
Proof.
  intros r after Hk Hl Hr Hs. subst after.
  rewrite (api_call_unauthorized _ _ _ w rp); try done. simpl.
  rewrite lookup_delete_eq. split_and!; try done.
  intros m' url' params'. rewrite api_call_sent. simpl.
  by rewrite <- app_assoc.
Qed.

Lemma unauthorized_reply_clears_the_session_witness :
  let w := signed_in (answering 80 401 (Some expired_body)) in
  let after := (mlbApi.getUserDashboard w).2 in
  keychain_up (env w) = true
  ∧ authToken w = Some "t0k3n"
  ∧ (mlbApi.getUserDashboard w).1 = Throw (EError "Invalid token.")
  ∧ authToken after = None
  ∧ secureStore after !! "auth_token" = None.
Proof.
  intros w after. subst after.
  destruct (unauthorized_reply_clears_the_session GET "/api/dashboard/" [] w
              {| status := 401; data := Some expired_body |})
    as (_ & Ht & Hs & _); try reflexivity; try (simpl; lia).
  split_and!; [reflexivity | reflexivity | reflexivity | exact Ht | exact Hs].
Defined.

(** X5.  After [logout] of the auth store no request carries an
    Authorization header, whatever the backend answered to the logout. *)
Theorem no_credentials_after_logout w :
  let after := (useAuthStore.logout w).2 in
  keychain_up (env w) = true →
  ∀ m url params,
    ∃ r, last (sent (mlbApi.api_call m url params after).2) = Some r
         ∧ req_method r = m ∧ req_url r = url ∧ req_params r = params
         ∧ req_authorization r = None.
Proof.
  intros after Hk m url params.
  destruct (logout_run
              (with_auth {| user := user (auth w);
                            isAuthenticated := isAuthenticated (auth w);
                            isLoading := true; error := error (auth w) |} w)
              Hk) as (w2 & Hrun & _ & Ht & _).
  assert (authToken after = None) as Hafter.
  { subst after. unfold useAuthStore.logout. async_unfold.
    by rewrite Hrun. }
  rewrite api_call_sent, last_snoc, Hafter. by eexists.
Qed.

Lemma no_credentials_after_logout_witness :
  let w := signed_in (answering 80 500 None) in
  let after := (useAuthStore.logout w).2 in
  keychain_up (env w) = true
  ∧ (req_authorization <$> sent (mlbApi.getRecentGames after).2)
    = [Some "Token t0k3n"; None].
Proof.
  intros w after. subst after.
  destruct (no_credentials_after_logout w eq_refl GET "/" [])
    as (r & _ & _ & _ & _ & _).
  split; [reflexivity|]. vm_compute. reflexivity.
Defined.
End Session.

(** *** The errors of the service *)

Section ServiceErrors.
Implicit Types (w : World).

Lemma fetch_or_throws_Error m url params fallback :
  fallback ≠ "" → throws_only_Errors (mlbApi.fetch_or m url params fallback).
Proof.
  intros Hf w e. unfold mlbApi.fetch_or. async_unfold.
  destruct (mlbApi.api_call _ _ _ w) as [[d|e0] w1]; simpl; [done|].
  intros [= <-]. eexists. split; [done|]. by apply or_else_nonempty.
Qed.

(** A catch that logs and throws a fixed Error. *)
Lemma logged_catch_throws_Error {A} (body : Async A) tag msg :
  msg ≠ "" →
  throws_only_Errors
    (try_catch body (fun _ => console_error tag ;; throw (EError msg))).
Proof.
  intros Hm w e. async_unfold.
  destruct (body w) as [[a|e0] w1]; simpl; [done|].
  intros [= <-]. by eexists.
Qed.

(** X6.  No axios error, TypeError or SecureStore error ever leaves the
    data methods of the service, nor [login] or [register]: whatever
    fails, each of them rejects with an Error whose message is not empty.
    ([logout] is the exception: it swallows the error of the request, and
    rejects only when the secure store does.) *)
Theorem service_methods_throw_only_Errors :
  (∀ email password, throws_only_Errors (mlbApi.login email password))
  ∧ (∀ email password firstName lastName,
       throws_only_Errors
         (mlbApi.register email password firstName lastName))
  ∧ (∀ query, throws_only_Errors (mlbApi.searchPlayers query))
  ∧ (∀ query, throws_only_Errors (mlbApi.naturalLanguageSearch query))
  ∧ (∀ playerId, throws_only_Errors (mlbApi.getPlayerProfile playerId))
  ∧ (∀ playerId venueId seasons,
       throws_only_Errors
         (mlbApi.getPlayerVenuePerformance playerId venueId seasons))
  ∧ (∀ teamId, throws_only_Errors (mlbApi.getTeamProfile teamId))
  ∧ (∀ teamId, throws_only_Errors (mlbApi.getTeamGames teamId))
  ∧ (∀ division, throws_only_Errors (mlbApi.getStandings division))
  ∧ throws_only_Errors mlbApi.getRecentGames
  ∧ throws_only_Errors mlbApi.getUpcomingGames
  ∧ (∀ item, throws_only_Errors (mlbApi.addFavorite item))
  ∧ (∀ id, throws_only_Errors (mlbApi.removeFavorite id))
  ∧ (∀ teamId, throws_only_Errors (mlbApi.addFavoriteTeam teamId))
  ∧ (∀ playerId, throws_only_Errors (mlbApi.addFavoritePlayer playerId))
  ∧ throws_only_Errors mlbApi.getUserDashboard
  ∧ (mlbApi.logout
       (with_authToken (Some "t0k3n")
          (initial_world {| backend := backend offline; keychain_up := false;
                            clock := clock offline |}))).1
    = Throw ESecureStore.
Proof.
  split_and!; try reflexivity; intros;
    try (by apply fetch_or_throws_Error);
    try (by apply logged_catch_throws_Error);
    try apply login_throws_Error; try apply register_throws_Error.
  intros w e. unfold mlbApi.removeFavorite, bind.
  pose proof (fetch_or_throws_Error DELETE
                ("/api/favorites/" +:+ id +:+ "/") []
                "Failed to remove favorite" ltac:(done) w e) as H.
  destruct (mlbApi.fetch_or _ _ _ _ w) as [[d|e0] w1]; [done|].
  simpl in *. intros [= <-]. by apply H.
Qed.
End ServiceErrors.

(** *** Membership in the favorites *)

Section FavoritesMembership.
Implicit Types (w : World) (ids : list Z).

Lemma includes_true ids i : useFavoritesStore.includes ids i = true ↔ i ∈ ids.
Proof. unfold useFavoritesStore.includes. apply bool_decide_eq_true. Qed.

Lemma includes_appended ids i :
  useFavoritesStore.includes (appended ids i) i = true.
Proof.
  apply includes_true. unfold appended.
  destruct (useFavoritesStore.includes ids i) eqn:Hi.
  - by apply includes_true.
  - apply elem_of_app. right. by apply list_elem_of_singleton.
Qed.

(** X7.  [isFavoriteTeam] answers as the last call on the team left it:
    true after an [addFavoriteTeam] that returned, false after
    [removeFavoriteTeam]; and either call leaves the answer for every
    other team, and the favorite players, as they were. *)
Theorem isFavoriteTeam_follows_add_and_remove teamId w :
  let added := (useFavoritesStore.addFavoriteTeam teamId w).2 in
  let removed := (useFavoritesStore.removeFavoriteTeam teamId w).2 in
  ((useFavoritesStore.addFavoriteTeam teamId w).1 = Return tt →
   (useFavoritesStore.isFavoriteTeam teamId added).1 = Return true)
  ∧ (useFavoritesStore.isFavoriteTeam teamId removed).1 = Return false
  ∧ (∀ other, other ≠ teamId →
       (useFavoritesStore.isFavoriteTeam other added).1
       = (useFavoritesStore.isFavoriteTeam other w).1
       ∧ (useFavoritesStore.isFavoriteTeam other removed).1
         = (useFavoritesStore.isFavoriteTeam other w).1)
  ∧ favoritePlayers (favorites added) = favoritePlayers (favorites w)
  ∧ favoritePlayers (favorites removed) = favoritePlayers (favorites w).
Proof.
  intros added removed. subst added removed.
  pose proof (addFavoriteTeam_run teamId w) as Hadd. cbv zeta in Hadd.
  unfold useFavoritesStore.isFavoriteTeam, gets. simpl.
  split_and!.
  - intros Hret. destruct (mlbApi.addFavoriteTeam teamId w) as [[d|e] w1].
    + destruct Hadd as (_ & -> & _). by rewrite includes_appended.
    + destruct Hadd as [Hthrow _]. congruence.
  - f_equal. apply bool_decide_eq_false.
    intros [H _]%list_elem_of_filter. done.
  - intros other Hne. split; f_equal.
    + destruct (mlbApi.addFavoriteTeam teamId w) as [[d|e] w1].
      * destruct Hadd as (_ & -> & _). unfold appended.
        destruct (useFavoritesStore.includes _ teamId); [done|].
        apply bool_decide_ext. rewrite elem_of_app, list_elem_of_singleton.
        split; [intros [?|?]; done | by left].
      * destruct Hadd as [_ ->]. done.
    + apply bool_decide_ext. rewrite list_elem_of_filter.
      split; [by intros [_ ?] | done].
  - destruct (mlbApi.addFavoriteTeam teamId w) as [[d|e] w1].
    + by destruct Hadd as (_ & _ & ->).
    + destruct Hadd as [_ ->]. done.
  - done.
Qed.

Lemma filter_absent (i : Z) ids : i ∉ ids → filter (λ x, x ≠ i) ids = ids.
Proof.
  induction ids as [|x l IH]; [done|].
  intros [Hx Hl]%not_elem_of_cons.
  rewrite filter_cons. case_decide; [|done]. f_equal. by apply IH.
Qed.

(** X8.  Adding a team that is not yet a favorite and removing it again
    gives back the list of favorite teams as it was, in the same order. *)
Theorem add_then_remove_restores_favorites teamId w :
  let added := (useFavoritesStore.addFavoriteTeam teamId w).2 in
  teamId ∉ favoriteTeams (favorites w) →
  favoriteTeams
    (favorites (useFavoritesStore.removeFavoriteTeam teamId added).2)
  = favoriteTeams (favorites w).
Proof.
  intros added Hnot. subst added.
  pose proof (addFavoriteTeam_run teamId w) as Hadd. cbv zeta in Hadd.
  pose proof (filter_absent _ _ Hnot) as Hsame.
  simpl. destruct (mlbApi.addFavoriteTeam teamId w) as [[d|e] w1].
  - destruct Hadd as (_ & -> & _). unfold appended.
    destruct (useFavoritesStore.includes _ _) eqn:Hin.
    { by apply includes_true in Hin. }
    rewrite filter_app, Hsame, filter_cons. case_decide; [done|].
    by rewrite filter_nil, app_nil_r.
  - destruct Hadd as [_ ->]. exact Hsame.
Qed.

Lemma add_then_remove_restores_favorites_witness :
  let w := with_favorites {| favoriteTeams := [147; 119];
                             favoritePlayers := [592450] |}
             (initial_world (answering 90 201 None)) in
  (111 ∉ favoriteTeams (favorites w))
  ∧ favoriteTeams (favorites (useFavoritesStore.addFavoriteTeam 111 w).2)
    = [147; 119; 111]
  ∧ favoriteTeams
      (favorites
         (useFavoritesStore.removeFavoriteTeam 111
            (useFavoritesStore.addFavoriteTeam 111 w).2).2)
    = [147; 119].
Proof.
  intros w.
  assert (111 ∉ favoriteTeams (favorites w)) as Hnot.
  { simpl. rewrite !not_elem_of_cons. split_and!; try done.
    apply not_elem_of_nil. }
  split_and!; [exact Hnot | reflexivity |].
  exact (add_then_remove_restores_favorites 111 w Hnot).
Defined.
End FavoritesMembership.

(** *** The search history over several searches *)

Section MoreHistory.
Context {A : Type}.
Implicit Types (w : World) (searches : list (JsString * list A)).

Lemma take_app_take {B} (l o : list B) (n : nat) :
  (1 ≤ length l)%nat →
  take (S n) (l ++ take n o) = take (S n) (l ++ o).
Proof.
  intros Hl. rewrite !take_app. f_equal.
  rewrite take_take. f_equal. lia.
Qed.

Lemma add_searches_cons q r searches w :
  add_searches ((q, r) :: searches) w
  = add_searches searches (useSearchStore.addSearch q r w).2.
Proof. simpl. unfold bind. by rewrite addSearch_run. Qed.

Lemma addSearch_queries q (r : list A) w :
  se_query <$> recentSearches (search (useSearchStore.addSearch q r w).2)
  = q :: take 19 (se_query <$> recentSearches (search w)).
Proof.
  rewrite addSearch_run.
  etrans; [|by rewrite <- fmap_take, <- (fmap_cons se_query
    {| se_id := pretty (clock (env w) (ticks w)); se_query := q;
       se_timestamp := clock (env w) (S (ticks w));
       se_results := length r |})].
  reflexivity.
Qed.

Lemma add_searches_queries searches w :
  (length (recentSearches (search w)) ≤ 20)%nat →
  se_query <$> recentSearches (search (add_searches searches w).2)
  = take 20 (reverse (searches.*1)
             ++ (se_query <$> recentSearches (search w))).
Proof.
  revert w. induction searches as [|[q r] rest IH]; intros w Hlen.
  - simpl. rewrite take_ge; [done|]. by rewrite length_fmap.
  - rewrite add_searches_cons, IH.
    + rewrite addSearch_queries, fmap_cons, reverse_cons. cbn [fst].
      etrans; [|apply (take_app_take (reverse rest.*1 ++ [q]));
                 rewrite length_app; simpl; lia].
      by rewrite <- (assoc_L (++)).
    + rewrite addSearch_run. cbn. rewrite length_take. lia.
Qed.

(** X9.  A run of [addSearch] calls on a history of at most 20 entries
    always returns and leaves the queries newest first: the new ones in
    reverse order of the calls, then the old ones, cut after 20.  The
    history never exceeds 20 entries, and each call reads the clock
    twice. *)
Theorem add_searches_keep_the_latest_twenty searches w :
  (length (recentSearches (search w)) ≤ 20)%nat →
  (add_searches searches w).1 = Return tt
  ∧ se_query <$> recentSearches (search (add_searches searches w).2)
    = take 20 (reverse (searches.*1)
               ++ (se_query <$> recentSearches (search w)))
  ∧ (length (recentSearches (search (add_searches searches w).2)) ≤ 20)%nat
  ∧ ticks (add_searches searches w).2 = (ticks w + 2 * length searches)%nat.
Proof.
  intros Hlen. split_and!.
  - clear Hlen. revert w. induction searches as [|[q r] rest IH]; intros w; [done|].
    by rewrite add_searches_cons.
  - by apply add_searches_queries.
  - rewrite <- (length_fmap se_query), add_searches_queries by done.
    rewrite length_take. lia.
  - clear Hlen. revert w. induction searches as [|[q r] rest IH]; intros w.
    + simpl. lia.
    + rewrite add_searches_cons, IH, addSearch_run. simpl. lia.
Qed.
End MoreHistory.

Lemma add_searches_keep_the_latest_twenty_witness :
  let w := initial_world offline in
  let searches := [(of_string "Judge", [judge]);
                   (of_string "Ohtani", []);
                   (of_string "Judge at Fenway", [judge])] in
  (length (recentSearches (search w)) ≤ 20)%nat
  ∧ se_query <$> recentSearches (search (add_searches searches w).2)
    = [of_string "Judge at Fenway"; of_string "Ohtani"; of_string "Judge"]
  ∧ se_results <$> recentSearches (search (add_searches searches w).2)
    = [1; 0; 1]%nat.
Proof.
  intros w searches.
  assert (length (recentSearches (search w)) ≤ 20)%nat as Hlen
    by (simpl; lia).
  split_and!; [exact Hlen | | reflexivity].
  exact (proj1 (proj2 (add_searches_keep_the_latest_twenty searches w Hlen))).
Defined.

(** *** The search screen and the search store *)

Section ScreenHistory.
Implicit Types (w : World) (query : JsString).

Lemma api_call_with_screen m url params s w :
  mlbApi.api_call m url params (with_screen s w)
  = ((mlbApi.api_call m url params w).1,
     with_screen s (mlbApi.api_call m url params w).2).
Proof.
  unfold mlbApi.api_call, mlbApi.adapter, mlbApi.handleAuthError,
    SecureStore.deleteItemAsync.
  async_unfold. simpl.
  destruct (mlbApi.axios_timeout <? _); [done|].
  destruct (reply _) as [rp|]; [|done].
  destruct (mlbApi.status_ok _); [done|]. simpl.
  destruct (bool_decide _); [|done]. simpl.
  by destruct (keychain_up _).
Qed.

Lemma naturalLanguageSearch_with_screen query s w :
  (mlbApi.naturalLanguageSearch query (with_screen s w)).1
  = (mlbApi.naturalLanguageSearch query w).1.
Proof.
  unfold mlbApi.naturalLanguageSearch, try_catch, throw.
  rewrite api_call_with_screen.
  by destruct (mlbApi.api_call _ _ _ w) as [[d|e] w1].
Qed.

Lemma searchPlayers_keeps_search query w :
  search (mlbApi.searchPlayers query w).2 = search w.
Proof.
  pose proof (searchPlayers_run query w) as H.
  pose proof (api_call_frame GET "/api/players/search/"
                [PStr "q" query; PNum "limit" 20] w) as (_&_&_&_&F&_).
  destruct (mlbApi.api_call _ _ _ w) as [[[b|]|e] w1]; by rewrite H.
Qed.

(** X10.  What [handleSearch] does to the search store: when the query
    is not blank and the natural-language search returns a truthy body,
    the store is exactly what [addSearch] makes of it, whether or not
    the player search that follows succeeds; in every other case (a blank
    query, a failed search, a null body, no body) the store is
    untouched. *)
Theorem handleSearch_records_answered_queries query w :
  search (SearchScreen.handleSearch query w).2
  = match trim query, (mlbApi.naturalLanguageSearch query w).1 with
    | _ :: _, Return (Some b) =>
        if b_truthy b
        then search (useSearchStore.addSearch query
                       (default [] (b_results b)) w).2
        else search w
    | _, _ => search w
    end.
Proof.
  unfold SearchScreen.handleSearch.
  destruct (trim query) as [|c cs] eqn:Ht; simpl; [done|].
  unfold bind at 1. unfold SearchScreen.setLoading at 1. unfold modify at 1.
  set (w0 := with_screen _ w).
  rewrite <- (naturalLanguageSearch_with_screen query
                {| scr_loading := true; scr_results := scr_results (screen w);
                   scr_nlResponse := scr_nlResponse (screen w) |} w).
  fold w0.
  pose proof (naturalLanguageSearch_frame query w0) as (He&Ht'&_&_&Hnl&_).
  unfold try_finally, try_catch. unfold bind at 1.
  destruct (mlbApi.naturalLanguageSearch query w0) as [[[b|]|e] w1];
    simpl in He, Ht', Hnl |- *.
  - unfold bind at 1. destruct (b_truthy b); unfold when.
    + unfold bind at 1.
      unfold SearchScreen.setNlResponse at 1. unfold modify at 1.
      rewrite !addSearch_run.
      set (w2 := with_search _ _).
      pose proof (searchPlayers_keeps_search query w2) as Hsp.
      unfold bind at 1.
      destruct (mlbApi.searchPlayers query w2) as [[[[|p ps]|]|e] w3];
        simpl in Hsp |- *; by rewrite Hsp, He, Ht', Hnl.
    + unfold ret at 1.
      pose proof (searchPlayers_keeps_search query w1) as Hsp.
      unfold bind at 1.
      destruct (mlbApi.searchPlayers query w1) as [[[[|p ps]|]|e] w3];
        simpl in Hsp |- *; by rewrite Hsp, Hnl.
  - unfold bind at 1. unfold ret at 1.
    pose proof (searchPlayers_keeps_search query w1) as Hsp.
    unfold bind at 1.
    destruct (mlbApi.searchPlayers query w1) as [[[[|p ps]|]|e] w3];
      simpl in Hsp |- *; by rewrite Hsp, Hnl.
  - by rewrite Hnl.
Qed.
End ScreenHistory.

(** *** Loading flags *)

Section LoadingFlags.
Implicit Types (w : World) (query email password : JsString).

Lemma sign_in_isLoading call w :
  isLoading (auth (useAuthStore.sign_in call w).2) = false.
Proof.
  unfold useAuthStore.sign_in. unfold bind at 1. unfold modify at 1.
  unfold try_catch, bind.
  by destruct (call _) as [[r|e] w1].
Qed.

(** X11.  No operation leaves its loading flag set, whatever the backend
    does: after [handleSearch] and the hook's [search] on a query with
    text, and after [login], [register] and [logout] of the auth store,
    the flag is false.  A blank query leaves the flag as it was. *)
Theorem loading_flags_are_cleared query email password firstName lastName w :
  scr_loading (screen (SearchScreen.handleSearch query w).2)
  = (if truthy (trim query) then false else scr_loading (screen w))
  ∧ hk_loading (hook (useNaturalLanguageSearch.search query w).2)
    = (if truthy (trim query) then false else hk_loading (hook w))
  ∧ isLoading (auth (useAuthStore.login email password w).2) = false
  ∧ isLoading
      (auth (useAuthStore.register email password firstName lastName w).2)
    = false
  ∧ isLoading (auth (useAuthStore.logout w).2) = false.
Proof.
  split_and!.
  - unfold SearchScreen.handleSearch.
    destruct (truthy (trim query)); [|done]. simpl.
    unfold bind at 1. unfold SearchScreen.setLoading at 1. unfold modify at 1.
    unfold try_finally.
    by destruct (try_catch _ _ _) as [c w1].
  - unfold useNaturalLanguageSearch.search.
    destruct (truthy (trim query)); [|done]. simpl.
    unfold bind at 1. unfold useNaturalLanguageSearch.setLoading at 1.
    unfold modify at 1. unfold try_finally.
    by destruct (try_catch _ _ _) as [c w1].
  - apply sign_in_isLoading.
  - apply sign_in_isLoading.
  - unfold useAuthStore.logout. unfold bind at 1. unfold modify at 1.
    unfold try_finally.
    by destruct (try_catch _ _ _) as [c w1].
Qed.
End LoadingFlags.

(** *** The favorite button of the detail screens *)

Section ToggleFavorite.
Implicit Types (w : World) (team player : option Body).

Lemma addFavoriteTeam_sent teamId w :
  sent (useFavoritesStore.addFavoriteTeam teamId w).2
  = sent w ++ [request_of POST "/api/favorites/teams/"
                 [PNum "teamId" teamId] w].
Proof.
  unfold useFavoritesStore.addFavoriteTeam, mlbApi.addFavoriteTeam,
    useFavoritesStore.set_favoriteTeams.
  pose proof (api_call_sent POST "/api/favorites/teams/"
                [PNum "teamId" teamId] w) as Hs.
  async_unfold.
  destruct (mlbApi.api_call _ _ _ w) as [[d|e] w1]; simpl in *;
    [destruct (useFavoritesStore.includes _ _)|]; done.
Qed.

Lemma addFavoritePlayer_sent playerId w :
  sent (useFavoritesStore.addFavoritePlayer playerId w).2
  = sent w ++ [request_of POST "/api/favorites/players/"
                 [PNum "playerId" playerId] w].
Proof.
  unfold useFavoritesStore.addFavoritePlayer, mlbApi.addFavoritePlayer,
    useFavoritesStore.set_favoritePlayers.
  pose proof (api_call_sent POST "/api/favorites/players/"
                [PNum "playerId" playerId] w) as Hs.
  async_unfold.
  destruct (mlbApi.api_call _ _ _ w) as [[d|e] w1]; simpl in *;
    [destruct (useFavoritesStore.includes _ _)|]; done.
Qed.

(** X12.  The favorite button of the team and player screens.  With no
    profile loaded it does nothing.  On a favorite it removes the id from
    the list and sends no request: the backend is never told.  Otherwise
    it sends one POST, and the id is appended exactly when that call
    returns. *)
Theorem toggleFavorite_reports_only_additions team player id w :
  let t := TeamDetailsScreen.toggleFavorite team id w in
  let p := PlayerProfileScreen.toggleFavorite player id w in
  match team, useFavoritesStore.includes (favoriteTeams (favorites w)) id with
  | None, _ => t = (Return tt, w)
  | Some _, true =>
      t.1 = Return tt
      ∧ sent t.2 = sent w
      ∧ favoriteTeams (favorites t.2)
        = filter (λ i, i ≠ id) (favoriteTeams (favorites w))
  | Some _, false =>
      sent t.2 = sent w ++ [request_of POST "/api/favorites/teams/"
                              [PNum "teamId" id] w]
      ∧ favoriteTeams (favorites t.2)
        = match t.1 with
          | Return _ => favoriteTeams (favorites w) ++ [id]
          | Throw _ => favoriteTeams (favorites w)
          end
  end
  ∧ match player,
          useFavoritesStore.includes (favoritePlayers (favorites w)) id with
    | None, _ => p = (Return tt, w)
    | Some _, true =>
        p.1 = Return tt
        ∧ sent p.2 = sent w
        ∧ favoritePlayers (favorites p.2)
          = filter (λ i, i ≠ id) (favoritePlayers (favorites w))
    | Some _, false =>
        sent p.2 = sent w ++ [request_of POST "/api/favorites/players/"
                                [PNum "playerId" id] w]
        ∧ favoritePlayers (favorites p.2)
          = match p.1 with
            | Return _ => favoritePlayers (favorites w) ++ [id]
            | Throw _ => favoritePlayers (favorites w)
            end
    end.
Proof.
  intros t p. subst t p. split.
  - destruct team as [b|]; [|done].
    unfold TeamDetailsScreen.toggleFavorite,
      useFavoritesStore.isFavoriteTeam. unfold bind, gets.
    destruct (useFavoritesStore.includes _ _) eqn:Hin; [done|].
    split; [apply addFavoriteTeam_sent|].
    pose proof (addFavoriteTeam_run id w) as H. cbv zeta in H.
    destruct (mlbApi.addFavoriteTeam id w) as [[d|e] w1].
    + destruct H as (-> & -> & _). unfold appended. by rewrite Hin.
    + destruct H as (-> & ->). done.
  - destruct player as [b|]; [|done].
    unfold PlayerProfileScreen.toggleFavorite,
      useFavoritesStore.isFavoritePlayer. unfold bind, gets.
    destruct (useFavoritesStore.includes _ _) eqn:Hin; [done|].
    split; [apply addFavoritePlayer_sent|].
    pose proof (addFavoritePlayer_run id w) as H. cbv zeta in H.
    destruct (mlbApi.addFavoritePlayer id w) as [[d|e] w1].
    + destruct H as (-> & -> & _). unfold appended. by rewrite Hin.
    + destruct H as (-> & ->). done.
Qed.
End ToggleFavorite.

(** *** The dashboard *)

Section Dashboard.
Import HomeScreen.
Implicit Types (s : DashboardState) (h : HomeState)
  (ws : list DashboardWidget) (id : string).

(** X13.  [toggleWidget] with the same id twice gives back the store
    as it was. *)
Theorem toggleWidget_twice_restores_the_dashboard id s :
  useDashboardStore.toggleWidget id (useDashboardStore.toggleWidget id s) = s.
Proof.
  destruct s as [ws l u]. unfold useDashboardStore.toggleWidget,
    useDashboardStore.set_widgets. simpl. f_equal.
  induction ws as [|[i t ti c p v sz d] ws IH]; [done|].
  rewrite !fmap_cons, IH. f_equal.
  simpl. destruct (decide (i = id)) as [E|E]; simpl.
  - rewrite decide_True by done. by rewrite negb_involutive.
  - by rewrite decide_False.
Qed.

(** X14.  [updateWidget] overwrites and touches nothing else: of two
    updates of one id the data of the second stays, an update of an id
    that no widget has changes nothing, and an update and a toggle give
    the same store in either order. *)
Theorem updateWidget_overwrites_and_commutes_with_toggleWidget
    id id' data data' s :
  useDashboardStore.updateWidget id data'
    (useDashboardStore.updateWidget id data s)
  = useDashboardStore.updateWidget id data' s
  ∧ (id ∉ widget_id <$> widgets s →
     useDashboardStore.updateWidget id data s = s)
  ∧ useDashboardStore.toggleWidget id'
      (useDashboardStore.updateWidget id data s)
    = useDashboardStore.updateWidget id data
        (useDashboardStore.toggleWidget id' s).
Proof.
  destruct s as [ws l u]. unfold useDashboardStore.updateWidget,
    useDashboardStore.toggleWidget, useDashboardStore.set_widgets. simpl.
  split_and!.
  - f_equal. rewrite <- list_fmap_compose. apply list_fmap_ext.
    intros i w _. simpl. destruct (decide (widget_id w = id)); simpl.
    + by rewrite decide_True.
    + by rewrite decide_False.
  - intros Hid. f_equal. rewrite <- (list_fmap_id ws) at 2.
    apply list_fmap_ext. intros i w Hw. simpl.
    rewrite decide_False; [done|]. intros <-. apply Hid.
    apply list_elem_of_fmap_2. by eapply list_elem_of_lookup_2.
  - f_equal. rewrite <- !list_fmap_compose. apply list_fmap_ext.
    intros i w _. simpl.
    destruct (decide (widget_id w = id)); simpl;
      destruct (decide (widget_id w = id')); simpl;
      rewrite ?decide_True, ?decide_False by done; done.
Qed.

Lemma find_offered widgetType :
  offered widgetType →
  ∃ cfg, List.find (λ w, bool_decide (opt_type w = widgetType))
           availableWidgets = Some cfg.
Proof.
  unfold offered. simpl. rewrite !elem_of_cons, elem_of_nil.
  intros [->|[->|[->|[->|[]]]]]; by eexists.
Qed.

Lemma handleAddWidget_offered now widgetType h :
  offered widgetType →
  ∃ w, widgets (dashboard (handleAddWidget now widgetType h))
       = widgets (dashboard h) ++ [w]
     ∧ widget_id w = pretty now
     ∧ widget_type w = widgetType
     ∧ widget_position w = length (widgets (dashboard h))
     ∧ widget_isVisible w = true.
Proof.
  intros [cfg Hcfg]%find_offered. unfold handleAddWidget. rewrite Hcfg.
  by eexists.
Qed.

Lemma filter_id_absent id ws :
  id ∉ widget_id <$> ws → filter (λ w, widget_id w ≠ id) ws = ws.
Proof.
  induction ws as [|x ws IH]; [done|].
  rewrite fmap_cons. intros [Hx Hl]%not_elem_of_cons.
  rewrite filter_cons. rewrite decide_True by done. f_equal. by apply IH.
Qed.

Lemma insert_by_position_perm w ws :
  insert_by_position w ws ≡ₚ w :: ws.
Proof.
  induction ws as [|x ws IH]; simpl; [done|].
  case_match; [|done]. rewrite IH. apply Permutation_swap.
Qed.

Lemma sort_by_position_perm ws : sort_by_position ws ≡ₚ ws.
Proof.
  induction ws as [|x ws IH]; simpl; [done|].
  by rewrite insert_by_position_perm, IH.
Qed.

(** A list that is ascending already is left as it is, equal positions
    included. *)
Lemma sort_by_position_ascending ws :
  (∀ i j x y, ws !! i = Some x → ws !! j = Some y → (i < j)%nat →
              (widget_position x <= widget_position y)%nat) →
  sort_by_position ws = ws.
Proof.
  induction ws as [|x ws IH]; intros Hasc; simpl; [done|].
  rewrite IH.
  - destruct ws as [|y ws]; simpl; [done|].
    pose proof (Hasc 0%nat 1%nat x y eq_refl eq_refl) as Hxy.
    destruct (Nat.ltb_spec (widget_position y) (widget_position x)); [lia|].
    done.
  - intros i j a b Hi Hj Hlt. apply (Hasc (S i) (S j)); [done | done | lia].
Qed.

Lemma render_in_order h :
  positions_in_order (widgets (dashboard h)) → render h = h.
Proof.
  intros Hpos. destruct h as [[ws l u] m]. unfold render,
    useDashboardStore.set_widgets. simpl in *.
  rewrite sort_by_position_ascending; [done|].
  intros i j x y Hi Hj Hlt.
  rewrite (Hpos _ _ Hi), (Hpos _ _ Hj). lia.
Qed.

Lemma handleAddWidget_rendered now widgetType h :
  offered widgetType →
  ∃ w, widgets (dashboard (dashboard_call (AddWidget now widgetType) h))
       ≡ₚ widgets (dashboard h) ++ [w]
     ∧ widget_id w = pretty now.
Proof.
  intros Ho.
  destruct (handleAddWidget_offered now widgetType h Ho) as (w & E & I & _).
  exists w. split; [|done].
  unfold dashboard_call, render. cbn [dashboard_press dashboard widgets
    useDashboardStore.set_widgets].
  by rewrite sort_by_position_perm, E.
Qed.

(** X15.  A widget's id is the clock reading at the press.  On a
    dashboard that has neither reading as an id yet, two widgets added
    at readings [t1] and [t2], each followed by its render, are on the
    dashboard with the widgets that were there; removing the second by
    its id leaves the first when the readings differ, and removes both
    when they are equal.  The lists are compared up to their order,
    which the renders decide by position. *)
Theorem widgets_added_in_one_millisecond_share_an_id t1 t2 ty1 ty2 h :
  offered ty1 → offered ty2 →
  pretty t1 ∉ widget_ids h →
  pretty t2 ∉ widget_ids h →
  let h2 := dashboard_call (AddWidget t2 ty2)
              (dashboard_call (AddWidget t1 ty1) h) in
  ∃ w1 w2,
    widgets (dashboard h2) ≡ₚ widgets (dashboard h) ++ [w1; w2]
    ∧ widget_id w1 = pretty t1
    ∧ widget_id w2 = pretty t2
    ∧ widgets (dashboard (remove_call (widget_id w2) h2))
      ≡ₚ if decide (t1 = t2) then widgets (dashboard h)
         else widgets (dashboard h) ++ [w1].
Proof.
  intros Ho1 Ho2 H1 H2 h2. subst h2.
  destruct (handleAddWidget_rendered t1 ty1 h Ho1) as (w1 & E1 & I1).
  destruct (handleAddWidget_rendered t2 ty2
              (dashboard_call (AddWidget t1 ty1) h) Ho2) as (w2 & E2 & I2).
  exists w1, w2.
  assert (widgets (dashboard (dashboard_call (AddWidget t2 ty2)
                                (dashboard_call (AddWidget t1 ty1) h)))
          ≡ₚ widgets (dashboard h) ++ [w1; w2]) as E.
  { by rewrite E2, E1, <- (assoc_L (++)). }
  split_and!; [done..|].
  unfold remove_call, render, useDashboardStore.removeWidget.
  cbn [dashboard widgets useDashboardStore.set_widgets].
  rewrite sort_by_position_perm, E, I2.
  rewrite !filter_app, filter_id_absent by done.
  rewrite !filter_cons, filter_nil, I1, I2.
  rewrite (decide_False (P := pretty t2 ≠ pretty t2)) by (intros H; by apply H).
  destruct (decide (t1 = t2)) as [->|Ht].
  - rewrite decide_False by (intros H; by apply H).
    by rewrite app_nil_r.
  - rewrite decide_True; [done|].
    intros ?%(inj pretty). done.
Qed.

Lemma positions_in_order_snoc ws w :
  positions_in_order ws → widget_position w = length ws →
  positions_in_order (ws ++ [w]).
Proof.
  intros Hws Hw i x Hi.
  destruct (decide (i < length ws)%nat) as [Hlt|Hge].
  - rewrite lookup_app_l in Hi by done. by apply Hws.
  - rewrite lookup_app_r in Hi by lia.
    apply list_lookup_singleton_Some in Hi as [Hi <-]. lia.
Qed.

Lemma positions_in_order_fmap (f : DashboardWidget → DashboardWidget) ws :
  (∀ w, widget_position (f w) = widget_position w) →
  positions_in_order ws → positions_in_order (f <$> ws).
Proof.
  intros Hf Hws i x Hi. rewrite list_lookup_fmap in Hi.
  destruct (ws !! i) as [w|] eqn:Hw; simplify_eq/=.
  rewrite Hf. by apply Hws.
Qed.

Lemma dashboard_press_positions c h :
  positions_in_order (widgets (dashboard h)) →
  positions_in_order (widgets (dashboard (dashboard_press c h))).
Proof.
  intros Hh. destruct c as [now ty|id|id data|now];
    cbn [dashboard_press dashboard].
  - unfold handleAddWidget.
    destruct (find _ availableWidgets) as [cfg|]; cbn [dashboard]; [|done].
    by apply positions_in_order_snoc.
  - apply positions_in_order_fmap; [|done]. intros w. by case_decide.
  - apply positions_in_order_fmap; [|done]. intros w. by case_decide.
  - intros [|i] w Hi; simplify_eq/=; done.
Qed.

Lemma dashboard_call_positions c h :
  positions_in_order (widgets (dashboard h)) →
  positions_in_order (widgets (dashboard (dashboard_call c h))).
Proof.
  intros Hh. pose proof (dashboard_press_positions c h Hh) as Hp.
  unfold dashboard_call. by rewrite render_in_order.
Qed.

(** X16.  As long as nothing is removed, every widget's [position] is
    its index in the list: adding, toggling, updating and reloading all
    keep that. *)
Theorem positions_follow_the_order_until_a_removal calls h :
  positions_in_order (widgets (dashboard h)) →
  positions_in_order (widgets (dashboard (after_dashboard_calls calls h))).
Proof.
  revert h. induction calls as [|c calls IH]; intros h Hh; [done|].
  apply IH. by apply dashboard_call_positions.
Qed.

Lemma filter_id_delete ws i w :
  NoDup (widget_id <$> ws) → ws !! i = Some w →
  filter (λ x, widget_id x ≠ widget_id w) ws = delete i ws.
Proof.
  revert i. induction ws as [|x ws IH]; intros i Hnd Hi; [done|].
  rewrite fmap_cons in Hnd. apply NoDup_cons in Hnd as [Hx Hnd].
  rewrite filter_cons. destruct i as [|i]; simplify_eq/=.
  - rewrite decide_False by (intros H; by apply H).
    by apply filter_id_absent.
  - rewrite decide_True.
    + f_equal. by apply IH.
    + intros Heq. apply Hx. rewrite Heq.
      apply list_elem_of_fmap_2. by eapply list_elem_of_lookup_2.
Qed.

(** X17.  [removeWidget] does not renumber.  On a dashboard whose
    positions follow the order and whose ids are distinct, a widget
    other than the last is removed and a widget is added, each followed
    by its render.  Then the new widget stands last, behind the widget
    that was last before, and has that widget's position: positions no
    longer follow the order. *)
Theorem widget_added_after_a_removal_repeats_a_position i w lw now ty h :
  let ws := widgets (dashboard h) in
  positions_in_order ws →
  NoDup (widget_id <$> ws) →
  ws !! i = Some w →
  (S i < length ws)%nat →
  last ws = Some lw →
  offered ty →
  let after :=
    widgets (dashboard (dashboard_call (AddWidget now ty)
                          (remove_call (widget_id w) h))) in
  ∃ nw,
    after = delete i ws ++ [nw]
    ∧ last (delete i ws) = Some lw
    ∧ widget_id nw = pretty now
    ∧ widget_position nw = widget_position lw
    ∧ ¬ positions_in_order after.
Proof.
  intros ws Hpos Hnd Hi Hlt Hlast Hty after.
  assert (length (delete i ws) = (length ws - 1)%nat) as Hlen
    by (by apply length_delete).
  assert (ws !! (length ws - 1)%nat = Some lw) as Hlw.
  { rewrite <- Hlast, last_lookup. f_equal. lia. }
  assert (delete i ws !! (length ws - 2)%nat = Some lw) as Hlw'.
  { rewrite list_lookup_delete_ge by lia. rewrite <- Hlw. f_equal. lia. }
  assert (∀ j k x y, delete i ws !! j = Some x → delete i ws !! k = Some y →
                     (j < k)%nat →
                     (widget_position x < widget_position y)%nat) as Hasc.
  { intros j k x y Hj Hk Hjk.
    destruct (decide (j < i)%nat);
      [rewrite list_lookup_delete_lt in Hj by lia
      |rewrite list_lookup_delete_ge in Hj by lia];
      (destruct (decide (k < i)%nat);
       [rewrite list_lookup_delete_lt in Hk by lia
       |rewrite list_lookup_delete_ge in Hk by lia]);
      rewrite (Hpos _ _ Hj), (Hpos _ _ Hk); lia. }
  assert (widgets (dashboard (remove_call (widget_id w) h)) = delete i ws)
    as Hrem.
  { unfold remove_call, render, useDashboardStore.removeWidget.
    cbn [dashboard widgets useDashboardStore.set_widgets]. fold ws.
    rewrite (filter_id_delete ws i w Hnd Hi).
    apply sort_by_position_ascending.
    intros j k x y Hj Hk Hjk. apply Nat.lt_le_incl. by eapply Hasc. }
  destruct (handleAddWidget_offered now ty (remove_call (widget_id w) h) Hty)
    as (nw & E & Hid & _ & Hp & _).
  rewrite Hrem in E, Hp. rewrite Hlen in Hp.
  assert (widget_position lw = (length ws - 1)%nat) as Hplw
    by (by apply Hpos).
  assert (after = delete i ws ++ [nw]) as Hafter.
  { subst after. unfold dashboard_call, render.
    cbn [dashboard_press dashboard widgets useDashboardStore.set_widgets].
    rewrite E. apply sort_by_position_ascending.
    intros j k x y Hj Hk Hjk.
    destruct (decide (k < length (delete i ws))%nat) as [Hk'|Hk'].
    - rewrite lookup_app_l in Hj, Hk by lia.
      apply Nat.lt_le_incl. by eapply Hasc.
    - rewrite lookup_app_r in Hk by lia.
      apply list_lookup_singleton_Some in Hk as [Hk0 <-].
      rewrite lookup_app_l in Hj by lia.
      assert (j < length ws - 1)%nat by lia.
      destruct (decide (j < i)%nat);
        [rewrite list_lookup_delete_lt in Hj by lia
        |rewrite list_lookup_delete_ge in Hj by lia];
        rewrite (Hpos _ _ Hj); lia. }
  exists nw. split_and!; [done | | done | lia |].
  - rewrite last_lookup, Hlen, <- Hlw'. f_equal. lia.
  - rewrite Hafter. intros Hbad.
    assert ((delete i ws ++ [nw]) !! (length ws - 2)%nat = Some lw) as Ha
      by (rewrite lookup_app_l by lia; done).
    pose proof (Hbad _ _ Ha). lia.
Qed.
End Dashboard.

Lemma widgets_added_in_one_millisecond_share_an_id_witness :
  let h2 := dashboard_call (AddWidget 1700000000000 "team_stats")
              (dashboard_call (AddWidget 1700000000000 "standings")
                 initial_home) in
  (widget_id <$> widgets (HomeScreen.dashboard h2))
  = ["1700000000000"; "1700000000000"]
  ∧ ∃ w1 w2,
      widgets (HomeScreen.dashboard h2) ≡ₚ [w1; w2]
      ∧ widget_id w1 = "1700000000000"
      ∧ widget_id w2 = "1700000000000"
      ∧ widgets (HomeScreen.dashboard (remove_call (widget_id w2) h2))
        ≡ₚ [].
Proof.
  intros h2. split; [reflexivity|].
  assert (offered "standings") as O1
    by (unfold offered; apply (bool_decide_unpack _); exact I).
  assert (offered "team_stats") as O2
    by (unfold offered; apply (bool_decide_unpack _); exact I).
  exact (widgets_added_in_one_millisecond_share_an_id
           1700000000000 1700000000000 "standings" "team_stats" initial_home
           O1 O2 (not_elem_of_nil _) (not_elem_of_nil _)).
Defined.

Lemma positions_follow_the_order_until_a_removal_witness :
  let calls := [LoadDashboard 1700000000000;
                AddWidget 1700000000500 "team_stats";
                ToggleWidget "1";
                UpdateWidget "1700000000500" "{}";
                AddWidget 1700000000900 "recent_games"] in
  let ws := widgets (HomeScreen.dashboard
                       (after_dashboard_calls calls initial_home)) in
  positions_in_order (widgets (HomeScreen.dashboard initial_home))
  ∧ widget_position <$> ws = [0; 1; 2]%nat
  ∧ positions_in_order ws.
Proof.
  intros calls ws.
  assert (positions_in_order (widgets (HomeScreen.dashboard initial_home)))
    as H0 by (intros i w Hi; discriminate Hi).
  split_and!; [exact H0 | reflexivity |].
  exact (positions_follow_the_order_until_a_removal calls initial_home H0).
Defined.

Lemma widget_added_after_a_removal_repeats_a_position_witness :
  let h := after_dashboard_calls
             [LoadDashboard 1700000000000;
              AddWidget 1700000000500 "team_stats";
              AddWidget 1700000000900 "recent_games"] initial_home in
  let after :=
    widgets (HomeScreen.dashboard
               (dashboard_call (AddWidget 1700000002000 "standings")
                  (remove_call "1" h))) in
  widget_position <$> after = [1; 2; 2]%nat
  ∧ widget_id <$> after
    = ["1700000000500"; "1700000000900"; "1700000002000"]
  ∧ ∃ nw,
      after = delete 0%nat (widgets (HomeScreen.dashboard h)) ++ [nw]
      ∧ widget_position nw = 2%nat
      ∧ ¬ positions_in_order after.
Proof.
  intros h after. split_and!; [reflexivity | reflexivity |].
  assert (positions_in_order (widgets (HomeScreen.dashboard h))) as Hpos.
  { intros [|[|[|i]]] w Hi; vm_compute in Hi;
      [injection Hi as <-; reflexivity..|discriminate Hi]. }
  assert (NoDup (widget_id <$> widgets (HomeScreen.dashboard h))) as Hnd
    by (apply (bool_decide_unpack _); exact I).
  assert (offered "standings") as Ho
    by (unfold offered; apply (bool_decide_unpack _); exact I).
  assert (1 < length (widgets (HomeScreen.dashboard h)))%nat as Hlt
    by (simpl; lia).
  destruct (widget_added_after_a_removal_repeats_a_position 0 _ _
              1700000002000 "standings" h Hpos Hnd eq_refl Hlt eq_refl Ho)
    as (nw & Hafter & _ & _ & Hp & Hbad).
  exists nw. split_and!; [exact Hafter | exact Hp | exact Hbad].
Defined.

(** *** Regular expressions: the matcher and the strings of a pattern *)

Section RegExpFacts.
Import RegExp.
Implicit Types (r : Re) (s a b : JsString) (c : N).

Lemma nullable_spec r : nullable r = true ↔ Matches r [].
Proof.
  split.
  - induction r as [| |p|r IHr s IHs|r IHr s IHs|r IHr]; simpl; try done.
    + intros _. constructor.
    + intros [Hr Hs]%andb_true_iff. apply (MSeq r s [] []); auto.
    + intros [Hr|Hs]%orb_true_iff; [apply MAltL | apply MAltR]; auto.
    + intros _. constructor.
  - intros H. remember [] as l eqn:Hl. induction H; simpl; try done.
    + apply app_eq_nil in Hl as [-> ->]. rewrite IHMatches1, IHMatches2; done.
    + rewrite IHMatches; done.
    + rewrite IHMatches, orb_true_r; done.
Qed.

Lemma Matches_star_cons_gen r0 l :
  Matches r0 l → ∀ r c s, r0 = Star r → l = c :: s →
  ∃ a b, s = a ++ b ∧ Matches r (c :: a) ∧ Matches (Star r) b.
Proof.
  induction 1 as [| | | | | |r' a b Ha _ Hb IH]; intros r1 c1 s1 Hsr Hl;
    simplify_eq.
  destruct a as [|c' a]; simpl in Hl.
  - by apply IH.
  - simplify_eq. by exists a, b.
Qed.

Lemma Matches_star_cons r c s :
  Matches (Star r) (c :: s) →
  ∃ a b, s = a ++ b ∧ Matches r (c :: a) ∧ Matches (Star r) b.
Proof. intros H. by eapply Matches_star_cons_gen. Qed.

Lemma deriv_spec r c s : Matches (deriv c r) s ↔ Matches r (c :: s).
Proof.
  revert s. induction r as [| |p|r IHr r' IHr'|r IHr r' IHr'|r IHr];
    intros s; simpl.
  - split; inversion 1.
  - split; inversion 1.
  - destruct (p c) eqn:Hp.
    + split; inversion 1; subst; [by constructor | constructor].
    + split; inversion 1; congruence.
  - destruct (nullable r) eqn:Hn.
    + split.
      * inversion 1 as [| | | ? ? ? H1 | ? ? ? H1 | |]; subst.
        -- inversion H1; subst. apply (MSeq r r' (c :: _)); [|done].
           by apply IHr.
        -- apply (MSeq r r' []); [by apply nullable_spec | by apply IHr'].
      * inversion 1 as [| |? ? a b Ha Hb| | | |]; subst.
        destruct a as [|c' a]; simplify_eq/=.
        -- apply MAltR. by apply IHr'.
        -- apply MAltL. constructor; [by apply IHr | done].
    + split.
      * inversion 1; subst. apply (MSeq r r' (c :: _)); [|done].
        by apply IHr.
      * inversion 1 as [| |? ? a b Ha Hb| | | |]; subst.
        destruct a as [|c' a]; simplify_eq/=.
        -- apply nullable_spec in Ha. congruence.
        -- constructor; [by apply IHr | done].
  - split.
    + inversion 1; subst; [apply MAltL; by apply IHr
                          | apply MAltR; by apply IHr'].
    + inversion 1; subst; [apply MAltL; by apply IHr
                          | apply MAltR; by apply IHr'].
  - split.
    + inversion 1; subst. apply (MStarS r (c :: _)); [by apply IHr | done].
    + intros (a & b & -> & Ha & Hb)%Matches_star_cons.
      constructor; [by apply IHr | done].
Qed.

Lemma matches_spec r s : matches r s = true ↔ Matches r s.
Proof.
  unfold matches. revert r. induction s as [|c s IH]; intros r; simpl.
  - apply nullable_spec.
  - rewrite IH. apply deriv_spec.
Qed.
End RegExpFacts.

(** *** Validation *)

Section Validation.
Import RegExp.
Implicit Types (r : Re) (s a b : JsString) (c : N) (p : N → bool).

Lemma Matches_star_cls p s :
  Matches (Star (Cls p)) s ↔ Forall (λ c, p c = true) s.
Proof.
  split.
  - induction s as [|c s IH]; [done|].
    intros (a & b & -> & Ha & Hb)%Matches_star_cons.
    inversion Ha; subst. constructor; [done | by apply IH].
  - induction 1 as [|c s Hc _ IH]; [constructor|].
    apply (MStarS (Cls p) [c]); [by constructor | done].
Qed.

Lemma Matches_plus_cls p s :
  Matches (Plus (Cls p)) s ↔ s ≠ [] ∧ Forall (λ c, p c = true) s.
Proof.
  unfold Plus. split.
  - inversion 1 as [| |? ? a b Ha Hb| | | |]; subst.
    inversion Ha; subst. apply Matches_star_cls in Hb.
    split; [done | by constructor].
  - intros [Hne Hs]. destruct s as [|c s]; [done|].
    inversion Hs; subst.
    apply (MSeq (Cls p) _ [c]); [by constructor | by apply Matches_star_cls].
Qed.

Lemma Matches_chr c s : Matches (Chr c) s ↔ s = [c].
Proof.
  unfold Chr. split.
  - inversion 1 as [|? ? Hc| | | | |]; subst. by apply N.eqb_eq in Hc as ->.
  - intros ->. constructor. apply N.eqb_refl.
Qed.

(** Five parts in a row: the shape of both e-mail patterns. *)
Lemma Matches_email_shape p s :
  Matches (Seq (Plus (Cls p)) (Seq (Chr 64) (Seq (Plus (Cls p))
             (Seq (Chr 46) (Plus (Cls p)))))) s
  ↔ ∃ a b d, s = a ++ 64%N :: b ++ 46%N :: d
             ∧ a ≠ [] ∧ b ≠ [] ∧ d ≠ []
             ∧ Forall (λ x, p x = true) (a ++ b ++ d).
Proof.
  split.
  - inversion 1 as [| |? ? a s1 Ha H1| | | |]; subst.
    inversion H1 as [| |? ? at' s2 Hat H2| | | |]; subst.
    inversion H2 as [| |? ? b s3 Hb H3| | | |]; subst.
    inversion H3 as [| |? ? dot d Hdot Hc| | | |]; subst.
    apply Matches_plus_cls in Ha as [? ?], Hb as [? ?], Hc as [? ?].
    apply Matches_chr in Hat as ->, Hdot as ->.
    exists a, b, d. split_and!; try done.
    rewrite !Forall_app. done.
  - intros (a & b & d & -> & Ha & Hb & Hc & Hall).
    rewrite !Forall_app in Hall. destruct Hall as (Pa & Pb & Pc).
    apply (MSeq _ _ a); [by apply Matches_plus_cls|].
    apply (MSeq _ _ [64%N]); [by apply Matches_chr|].
    apply (MSeq _ _ b); [by apply Matches_plus_cls|].
    apply (MSeq _ _ [46%N]); [by apply Matches_chr|].
    by apply Matches_plus_cls.
Qed.

(** X18.  [isValidEmail] accepts exactly the strings of the form
    [a@b.d] with [a], [b] and [d] non-empty and free of whitespace and
    of [@]. *)
Theorem isValidEmail_accepts_local_at_domain_dot_tld email :
  isValidEmail email = true
  ↔ ∃ a b d, email = a ++ 64%N :: b ++ 46%N :: d
             ∧ a ≠ [] ∧ b ≠ [] ∧ d ≠ []
             ∧ Forall (λ x, is_whitespace x = false ∧ x ≠ 64%N) (a ++ b ++ d).
Proof.
  unfold isValidEmail, emailRegex. rewrite matches_spec, Matches_email_shape.
  assert (∀ x, plain x = true ↔ is_whitespace x = false ∧ x ≠ 64%N) as Hp.
  { intros x. unfold plain. rewrite negb_true_iff, orb_false_iff.
    by rewrite N.eqb_neq. }
  split; intros (a & b & d & H); exists a, b, d;
    destruct H as (? & ? & ? & ? & Hall); split_and!; try done;
    eapply Forall_impl; [exact Hall | | exact Hall |]; intros x; apply Hp.
Qed.
Lemma test_spec r s :
  test r s = true ↔ ∃ pre mid post, s = pre ++ mid ++ post ∧ Matches r mid.
Proof.
  unfold test. rewrite matches_spec.
  assert (∀ x, Matches (Star (Cls any)) x) as Hany.
  { intros x. apply Matches_star_cls. by apply Forall_true. }
  split.
  - inversion 1 as [| |? ? pre s1 _ H1| | | |]; subst.
    inversion H1 as [| |? ? mid post Hm _| | | |]; subst.
    by exists pre, mid, post.
  - intros (pre & mid & post & -> & Hm).
    apply MSeq; [done|]. by apply MSeq.
Qed.

Lemma isValidEmail_passes_the_screen email :
  isValidEmail email = true → test RegisterScreen.emailPattern email = true.
Proof.
  unfold isValidEmail, emailRegex, RegisterScreen.emailPattern.
  rewrite matches_spec, test_spec, Matches_email_shape.
  intros (a & b & d & -> & Ha & Hb & Hd & Hall).
  exists [], (a ++ 64%N :: b ++ 46%N :: d), []. split; [by rewrite app_nil_r|].
  apply Matches_email_shape. exists a, b, d. split_and!; try done.
  eapply Forall_impl; [exact Hall|]. intros x. unfold plain, not_space.
  rewrite !negb_true_iff, orb_false_iff. by intros [? _].
Qed.

Ltac rejects :=
  repeat case_match;
  let Hne := fresh "Hne" in intros Hne; by apply insert_non_empty in Hne.

Lemma newErrors_empty f :
  size (RegisterScreen.newErrors f) = 0%nat
  ↔ test RegisterScreen.emailPattern (RegisterScreen.fd_email f) = true
    ∧ (8 ≤ length (RegisterScreen.fd_password f))%nat
    ∧ RegisterScreen.fd_password f = RegisterScreen.fd_confirmPassword f
    ∧ RegisterScreen.fd_firstName f ≠ []
    ∧ RegisterScreen.fd_lastName f ≠ [].
Proof.
  destruct f as [em pw cf fn ln]. unfold RegisterScreen.newErrors.
  cbn [RegisterScreen.fd_email RegisterScreen.fd_password
       RegisterScreen.fd_confirmPassword RegisterScreen.fd_firstName
       RegisterScreen.fd_lastName].
  rewrite map_size_empty_iff.
  destruct em as [|e0 em]; cbn [truthy negb].
  { split; [|by intros [[=] _]].
    rejects. }
  destruct (test _ (e0 :: em)); cbn [negb];
    [|split; [|by intros [[=] _]];
      rejects].
  destruct pw as [|p0 pw]; cbn [truthy negb].
  { split; [|intros (_ & ? & _); simpl in *; lia].
    rejects. }
  destruct (decide (length (p0 :: pw) < 8)%nat) as [Hlen|Hlen];
    [rewrite (bool_decide_eq_true_2 _ Hlen)
    |rewrite (bool_decide_eq_false_2 _ Hlen)].
  { split; [rejects|]. intros (_ & ? & _). lia. }
  destruct (decide (p0 :: pw ≠ cf)) as [Hcf|Hcf];
    [rewrite (bool_decide_eq_true_2 _ Hcf)
    |rewrite (bool_decide_eq_false_2 _ Hcf)].
  { split; [rejects|]. by intros (_ & _ & ? & _). }
  destruct fn as [|f0 fn]; cbn [truthy negb];
    [split; [|by intros (_ & _ & _ & ? & _)];
     rejects|].
  destruct ln as [|l0 ln]; cbn [truthy negb];
    [split; [|by intros (_ & _ & _ & _ & ?)];
     rejects|].
  split; [|done]. intros _. split_and!; try done; [lia|].
  by apply dec_stable.
Qed.

(** X19.  [validateForm] of the sign-up screen accepts a form exactly
    when its e-mail contains a match of the screen's pattern, the password
    has 8 code units or more and equals its confirmation, and both names
    are non-empty.  Every e-mail that [isValidEmail] accepts passes the
    screen's pattern, but not conversely; [isValidPassword] asks for the
    same 8 code units. *)
Theorem validateForm_accepts_more_than_isValidEmail st :
  let f := RegisterScreen.formData st in
  ((RegisterScreen.validateForm st).1 = true
   ↔ test RegisterScreen.emailPattern (RegisterScreen.fd_email f) = true
     ∧ (8 ≤ length (RegisterScreen.fd_password f))%nat
     ∧ RegisterScreen.fd_password f = RegisterScreen.fd_confirmPassword f
     ∧ RegisterScreen.fd_firstName f ≠ []
     ∧ RegisterScreen.fd_lastName f ≠ [])
  ∧ (∀ email, isValidEmail email = true →
              test RegisterScreen.emailPattern email = true)
  ∧ (∀ password, isValidPassword password = true
                 ↔ (8 ≤ length password)%nat)
  ∧ test RegisterScreen.emailPattern (of_string "to: a@b@c.d") = true
  ∧ isValidEmail (of_string "to: a@b@c.d") = false.
Proof.
  intros f. split_and!.
  - unfold RegisterScreen.validateForm. cbn [fst].
    rewrite bool_decide_eq_true. apply newErrors_empty.
  - apply isValidEmail_passes_the_screen.
  - intros password. unfold isValidPassword. apply bool_decide_eq_true.
  - reflexivity.
  - reflexivity.
Qed.
End Validation.

(** *** The sign-up and sign-in forms *)

Section AuthScreens.
Implicit Types (w : World).

Lemma session_call_sent m url params fallback w :
  sent (try_catch
          (d <- mlbApi.api_call m url params ;; mlbApi.store_session d)
          (fun e => throw (EError (or_else (response_message e) fallback)))
          w).2
  = sent w ++ [request_of m url params w].
Proof.
  async_unfold. pose proof (api_call_sent m url params w) as Hs.
  destruct (mlbApi.api_call _ _ _ w) as [[d|e0] w1]; simpl in *; [|done].
  rewrite store_session_run.
  destruct d as [b|]; [|done]. destruct (b_token b) as [t|]; [|done].
  by destruct (keychain_up _).
Qed.

Lemma sign_in_sent call (req : World → Request) w :
  (∀ w0, sent (call w0).2 = sent w0 ++ [req w0]) →
  (∀ a w0, req (with_auth a w0) = req w0) →
  sent (useAuthStore.sign_in call w).2 = sent w ++ [req w].
Proof.
  intros Hcall Hreq. rewrite sign_in_run. cbv zeta.
  specialize (Hcall (with_auth {| user := user (auth w);
                         isAuthenticated := isAuthenticated (auth w);
                         isLoading := true; error := None |} w)).
  rewrite Hreq in Hcall.
  by destruct (call _) as [[r|e] w1].
Qed.

Lemma sign_in_throws_Error call :
  throws_only_Errors call → throws_only_Errors (useAuthStore.sign_in call).
Proof.
  intros Hcall w e. rewrite sign_in_run. cbv zeta.
  specialize (Hcall (with_auth {| user := user (auth w);
                         isAuthenticated := isAuthenticated (auth w);
                         isLoading := true; error := None |} w)).
  destruct (call _) as [[r|e0] w1]; simpl in *; [done|].
  intros [= <-]. by apply Hcall.
Qed.

(** X20.  [handleRegister] sends a registration request exactly when
    [validateForm] accepts the form, and never throws.  A rejected form
    leaves the world untouched and at least one error on the screen.
    After the request the screen is not loading and shows one alert:
    Success, or Registration Failed with the non-empty message of the
    service, so the fallback text is never shown. *)
Theorem handleRegister_sends_only_accepted_forms st w :
  let f := RegisterScreen.formData st in
  let r := RegisterScreen.handleRegister st w in
  let st1 := (RegisterScreen.validateForm st).2 in
  if (RegisterScreen.validateForm st).1
  then sent r.2
       = sent w ++ [request_of POST "/api/v1/auth/register/"
                      [PStr "email" (RegisterScreen.fd_email f);
                       PStr "password" (RegisterScreen.fd_password f);
                       PStr "firstName" (RegisterScreen.fd_firstName f);
                       PStr "lastName" (RegisterScreen.fd_lastName f)] w]
       ∧ match (useAuthStore.register (RegisterScreen.fd_email f)
                  (RegisterScreen.fd_password f)
                  (RegisterScreen.fd_firstName f)
                  (RegisterScreen.fd_lastName f) w).1 with
         | Return _ =>
             r.1 = Return (RegisterScreen.finish st1 "Success"
                             "Account created successfully!")
         | Throw e =>
             ∃ msg, e = EError msg ∧ msg ≠ ""
                    ∧ r.1 = Return (RegisterScreen.finish st1
                                      "Registration Failed" msg)
         end
  else r = (Return st1, w) ∧ RegisterScreen.rs_errors st1 ≠ ∅.
Proof.
  intros f r st1. subst r st1. unfold RegisterScreen.handleRegister.
  destruct (RegisterScreen.validateForm st) as [ok st1] eqn:Hv.
  assert (RegisterScreen.formData st1 = f) as Hf.
  { unfold RegisterScreen.validateForm in Hv. by simplify_eq. }
  cbn [fst snd]. destruct ok; cbn [negb].
  - rewrite Hf. unfold try_catch, bind.
    pose proof (sign_in_sent
      (mlbApi.register (RegisterScreen.fd_email f)
         (RegisterScreen.fd_password f) (RegisterScreen.fd_firstName f)
         (RegisterScreen.fd_lastName f))
      (request_of POST "/api/v1/auth/register/"
         [PStr "email" (RegisterScreen.fd_email f);
          PStr "password" (RegisterScreen.fd_password f);
          PStr "firstName" (RegisterScreen.fd_firstName f);
          PStr "lastName" (RegisterScreen.fd_lastName f)]) w
      (session_call_sent _ _ _ _) (λ _ _, eq_refl)) as Hs.
    pose proof (sign_in_throws_Error _
      (register_throws_Error (RegisterScreen.fd_email f)
         (RegisterScreen.fd_password f) (RegisterScreen.fd_firstName f)
         (RegisterScreen.fd_lastName f)) w) as He.
    unfold useAuthStore.register.
    destruct (useAuthStore.sign_in _ w) as [[[]|e] w1]; simpl in *.
    + done.
    + destruct (He e eq_refl) as (msg & -> & Hm). simpl.
      split; [done|]. exists msg. by rewrite decide_False.
  - split; [done|].
    unfold RegisterScreen.validateForm in Hv. injection Hv as Hb <-.
    apply bool_decide_eq_false in Hb. simpl.
    by rewrite <- map_size_empty_iff.
Qed.

(** X21.  [handleLogin] with an empty e-mail or password raises the
    alert that asks for all fields and sends nothing.  Otherwise it sends
    one login request and returns with the screen not loading: without an
    alert when the store's [login] returned, with Login Failed and the
    non-empty message of the service when it threw. *)
Theorem handleLogin_asks_for_both_fields st w :
  let r := LoginScreen.handleLogin st w in
  let signed := {| LoginScreen.ls_email := LoginScreen.ls_email st;
                   LoginScreen.ls_password := LoginScreen.ls_password st;
                   LoginScreen.ls_loading := false;
                   LoginScreen.ls_alerts := LoginScreen.ls_alerts st |} in
  if truthy (LoginScreen.ls_email st) && truthy (LoginScreen.ls_password st)
  then sent r.2
       = sent w ++ [request_of POST "/api/v1/auth/login/"
                      [PStr "email" (LoginScreen.ls_email st);
                       PStr "password" (LoginScreen.ls_password st)] w]
       ∧ match (useAuthStore.login (LoginScreen.ls_email st)
                  (LoginScreen.ls_password st) w).1 with
         | Return _ => r.1 = Return signed
         | Throw e =>
             ∃ msg, e = EError msg ∧ msg ≠ ""
                    ∧ r.1 = Return (LoginScreen.alert st "Login Failed" msg
                                      false)
         end
  else r = (Return (LoginScreen.alert st "Error" "Please fill in all fields"
                      (LoginScreen.ls_loading st)), w).
Proof.
  intros r signed. subst r signed. unfold LoginScreen.handleLogin.
  destruct (truthy (LoginScreen.ls_email st)),
    (truthy (LoginScreen.ls_password st)); cbn [negb orb andb]; try done.
  unfold try_catch, bind.
  pose proof (sign_in_sent
    (mlbApi.login (LoginScreen.ls_email st) (LoginScreen.ls_password st))
    (request_of POST "/api/v1/auth/login/"
       [PStr "email" (LoginScreen.ls_email st);
        PStr "password" (LoginScreen.ls_password st)]) w
    (session_call_sent _ _ _ _) (λ _ _, eq_refl)) as Hs.
  pose proof (sign_in_throws_Error _
    (login_throws_Error (LoginScreen.ls_email st)
       (LoginScreen.ls_password st)) w) as He.
  unfold useAuthStore.login.
  destruct (useAuthStore.sign_in _ w) as [[[]|e] w1]; simpl in *.
  - done.
  - destruct (He e eq_refl) as (msg & -> & Hm). simpl.
    split; [done|]. exists msg. by rewrite decide_False.
Qed.
End AuthScreens.

(** *** Restarting the app *)

Section Restart.
Implicit Types (w : World) (email password : JsString).

Lemma constructor_run w :
  mlbApi.constructor w =
  if keychain_up (env w)
  then (Return tt, with_authToken (secureStore w !! "auth_token") w)
  else (Return tt,
        with_console (console w ++ ["No auth token found"])
          (with_authToken None w)).
Proof.
  unfold mlbApi.constructor, mlbApi.loadAuthToken,
    SecureStore.getItemAsync.
  async_unfold. simpl. by destruct (keychain_up (env w)).
Qed.


(** X23.  When the backend accepts a login, in time and with a token [t]
    in the body, but the secure store does not answer, [login] throws
    Error('Login failed') and the auth store stays as signed out as it
    was; yet [t] stays in memory, and every later request has the
    Authorization header [Token t] when [t] is not the empty string, and
    none when it is. *)
Theorem login_failing_at_the_keychain_keeps_the_token
    email password w rp b t :
  let r := request_of POST "/api/v1/auth/login/"
             [PStr "email" email; PStr "password" password] w in
  let after := (useAuthStore.login email password w).2 in
  keychain_up (env w) = false →
  latency (backend (env w) (sent w) r) ≤ 30000 →
  reply (backend (env w) (sent w) r) = Some rp →
  200 ≤ status rp < 300 →
  data rp = Some b →
  b_token b = Some t →
  (useAuthStore.login email password w).1 = Throw (EError "Login failed")
  ∧ auth after = {| user := user (auth w);
                    isAuthenticated := isAuthenticated (auth w);
                    isLoading := false; error := Some "Login failed" |}
  ∧ secureStore after = secureStore w
  ∧ authToken after = Some t
  ∧ ∀ m url params,
      last (sent (mlbApi.api_call m url params after).2)
      = Some {| req_method := m; req_url := url; req_params := params;
                req_authorization :=
                  if decide (t = "") then None
                  else Some ("Token " +:+ t) |}.
Proof.
  intros r after Hk Hl Hr Hs Hd Ht. subst after.
  unfold useAuthStore.login. rewrite sign_in_run. cbv zeta.
  set (w0 := with_auth _ w).
  assert (mlbApi.login email password w0
          = (Throw (EError "Login failed"),
             with_authToken (Some t) (with_sent (sent w ++ [r]) w0)))
    as ->.
  { unfold mlbApi.login, try_catch, bind.
    rewrite (api_call_resolves _ _ _ w0 rp); try done.
    - rewrite Hd, store_session_run, Ht. simpl. by rewrite Hk.
    - unfold mlbApi.status_ok. apply andb_true_iff.
      split; [apply Z.leb_le | apply Z.ltb_lt]; lia. }
  split_and!; try done.
  intros m url params. by rewrite api_call_sent, last_snoc.
Qed.

Lemma login_failing_at_the_keychain_keeps_the_token_witness :
  let locked :=
    {| backend := backend (answering 120 200 (Some login_body));
       keychain_up := false;
       clock := clock (answering 120 200 (Some login_body)) |} in
  let w := initial_world locked in
  let after :=
    (useAuthStore.login (of_string "fan@example.com") (of_string "secret")
       w).2 in
  keychain_up (env w) = false
  ∧ isAuthenticated (auth after) = false
  ∧ error (auth after) = Some "Login failed"
  ∧ authToken after = Some "t0k3n"
  ∧ (req_authorization <$> sent (mlbApi.getUserDashboard after).2)
    = [None; Some "Token t0k3n"].
Proof.
  intros locked w after. subst after.
  destruct (login_failing_at_the_keychain_keeps_the_token
              (of_string "fan@example.com") (of_string "secret") w
              {| status := 200; data := Some login_body |} login_body "t0k3n")
    as (_ & Ha & _ & Ht & _); try reflexivity; try (simpl; lia).
  split_and!; [reflexivity | by rewrite Ha | by rewrite Ha | exact Ht
              | vm_compute; reflexivity].
Defined.
End Restart.

(** *** The token in memory and the token in the secure store *)

Section TokenStored.
Implicit Types (w : World).

#[local] Instance keeps_token_stored_refl : Reflexive keeps_token_stored.
Proof. intros w. by split. Qed.

#[local] Instance keeps_token_stored_trans : Transitive keeps_token_stored.
Proof.
  intros w1 w2 w3 [E12 H12] [E23 H23]. split; [congruence|].
  intros Hk Hs. apply H23; [congruence | by apply H12].
Qed.

Lemma api_call_token_stored m url params :
  steps_within keeps_token_stored (mlbApi.api_call m url params).
Proof.
  intros w. split; [apply api_call_frame|]. intros Hk Hs.
  unfold mlbApi.api_call, mlbApi.adapter, mlbApi.handleAuthError,
    SecureStore.deleteItemAsync.
  async_unfold. simpl.
  destruct (mlbApi.axios_timeout <? _); [done|].
  destruct (reply _) as [rp|]; [|done].
  destruct (mlbApi.status_ok _); [done|]. simpl.
  destruct (bool_decide _); [|done]. simpl. rewrite Hk. simpl.
  intros t [=].
Qed.

Lemma console_error_token_stored msg :
  steps_within keeps_token_stored (console_error msg).
Proof. intros w. by split. Qed.

Ltac steps :=
  repeat match goal with
    | |- Reflexive _ => apply _
    | |- Transitive _ => apply _
    | |- ∀ _, steps_within _ _ => intros ?
    | |- steps_within _ (mlbApi.api_call _ _ _) =>
        apply api_call_token_stored
    | |- steps_within _ (console_error _) => apply console_error_token_stored
    | |- steps_within _ (ret _) => apply steps_ret
    | |- steps_within _ (throw _) => apply steps_throw
    | |- steps_within _ (bind _ _) => apply steps_bind
    | |- steps_within _ (try_catch _ _) => apply steps_try_catch
    | |- steps_within _ (match ?x with _ => _ end) => destruct x
    end.

Lemma fetch_or_token_stored m url params fallback :
  steps_within keeps_token_stored (mlbApi.fetch_or m url params fallback).
Proof. unfold mlbApi.fetch_or. steps. Qed.

Lemma store_session_token_stored d :
  steps_within keeps_token_stored (mlbApi.store_session d).
Proof.
  intros w. rewrite store_session_run. split.
  - destruct d as [b|]; [|done]. destruct (b_token b); [|done].
    by destruct (keychain_up _).
  - intros Hk Hs. destruct d as [b|]; [|done].
    destruct (b_token b) as [t|]; [|by intros t [=]].
    rewrite Hk. intros t' Ht'. simpl in Ht'. injection Ht' as <-.
    apply lookup_insert_eq.
Qed.

Lemma logout_token_stored : steps_within keeps_token_stored mlbApi.logout.
Proof.
  intros w. split.
  - pose proof (api_call_frame POST "/api/v1/auth/logout/" [] w) as (He&_).
    unfold mlbApi.logout, SecureStore.deleteItemAsync. async_unfold.
    destruct (mlbApi.api_call _ _ _ w) as [[d|e] w1]; simpl in *;
      by destruct (keychain_up _).
  - intros Hk _. destruct (logout_run w Hk) as (w' & -> & _ & Ht & _).
    simpl. intros t. by rewrite Ht.
Qed.

Lemma constructor_token_stored :
  steps_within keeps_token_stored mlbApi.constructor.
Proof.
  intros w. rewrite constructor_run. split.
  - by destruct (keychain_up _).
  - intros Hk _. rewrite Hk. intros t Ht. exact Ht.
Qed.

Lemma service_call_token_stored c w :
  keeps_token_stored w (service_call c w).
Proof.
  destruct c; unfold service_call;
    match goal with
    | |- keeps_token_stored w (?m w).2 =>
        revert w; change (steps_within keeps_token_stored m)
    end.
  - apply constructor_token_stored.
  - unfold mlbApi.login. steps. apply store_session_token_stored.
  - unfold mlbApi.register. steps. apply store_session_token_stored.
  - apply logout_token_stored.
  - unfold mlbApi.searchPlayers. steps.
  - unfold mlbApi.naturalLanguageSearch. steps.
  - unfold mlbApi.getPlayerProfile. steps.
  - unfold mlbApi.getPlayerVenuePerformance. steps.
  - apply fetch_or_token_stored.
  - apply fetch_or_token_stored.
  - apply fetch_or_token_stored.
  - apply fetch_or_token_stored.
  - apply fetch_or_token_stored.
  - apply fetch_or_token_stored.
  - unfold mlbApi.removeFavorite. steps. apply fetch_or_token_stored.
  - unfold mlbApi.addFavoriteTeam. steps.
  - unfold mlbApi.addFavoritePlayer. steps.
  - apply fetch_or_token_stored.
Qed.

(** X24.  While the secure store answers, the token in memory, if there
    is one, is the one in the secure store: no sequence of calls on the
    service, restarts included, breaks that. *)
Theorem memory_token_is_the_stored_token calls w :
  keychain_up (env w) = true →
  token_stored w →
  token_stored (after_service_calls calls w)
  ∧ env (after_service_calls calls w) = env w.
Proof.
  revert w. induction calls as [|c calls IH]; intros w Hk Hs; [done|].
  change (after_service_calls (c :: calls) w)
    with (after_service_calls calls (service_call c w)).
  destruct (service_call_token_stored c w) as [He Hc].
  destruct (IH (service_call c w)) as [IH1 IH2];
    [by rewrite He | by apply Hc |].
  split; [exact IH1 | by rewrite IH2].
Qed.

Lemma memory_token_is_the_stored_token_witness :
  let w := initial_world (answering 120 200 (Some login_body)) in
  let calls := [CallConstruct;
                CallLogin (of_string "fan@example.com") (of_string "hunter22");
                CallGetRecentGames; CallConstruct; CallAddFavoriteTeam 147] in
  keychain_up (env w) = true
  ∧ token_stored w
  ∧ authToken (after_service_calls calls w) = Some "t0k3n"
  ∧ secureStore (after_service_calls calls w) !! "auth_token" = Some "t0k3n".
Proof.
  intros w calls.
  assert (token_stored w) as Hs by (intros t Ht; discriminate Ht).
  split_and!; [reflexivity | exact Hs | reflexivity |].
  exact (proj1 (memory_token_is_the_stored_token calls w eq_refl Hs)
           "t0k3n" eq_refl).
Defined.
End TokenStored.

(** *** One request per call *)

Section OneRequest.
Implicit Types (w : World).

Lemma caught_call_sent {A} m url params (k : option Body → Async A)
    (handler : JsError → Async A) w :
  (∀ d w', sent (k d w').2 = sent w') →
  (∀ e w', sent (handler e w').2 = sent w') →
  sent (try_catch (d <- mlbApi.api_call m url params ;; k d) handler w).2
  = sent w ++ [request_of m url params w].
Proof.
  intros Hk Hh. unfold try_catch, bind, request_of.
  pose proof (api_call_sent m url params w) as Hs.
  destruct (mlbApi.api_call _ _ _ w) as [[d|e] w1]; simpl in *.
  - specialize (Hk d w1).
    destruct (k d w1) as [[a|e] w2]; simpl in *; rewrite ?Hh; congruence.
  - rewrite Hh. congruence.
Qed.

Lemma caught_api_call_sent m url params
    (handler : JsError → Async (option Body)) w :
  (∀ e w', sent (handler e w').2 = sent w') →
  sent (try_catch (mlbApi.api_call m url params) handler w).2
  = sent w ++ [request_of m url params w].
Proof.
  intros Hh. unfold try_catch, request_of.
  pose proof (api_call_sent m url params w) as Hs.
  destruct (mlbApi.api_call _ _ _ w) as [[d|e] w1]; simpl in *; [done|].
  rewrite Hh. congruence.
Qed.

Lemma fetch_or_sent m url params fallback w :
  sent (mlbApi.fetch_or m url params fallback w).2
  = sent w ++ [request_of m url params w].
Proof. by apply caught_api_call_sent. Qed.

(** X25.  Every method of the service sends exactly one request,
    whether it succeeds or fails: nothing is retried.  The request carries
    the Authorization header of the token in memory at the time of the
    call.  Creating the service sends nothing. *)
Theorem every_call_sends_one_request c w :
  match c with
  | CallConstruct => sent (service_call c w) = sent w
  | _ =>
      ∃ r, sent (service_call c w) = sent w ++ [r]
           ∧ req_authorization r = mlbApi.authorization (authToken w)
  end.
Proof.
  destruct c; unfold service_call.
  - rewrite constructor_run. by destruct (keychain_up _).
  - eexists. split; [apply session_call_sent | done].
  - eexists. split; [apply session_call_sent | done].
  - exists (request_of POST "/api/v1/auth/logout/" [] w).
    split; [|reflexivity].
    pose proof (api_call_sent POST "/api/v1/auth/logout/" [] w) as Hs.
    unfold mlbApi.logout, SecureStore.deleteItemAsync. async_unfold.
    destruct (mlbApi.api_call _ _ _ w) as [[d|e] w1]; simpl in *;
      by destruct (keychain_up _).
  - eexists. split.
    { apply caught_call_sent; [intros [b|] w' | intros e w']; reflexivity. }
    reflexivity.
  - eexists. split; [apply fetch_or_sent | done].
  - eexists. split; [by apply caught_api_call_sent | reflexivity].
  - eexists. split; [by apply caught_api_call_sent | reflexivity].
  - eexists. split; [apply fetch_or_sent | done].
  - eexists. split; [apply fetch_or_sent | done].
  - eexists. split; [apply fetch_or_sent | done].
  - eexists. split; [apply fetch_or_sent | done].
  - eexists. split; [apply fetch_or_sent | done].
  - eexists. split; [apply fetch_or_sent | done].
  - exists (request_of DELETE ("/api/favorites/" +:+ id +:+ "/") [] w).
    split; [|reflexivity]. unfold mlbApi.removeFavorite, bind, ret.
    pose proof (fetch_or_sent DELETE ("/api/favorites/" +:+ id +:+ "/") []
                  "Failed to remove favorite" w) as Hs.
    destruct (mlbApi.fetch_or _ _ _ _ w) as [[d|e] w1]; exact Hs.
  - eexists. split; [apply fetch_or_sent | done].
  - eexists. split; [apply fetch_or_sent | done].
  - eexists. split; [apply fetch_or_sent | done].
Qed.
End OneRequest.

(** *** Forms *)

Section Forms.
Context {V : Type}.
Implicit Types (st : @useForm.State V) (field : string)
  (rules : list (string * option (@useForm.Rule V))).

Lemma check_fold rules vals acc :
  let r := foldl (useForm.check vals) acc rules in
  (acc.2 = true ↔ acc.1 = ∅) →
  (r.2 = true ↔ r.1 = ∅)
  ∧ (r.2 = true
     ↔ acc.2 = true
       ∧ ∀ f rule, (f, Some rule) ∈ rules →
                   useForm.message (rule (vals !! f)) = false).
Proof.
  revert acc. induction rules as [|[f r] rules IH]; intros acc; simpl.
  - intros Hacc. split; [done|]. split; [|by intros [? _]].
    intros ?. split; [done|]. intros ? ? ?%elem_of_nil. done.
  - intros Hacc.
    destruct (IH (useForm.check vals acc (f, r))) as [IH1 IH2].
    { unfold useForm.check. simpl. destruct r as [rule|]; [|done].
      destruct (useForm.message _); [|done]. simpl.
      split; [done|]. intros ?%insert_non_empty. done. }
    split; [done|]. rewrite IH2. clear IH IH1 IH2.
    unfold useForm.check. simpl. destruct r as [rule|].
    + destruct (useForm.message (rule (vals !! f))) eqn:Hm; simpl.
      * split; [by intros [? _]|]. intros [_ H].
        specialize (H f rule (list_elem_of_here _ _)). congruence.
      * split; intros [Ha H]; (split; [done|]); intros f' rule' Hin.
        -- apply elem_of_cons in Hin as [[= -> ->]|Hin]; [done | by apply H].
        -- apply H. by apply list_elem_of_further.
    + split; intros [Ha H]; (split; [done|]); intros f' rule' Hin.
      * apply elem_of_cons in Hin as [[=]|Hin]. by apply H.
      * apply H. by apply list_elem_of_further.
Qed.

(** X26.  [validate] of [useForm], given rules, returns true exactly
    when no rule has a message for the value of its field, and the
    [isValid] the hook then reports equals the value returned; values and
    touched flags are left alone. *)
Theorem validate_agrees_with_isValid rules st :
  let r := useForm.validate (Some rules) st in
  r.1 = useForm.isValid r.2
  ∧ (r.1 = true
     ↔ ∀ f rule, (f, Some rule) ∈ rules →
                 useForm.message (rule (useForm.values st !! f)) = false)
  ∧ useForm.values r.2 = useForm.values st
  ∧ useForm.touched r.2 = useForm.touched st.
Proof.
  intros r. subst r. unfold useForm.validate, useForm.isValid.
  pose proof (check_fold rules (useForm.values st) (∅, true)) as H.
  cbv zeta in H. destruct (foldl _ _ rules) as [newErrors ok].
  destruct H as [H1 H2]; [done|]. simpl in *.
  split_and!; try done.
  - destruct ok.
    + symmetry. apply bool_decide_eq_true, map_size_empty_iff. by apply H1.
    + symmetry. apply bool_decide_eq_false. rewrite map_size_empty_iff.
      intros ?%H1. done.
  - rewrite H2. split; [by intros [_ ?] | done].
Qed.

Lemma setValue_dom field (v : V) st :
  dom (useForm.errors (useForm.setValue field v st))
  = dom (useForm.errors st).
Proof.
  unfold useForm.setValue. simpl.
  destruct (useForm.errors st !! field) as [e|] eqn:He; simpl; [|done].
  destruct (useForm.message e); [|done].
  rewrite dom_insert_L. apply elem_of_dom_2 in He.
  apply subseteq_union_1_L. by apply singleton_subseteq_l.
Qed.

Lemma isValid_dom st st' :
  dom (useForm.errors st') = dom (useForm.errors st) →
  useForm.isValid st' = useForm.isValid st.
Proof.
  intros Hd. unfold useForm.isValid. apply bool_decide_ext.
  by rewrite <- !size_dom, Hd.
Qed.

Lemma setValue_shown field (v : V) st f :
  shown (useForm.setValue field v st) f
  = if decide (f = field) then false else shown st f.
Proof.
  unfold shown, useForm.setValue. simpl.
  destruct (useForm.message (mjoin (useForm.errors st !! field))) eqn:Hm.
  - case_decide as Hf.
    + subst f. by rewrite lookup_insert_eq.
    + by rewrite lookup_insert_ne.
  - case_decide as Hf; [by subst f | done].
Qed.

(** X27.  [setValue] clears the message of the field it edits but keeps
    the key: after any run of edits no edited field shows a message, the
    other fields show what they did, and [isValid] is what it was.  A form
    that failed validation stays invalid until [validate] or [reset]. *)
Theorem setValue_hides_messages_but_never_restores_isValid
    (edits : list (string * V)) st :
  let st' := after_edits edits st in
  useForm.isValid st' = useForm.isValid st
  ∧ (∀ f, shown st' f = if decide (f ∈ edits.*1) then false else shown st f).
Proof.
  revert st. induction edits as [|[f0 v0] edits IH]; intros st.
  - split; [done|]. intros f. rewrite decide_False; [done|].
    apply not_elem_of_nil.
  - change (after_edits ((f0, v0) :: edits) st)
      with (after_edits edits (useForm.setValue f0 v0 st)).
    rewrite fmap_cons. cbn [fst].
    destruct (IH (useForm.setValue f0 v0 st)) as [IH1 IH2].
    split.
    + rewrite IH1. apply isValid_dom, setValue_dom.
    + intros f. rewrite IH2, setValue_shown.
      destruct (decide (f ∈ edits.*1)) as [Hin|Hin].
      * rewrite decide_True; [done|]. by apply list_elem_of_further.
      * destruct (decide (f = f0)) as [->|Hne].
        -- rewrite decide_True; [done|]. apply list_elem_of_here.
        -- rewrite decide_False; [done|].
           intros [?|?]%elem_of_cons; done.
Qed.
End Forms.

(** *** The cache *)

Section CacheFacts.
Context {T : Type}.
Implicit Types (d : @Cache.Disk T) (key : string) (data : T).

(** X28.  With the storage answering, [cacheStorage.set] followed by
    [cacheStorage.get] gives the data back exactly when the clock has
    advanced by at most [ttl] between the two; otherwise [get] returns
    null and the entry is gone from the storage. *)
Theorem cache_entry_lives_for_its_ttl key data ttl d :
  (∀ n, Cache.answers d n = true) →
  let t0 := Cache.dclock d (Cache.dticks d) in
  let t1 := Cache.dclock d (S (Cache.dticks d)) in
  let stored := (Cache.set key data ttl d).2 in
  let read := Cache.get key stored in
  (Cache.set key data ttl d).1 = Cache.Resolved tt
  ∧ Cache.items stored !! ("cache:" +:+ key)
    = Some {| Cache.ci_data := data; Cache.ci_timestamp := t0;
              Cache.ci_ttl := ttl |}
  ∧ read.1 = Cache.Resolved (if decide (t1 - t0 ≤ ttl) then Some data
                             else None)
  ∧ Cache.items read.2 !! ("cache:" +:+ key)
    = (if decide (t1 - t0 ≤ ttl)
       then Some {| Cache.ci_data := data; Cache.ci_timestamp := t0;
                    Cache.ci_ttl := ttl |}
       else None).
Proof.
  intros Hup t0 t1 stored read. subst stored read.
  unfold Cache.set, Cache.get, Cache.getItem, Cache.setItem,
    Cache.removeItem, Cache.AsyncStorage_call, Cache.now. simpl.
  rewrite !Hup. simpl. rewrite lookup_insert_eq. simpl.
  rewrite !Hup. simpl. fold t0 t1.
  destruct (decide (t1 - t0 ≤ ttl)) as [Hle|Hgt].
  - rewrite bool_decide_eq_false_2 by lia. simpl.
    by rewrite lookup_insert_eq.
  - rewrite bool_decide_eq_true_2 by lia. simpl. rewrite Hup. simpl.
    by rewrite lookup_delete_eq.
Qed.

(** X29.  [cacheStorage.get] never returns a stale entry.  Data it
    returns is the data of the stored entry, read within its [ttl], and
    the storage is untouched.  When it returns null the entry has been
    deleted, or the read failed or found nothing.  It rejects only when
    the entry had expired and the removal was not answered. *)
Theorem cache_never_returns_a_stale_entry key d :
  let read := Cache.get key d in
  match read.1 with
  | Cache.Resolved (Some x) =>
      ∃ item t, Cache.items d !! ("cache:" +:+ key) = Some item
        ∧ Cache.ci_data item = x
        ∧ t = Cache.dclock d (Cache.dticks d)
        ∧ t - Cache.ci_timestamp item ≤ Cache.ci_ttl item
        ∧ Cache.items read.2 = Cache.items d
  | Cache.Resolved None =>
      Cache.items read.2 = delete ("cache:" +:+ key) (Cache.items d)
      ∨ Cache.items read.2 = Cache.items d
        ∧ (Cache.answers d (Cache.calls d) = false
           ∨ Cache.items d !! ("cache:" +:+ key) = None)
  | Cache.Rejected =>
      ∃ item, Cache.items d !! ("cache:" +:+ key) = Some item
        ∧ Cache.dclock d (Cache.dticks d) - Cache.ci_timestamp item
          > Cache.ci_ttl item
        ∧ Cache.answers d (S (Cache.calls d)) = false
        ∧ Cache.items read.2 = Cache.items d
  end.
Proof.
  intros read. subst read.
  unfold Cache.get, Cache.getItem, Cache.removeItem,
    Cache.AsyncStorage_call, Cache.now. simpl.
  destruct (Cache.answers d (Cache.calls d)) eqn:Hup; simpl.
  - destruct (Cache.items d !! ("cache:" +:+ key)) as [item|] eqn:Hi; simpl.
    + case_bool_decide as Hexp; simpl.
      * destruct (Cache.answers d (S (Cache.calls d))) eqn:Hup2; simpl.
        -- by left.
        -- exists item. done.
      * exists item, (Cache.dclock d (Cache.dticks d)).
        split_and!; try done; lia.
    + right. split; [done | by right].
  - right. split; [done | by left].
Qed.
End CacheFacts.

Lemma cache_entry_lives_for_its_ttl_witness :
  let d : @Cache.Disk string :=
    {| Cache.items := ∅; Cache.answers := λ _, true; Cache.calls := 0;
       Cache.dclock := λ n, 1751700000000 + 400000 * Z.of_nat n;
       Cache.dticks := 0; Cache.dconsole := [] |} in
  (Cache.get "standings"
     (Cache.set "standings" "AL East" Cache.default_ttl d).2).1
  = Cache.Resolved None
  ∧ (Cache.get "standings"
       (Cache.set "standings" "AL East" 400000 d).2).1
    = Cache.Resolved (Some "AL East").
Proof.
  intros d. split.
  - exact (proj1 (proj2 (proj2
      (cache_entry_lives_for_its_ttl "standings" "AL East"
         Cache.default_ttl d (λ _, eq_refl))))).
  - exact (proj1 (proj2 (proj2
      (cache_entry_lives_for_its_ttl "standings" "AL East" 400000 d
         (λ _, eq_refl))))).
Defined.
